(** * Bill-Scan-Bot: the Telegram command dispatcher and its stores

    A shallow embedding of [lib/telegram-handlers.ts],
    [lib/telegram-users.ts], [lib/receipt-storage.ts] and the part of
    [lib/auth.ts] and [lib/database.ts] they rest on.

    - JavaScript strings are sequences of UTF-16 code units: [list N].
    - The SQLite tables are lists of rows in insertion order; the
      constraints of the schema (primary keys, UNIQUE, foreign keys, and
      NOT NULL where the value bound can be null) are checked on
      insertion and make the statement throw.
    - [JSON.parse] validates nothing: the [error] of an analysis is any
      JSON value, its [items] may be missing, and so may every field of
      an item.
    - A REAL amount is the rational number that the stored double is
      ([Q]).  The double arithmetic of the aggregates SUM and AVG (its
      rounding, the order in which the engine adds) is not computed here:
      it is read from the environment, like every other answer of the
      outside.
    - Handlers run in a state and exception monad over a [world]: the
      database, a counter of the calls made to the outside, and the log of
      those calls.  Everything the outside answers (the Telegram transport,
      the Gemini model, the clock, random UUIDs, [JSON.parse], the double
      arithmetic of SQLite) is read from an environment [env], over which
      the theorems quantify. *)

From Stdlib Require Import List NArith ZArith QArith Qabs Bool Lia String Ascii.
From Stdlib Require Import Sorting.Sorted Sorting.Permutation.
From Stdlib Require DecimalString.
Import ListNotations.

Set Implicit Arguments.

(** ** Strings *)

Module Js.

Definition char := N.
Definition jsstring := list char.

(** An ASCII literal as code units. *)
Definition lit (s : string) : jsstring :=
  List.map N_of_ascii (list_ascii_of_string s).

Fixpoint eqb (a b : jsstring) : bool :=
  match a, b with
  | [], [] => true
  | c :: a', d :: b' => N.eqb c d && eqb a' b'
  | _, _ => false
  end.

(** [s.startsWith(p)] *)
Fixpoint startsWith (s p : jsstring) {struct p} : bool :=
  match p with
  | [] => true
  | c :: p' =>
      match s with
      | [] => false
      | d :: s' => N.eqb d c && startsWith s' p'
      end
  end.

(** [s.endsWith(p)] *)
Definition endsWith (s p : jsstring) : bool :=
  startsWith (rev s) (rev p).

(** [s.substring(0, n)] *)
Definition substring0 (n : nat) (s : jsstring) : jsstring := firstn n s.

(** Truthiness of a string: the empty string is falsy. *)
Definition truthy (s : jsstring) : bool :=
  match s with [] => false | _ :: _ => true end.

(** Truthiness of [string | null | undefined]. *)
Definition truthy_opt (o : option jsstring) : bool :=
  match o with Some s => truthy s | None => false end.

(** [o || d] on an optional string. *)
Definition or_else (o : option jsstring) (d : jsstring) : jsstring :=
  match o with
  | Some s => if truthy s then s else d
  | None => d
  end.

(** [o || undefined], [o || null]: a falsy string becomes absent. *)
Definition or_null (o : option jsstring) : option jsstring :=
  match o with
  | Some s => if truthy s then Some s else None
  | None => None
  end.

(** Binary comparison of TEXT values, as ORDER BY uses it. *)
Fixpoint leb (a b : jsstring) : bool :=
  match a, b with
  | [], _ => true
  | _ :: _, [] => false
  | c :: a', d :: b' =>
      if N.ltb c d then true
      else if N.eqb c d then leb a' b'
      else false
  end.

(** The class [\s] of ECMAScript regular expressions: WhiteSpace and
    LineTerminator code units. *)
Definition is_space (c : char) : bool :=
  ((9 <=? c) && (c <=? 13)
   || (c =? 32) || (c =? 160) || (c =? 5760)
   || ((8192 <=? c) && (c <=? 8202))
   || (c =? 8232) || (c =? 8233) || (c =? 8239) || (c =? 8287)
   || (c =? 12288) || (c =? 65279))%N.

(** [s.split(/\s+/)].  The separator never matches the empty string, so the
    SplitMatcher loop of the language cuts the text at every maximal run of
    white space; a run at either end leaves an empty piece there.  [acc] is
    the current piece, reversed; [in_sep] tells that the previous code unit
    belonged to a separator. *)
Fixpoint split_go (in_sep : bool) (acc : jsstring) (s : jsstring)
  : list jsstring :=
  match s with
  | [] => [rev acc]
  | c :: s' =>
      if is_space c then
        if in_sep then split_go true acc s'
        else rev acc :: split_go true [] s'
      else split_go false (c :: acc) s'
  end.

Definition split_ws (s : jsstring) : list jsstring := split_go false [] s.

(** Case folding of the [i] flag without the [u] flag: Canonicalize maps a
    code unit to its upper case, and never maps a code unit of 128 or more
    to one below 128, so on the ASCII patterns used here only the ASCII
    letters fold. *)
Definition canonicalize (c : char) : char :=
  if ((97 <=? c) && (c <=? 122))%N then (c - 32)%N else c.

(** Does [s] start with the literal [p], compared under the [i] flag?
    Returns the rest of [s]. *)
Fixpoint strip_prefix_ci (p s : jsstring) {struct p} : option jsstring :=
  match p with
  | [] => Some s
  | c :: p' =>
      match s with
      | [] => None
      | d :: s' =>
          if N.eqb (canonicalize d) (canonicalize c)
          then strip_prefix_ci p' s' else None
      end
  end.

(** The class [[a-f0-9]] under the [i] flag. *)
Definition is_hex_ci (c : char) : bool :=
  ((48 <=? c) && (c <=? 57)
   || (97 <=? c) && (c <=? 102)
   || (65 <=? c) && (c <=? 70))%N.

Fixpoint takeWhile (p : char -> bool) (s : jsstring) : jsstring :=
  match s with
  | [] => []
  | c :: s' => if p c then c :: takeWhile p s' else []
  end.

(** [String(n)] for an integer [n]. *)
Definition of_Z (z : Z) : jsstring :=
  lit (DecimalString.NilZero.string_of_int (Z.to_int z)).

End Js.

Import Js.

Declare Scope js_scope.
Delimit Scope js_scope with js.
Notation "a =? b" := (Js.eqb a b) : js_scope.

(** ** Data model *)

(** *** Telegram messages ([lib/telegram-bot.ts]) *)

Record TgFrom := {
  first_name : jsstring;
  last_name : option jsstring
}.

Record TgPhotoSize := {
  file_id : jsstring;
  width : N;
  height : N
}.

Record TgMessage := {
  msg_from : option TgFrom;
  msg_chat_id : Z;
  msg_text : option jsstring;
  msg_photo : option (list TgPhotoSize);
  msg_caption : option jsstring
}.

Record TgFile := { file_path : option jsstring }.

(** *** JSON values

    [JSON.parse] validates nothing, so a field of what it returns can hold
    any JSON value.  [JNull] also stands for a field that is missing
    ([undefined]). *)
Unset Elimination Schemes.
Inductive json :=
| JNull
| JBool (b : bool)
| JNumber (x : Q)
| JString (s : jsstring)
| JArray (elements : list json)
| JObject (members : list (jsstring * json)).
Set Elimination Schemes.

(** Truthiness of a JSON value, as [if (v)] tests it: [null], a missing
    field, [false], zero and the empty string are falsy; every other
    value is truthy, arrays and objects included. *)
Definition ToBoolean (v : json) : bool :=
  match v with
  | JNull => false
  | JBool b => b
  | JNumber x => negb (Qnum x =? 0)%Z
  | JString s => truthy s
  | JArray _ => true
  | JObject _ => true
  end.

(** *** Receipts ([types/receipt.ts])

    The interfaces are not checked at run time.  The records below hold
    what the code can meet: [None] is [null] or a missing field.  In an
    item read from the table the NOT NULL columns are present; in an item
    of an analysis any field may be missing. *)

Record ReceiptItem := {
  item_id : option jsstring;
  item_receipt_id : option jsstring;
  item_name : option jsstring;
  item_quantity : option Q;
  item_unit_price : option Q;
  item_total_price : option Q;
  item_category : option jsstring
}.

(** The value that [JSON.parse] returned on the text of the model, seen
    through the fields the code reads.  [error] is only tested for
    truthiness and interpolated, so it is kept as the JSON value it is;
    [items] is the array, or [None] when the field is [null], missing or
    otherwise not iterable; the other fields are taken at their declared
    type, or [None]. *)
Record ReceiptAnalysisResult := {
  a_store_name : option jsstring;
  a_date : option jsstring;
  a_time : option jsstring;
  a_items_array : option (list ReceiptItem);
  a_subtotal : option Q;
  a_tax : option Q;
  a_total_amount : option Q;
  a_currency : option jsstring;
  a_payment_method : option jsstring;
  a_error : json
}.

(** The items that [for (const item of analysisResult.items)] visits. *)
Definition a_items (a : ReceiptAnalysisResult) : list ReceiptItem :=
  match a_items_array a with
  | Some l => l
  | None => []
  end.

(** What [JSON.parse(text)] does: it throws a SyntaxError, or it returns
    [null], or it returns another value. *)
Inductive parsed :=
| SyntaxError
| ParsedNull
| Parsed (a : ReceiptAnalysisResult).

Record Receipt := {
  r_id : jsstring;
  store_name : option jsstring;
  date : option jsstring;
  time : option jsstring;
  subtotal : option Q;
  tax : option Q;
  total_amount : option Q;
  currency : option jsstring;
  payment_method : option jsstring;
  raw_response : option jsstring;
  created_at : jsstring;
  items : list ReceiptItem
}.

Record UserReceipt := {
  ur_id : jsstring;
  ur_user_id : jsstring;
  ur_receipt_id : jsstring;
  ur_added_at : jsstring;
  ur_notes : option jsstring
}.

Record UserReceiptWithDetails := {
  receipt : Receipt;
  user_receipt_id : jsstring;
  added_at : jsstring;
  notes : option jsstring
}.

(** *** Rows of the tables ([lib/database.ts]) *)

Record UserRow := {
  u_id : jsstring;
  u_email : jsstring;
  u_password : jsstring;
  u_name : jsstring;
  u_created_at : jsstring
}.

Record ReceiptRow := {
  row_id : jsstring;
  row_store_name : option jsstring;
  row_date : option jsstring;
  row_time : option jsstring;
  row_subtotal : option Q;
  row_tax : option Q;
  row_total_amount : option Q;
  row_currency : option jsstring;
  row_payment_method : option jsstring;
  row_raw_response : option jsstring;
  row_created_at : jsstring
}.

Record ReceiptItemRow := {
  ri_id : jsstring;
  ri_receipt_id : jsstring;
  ri_name : jsstring;
  ri_quantity : Q;
  ri_unit_price : Q;
  ri_total_price : Q;
  ri_category : option jsstring
}.

Record TelegramUser := {
  chat_id : jsstring;
  user_id : jsstring;
  google_api_key : option jsstring;
  tu_created_at : jsstring
}.

Record DB := {
  users : list UserRow;
  receipts : list ReceiptRow;
  receipt_items : list ReceiptItemRow;
  user_receipts : list UserReceipt;
  telegram_users : list TelegramUser
}.

Definition empty_db : DB :=
  {| users := []; receipts := []; receipt_items := [];
     user_receipts := []; telegram_users := [] |}.

(** ** Replies

    Every text the handlers send is one template of the source; a reply
    names the template and carries what the source interpolates into it,
    after the source's own defaults ([||], [??]) have been applied.  The
    printing of a number or of a JSON value ([toFixed], the conversion to
    a string) stays with the transport. *)

Definition unknown_store : jsstring := [26410; 30693; 21830; 24215]%N.
Definition unknown_date : jsstring := [26410; 30693; 26085; 26399]%N.
Definition unknown_word : jsstring := [26410; 30693]%N.
Definition unknown_error : jsstring := [26410; 30693; 38169; 35823]%N.

(** The text of [formatReceipt]. *)
Record receipt_text := {
  t_title : jsstring;
  t_date : jsstring;
  t_time : jsstring;
  t_items : list (option jsstring * option Q * option Q);
  t_subtotal : option Q;
  t_tax : option Q;
  t_total : option Q;
  t_currency : jsstring;
  t_payment : option jsstring
}.

(** One line of [/history]. *)
Record history_line := {
  h_short_id : jsstring;
  h_date : jsstring;
  h_store : jsstring;
  h_total : option Q;
  h_currency : jsstring
}.

Record stats := {
  totalReceipts : nat;
  totalAmount : Q;
  averageAmount : Q
}.

Inductive reply :=
| ReplyWelcome (name : jsstring)
| ReplySetKeyUsage
| ReplySetKeyUpdated
| ReplyRegisterFirst
| ReplyStats (s : stats)
| ReplyNoReceipts
| ReplyHistory (count : nat) (lines : list history_line)
| ReplyReceiptNotFound
| ReplyReceipt (t : receipt_text)
| ReplyDeleteUsage
| ReplyDeleteNotFound
| ReplyDeleted (short_id : jsstring)
| ReplyHelp
| ReplySetKeyFirst
| ReplyNoPhotoFile
| ReplyAnalyzing
| ReplyUnparsable
| ReplyPhotoAnalysisError (error : json)
| ReplyTextAnalysisError (error : json)
| ReplySaved (t : receipt_text) (short_id : jsstring)
| ReplyPhotoFailed (message : jsstring)
| ReplyTextFailed (message : jsstring)
| ReplyUnknownCommand.

(** ** The outside world *)

Inductive result (A : Type) :=
| Ok (a : A)
| Throw (message : jsstring).

Arguments Ok {A} a.
Arguments Throw {A} message.

(** The calls a handler makes to the outside, as the log keeps them.  The
    two calls to the Gemini model keep what the model answered. *)
Inductive event :=
| EvSendMessage (chatId : Z) (r : reply)
| EvSendChatAction (chatId : Z) (action : jsstring)
| EvGetFile (fileId : jsstring)
| EvDownload (path : jsstring)
| EvAnalyzeImage (image key : jsstring) (out : result jsstring)
| EvGenerateText (prompt key : jsstring) (out : result jsstring).

(** What the outside answers.  The first argument of an answer is the
    number of calls made before it, so that two calls need not agree.

    [real_sum] and [real_div] are the double arithmetic of the database
    engine: [real_sum l] is the double that its running sum of the REAL
    values [l] ends with, and [real_div x n] the double that dividing the
    double [x] by [n] gives.  Both round, so neither is the exact sum or
    quotient in general. *)
Record env := {
  telegram_sendMessage : nat -> Z -> reply -> result unit;
  telegram_sendChatAction : nat -> Z -> jsstring -> result unit;
  telegram_getFile : nat -> jsstring -> result TgFile;
  telegram_download : nat -> jsstring -> result (list N);
  buffer_base64 : list N -> jsstring;
  gemini_generate_image : nat -> jsstring -> jsstring -> result jsstring;
  gemini_generate_text : nat -> jsstring -> jsstring -> result jsstring;
  GOOGLE_API_KEY : option jsstring;
  JSON_parse : jsstring -> parsed;
  JSON_stringify : ReceiptAnalysisResult -> jsstring;
  crypto_randomUUID : nat -> jsstring;
  crypto_hashPassword : nat -> jsstring -> jsstring;
  date_toISOString : nat -> jsstring;
  real_sum : list Q -> Q;
  real_div : Q -> Q -> Q
}.

Record world := {
  db : DB;
  tick : nat;
  log : list event
}.

(** ** The monad of handlers *)

Definition M (A : Type) : Type := world -> result A * world.

Definition ret {A} (a : A) : M A := fun w => (Ok a, w).

Definition bind {A B} (c : M A) (k : A -> M B) : M B :=
  fun w =>
    match c w with
    | (Ok a, w') => k a w'
    | (Throw e, w') => (Throw e, w')
    end.

Definition throw {A} (message : jsstring) : M A := fun w => (Throw message, w).

(** [try { body } catch (err) { handler(err.message) }] *)
Definition try_catch {A} (body : M A) (handler : jsstring -> M A) : M A :=
  fun w =>
    match body w with
    | (Ok a, w') => (Ok a, w')
    | (Throw e, w') => handler e w'
    end.

(** [db.transaction(body)()]: a throw inside rolls the tables back. *)
Definition transaction {A} (body : M A) : M A :=
  fun w =>
    match body w with
    | (Ok a, w') => (Ok a, w')
    | (Throw e, w') =>
        (Throw e, {| db := db w; tick := tick w'; log := log w' |})
    end.

Definition get_db : M DB := fun w => (Ok (db w), w).

Definition put_db (d : DB) : M unit :=
  fun w => (Ok tt, {| db := d; tick := tick w; log := log w |}).

(** One call to the outside: the counter advances and the log grows. *)
Definition call {A} (answer : nat -> result A) (ev : result A -> event)
  : M A :=
  fun w =>
    let out := answer (tick w) in
    (out, {| db := db w; tick := S (tick w); log := log w ++ [ev out] |}).

(** One reading of the clock or of the random source: no log entry. *)
Definition draw {A} (value : nat -> A) : M A :=
  fun w =>
    (Ok (value (tick w)),
     {| db := db w; tick := S (tick w); log := log w |}).

Declare Scope monad_scope.
Delimit Scope monad_scope with monad.
Notation "x <- c ;; k" := (bind c (fun x => k))
  (at level 61, c at next level, right associativity) : monad_scope.
Notation "c ;;; k" := (bind c (fun _ => k))
  (at level 61, right associativity) : monad_scope.
Open Scope monad_scope.

(** [for (const x of l) body(x)] *)
Fixpoint for_of {A} (l : list A) (body : A -> M unit) : M unit :=
  match l with
  | [] => ret tt
  | x :: l' => body x ;;; for_of l' body
  end.

(** ** Queries: the SELECT statements, as functions of the tables *)

Local Open Scope js_scope.

(** [SELECT * FROM telegram_users WHERE chat_id = ?], first row. *)
Definition select_telegram_user (d : DB) (chatId : jsstring)
  : option TelegramUser :=
  find (fun t => chat_id t =? chatId) (telegram_users d).

(** [SELECT * FROM receipt_items WHERE receipt_id = ?] *)
Definition select_receipt_items (d : DB) (receiptId : jsstring)
  : list ReceiptItemRow :=
  filter (fun i => ri_receipt_id i =? receiptId) (receipt_items d).

(** [FROM receipts r INNER JOIN user_receipts ur ON r.id = ur.receipt_id
     WHERE ur.user_id = ?] *)
Definition join_user_receipts (d : DB) (userId : jsstring)
  : list (ReceiptRow * UserReceipt) :=
  flat_map
    (fun ur =>
       List.map (fun r => (r, ur))
         (filter (fun r => row_id r =? ur_receipt_id ur) (receipts d)))
    (filter (fun ur => ur_user_id ur =? userId) (user_receipts d)).

(** [ORDER BY ur.added_at DESC]: an insertion sort on the TEXT of
    [added_at]; rows that tie keep the order of the join (SQL leaves the
    order among ties open, and no theorem below depends on it). *)
Fixpoint insert_desc (x : ReceiptRow * UserReceipt)
  (l : list (ReceiptRow * UserReceipt)) : list (ReceiptRow * UserReceipt) :=
  match l with
  | [] => [x]
  | y :: l' =>
      if Js.leb (ur_added_at (snd y)) (ur_added_at (snd x))
      then x :: y :: l'
      else y :: insert_desc x l'
  end.

Definition order_by_added_at_desc (l : list (ReceiptRow * UserReceipt))
  : list (ReceiptRow * UserReceipt) :=
  fold_right insert_desc [] l.

Definition rowToReceipt (row : ReceiptRow) (its : list ReceiptItem)
  : Receipt :=
  {| r_id := row_id row;
     store_name := row_store_name row;
     date := row_date row;
     time := row_time row;
     subtotal := row_subtotal row;
     tax := row_tax row;
     total_amount := row_total_amount row;
     currency := row_currency row;
     payment_method := row_payment_method row;
     raw_response := row_raw_response row;
     created_at := row_created_at row;
     items := its |}.

Definition rowToReceiptItem (row : ReceiptItemRow) : ReceiptItem :=
  {| item_id := Some (ri_id row);
     item_receipt_id := Some (ri_receipt_id row);
     item_name := Some (ri_name row);
     item_quantity := Some (ri_quantity row);
     item_unit_price := Some (ri_unit_price row);
     item_total_price := Some (ri_total_price row);
     item_category := ri_category row |}.

Definition select_getReceiptItems (d : DB) (receiptId : jsstring)
  : list ReceiptItem :=
  List.map rowToReceiptItem (select_receipt_items d receiptId).

Definition with_details (d : DB) (row : ReceiptRow * UserReceipt)
  : UserReceiptWithDetails :=
  {| receipt :=
       rowToReceipt (fst row) (select_getReceiptItems d (row_id (fst row)));
     user_receipt_id := ur_id (snd row);
     added_at := ur_added_at (snd row);
     notes := ur_notes (snd row) |}.

(** The rows of [getUserReceipts]. *)
Definition select_user_receipts (d : DB) (userId : jsstring)
  : list UserReceiptWithDetails :=
  List.map (with_details d)
    (order_by_added_at_desc (join_user_receipts d userId)).

(** SQL aggregates over a nullable column: NULLs are skipped, and the
    aggregate of no value is NULL. *)
Fixpoint non_null_values (l : list (option Q)) : list Q :=
  match l with
  | [] => []
  | Some q :: l' => q :: non_null_values l'
  | None :: l' => non_null_values l'
  end.

(** [SUM(column)] over REAL values: the running sum of the engine. *)
Definition sql_SUM (E : env) (l : list (option Q)) : option Q :=
  match non_null_values l with
  | [] => None
  | v => Some (real_sum E v)
  end.

(** [AVG(column)] over REAL values: the same running sum, divided by the
    number of values that are not NULL. *)
Definition sql_AVG (E : env) (l : list (option Q)) : option Q :=
  match non_null_values l with
  | [] => None
  | v => Some (real_div E (real_sum E v) (inject_Z (Z.of_nat (List.length v))))
  end.

Definition COALESCE (o : option Q) (d : Q) : Q :=
  match o with Some q => q | None => d end.

(** The row of [getUserReceiptStats]: [COUNT( * )],
    [COALESCE(SUM(r.total_amount), 0)] and
    [COALESCE(AVG(r.total_amount), 0)] over the join. *)
Definition select_user_receipt_stats (E : env) (d : DB) (userId : jsstring)
  : stats :=
  let rows := join_user_receipts d userId in
  let amounts := List.map (fun row => row_total_amount (fst row)) rows in
  {| totalReceipts := List.length rows;
     totalAmount := COALESCE (sql_SUM E amounts) 0;
     averageAmount := COALESCE (sql_AVG E amounts) 0 |}.

(** ** Statements that write *)

Definition with_users (d : DB) (l : list UserRow) : DB :=
  {| users := l; receipts := receipts d; receipt_items := receipt_items d;
     user_receipts := user_receipts d; telegram_users := telegram_users d |}.

Definition with_receipts (d : DB) (l : list ReceiptRow) : DB :=
  {| users := users d; receipts := l; receipt_items := receipt_items d;
     user_receipts := user_receipts d; telegram_users := telegram_users d |}.

Definition with_receipt_items (d : DB) (l : list ReceiptItemRow) : DB :=
  {| users := users d; receipts := receipts d; receipt_items := l;
     user_receipts := user_receipts d; telegram_users := telegram_users d |}.

Definition with_user_receipts (d : DB) (l : list UserReceipt) : DB :=
  {| users := users d; receipts := receipts d;
     receipt_items := receipt_items d;
     user_receipts := l; telegram_users := telegram_users d |}.

Definition with_telegram_users (d : DB) (l : list TelegramUser) : DB :=
  {| users := users d; receipts := receipts d;
     receipt_items := receipt_items d;
     user_receipts := user_receipts d; telegram_users := l |}.

(** [INSERT INTO users]: [id] is the primary key, [email] is UNIQUE. *)
Definition insert_user (u : UserRow) : M unit :=
  d <- get_db ;;
  if existsb (fun x => u_id x =? u_id u) (users d)
  then throw (lit "UNIQUE constraint failed: users.id")
  else if existsb (fun x => u_email x =? u_email u) (users d)
  then throw (lit "UNIQUE constraint failed: users.email")
  else put_db (with_users d (users d ++ [u])).

(** [INSERT INTO telegram_users]: [chat_id] is the primary key, [user_id]
    references [users]. *)
Definition insert_telegram_user (t : TelegramUser) : M unit :=
  d <- get_db ;;
  if existsb (fun x => chat_id x =? chat_id t) (telegram_users d)
  then throw (lit "UNIQUE constraint failed: telegram_users.chat_id")
  else if negb (existsb (fun u => u_id u =? user_id t) (users d))
  then throw (lit "FOREIGN KEY constraint failed")
  else put_db (with_telegram_users d (telegram_users d ++ [t])).

(** [INSERT INTO receipts] *)
Definition insert_receipt (r : ReceiptRow) : M unit :=
  d <- get_db ;;
  if existsb (fun x => row_id x =? row_id r) (receipts d)
  then throw (lit "UNIQUE constraint failed: receipts.id")
  else put_db (with_receipts d (receipts d ++ [r])).

(** The row that the values bound to [INSERT INTO receipt_items] make, or
    the first NOT NULL column that would hold NULL.  [quantity] has a
    DEFAULT, which an explicit NULL does not bring in. *)
Definition item_values (id receipt_id : jsstring) (name : option jsstring)
  (quantity unit_price total_price : option Q) (category : option jsstring)
  : jsstring + ReceiptItemRow :=
  match name, quantity, unit_price, total_price with
  | None, _, _, _ => inl (lit "name")
  | Some _, None, _, _ => inl (lit "quantity")
  | Some _, Some _, None, _ => inl (lit "unit_price")
  | Some _, Some _, Some _, None => inl (lit "total_price")
  | Some n, Some q, Some u, Some t =>
      inr {| ri_id := id; ri_receipt_id := receipt_id; ri_name := n;
             ri_quantity := q; ri_unit_price := u; ri_total_price := t;
             ri_category := category |}
  end.

(** [INSERT INTO receipt_items]: the NOT NULL columns, then the primary
    key [id], then the foreign key [receipt_id]. *)
Definition insert_receipt_item (id receipt_id : jsstring)
  (name : option jsstring) (quantity unit_price total_price : option Q)
  (category : option jsstring) : M unit :=
  match
    item_values id receipt_id name quantity unit_price total_price category
  with
  | inl column =>
      throw (lit "NOT NULL constraint failed: receipt_items." ++ column)
  | inr i =>
      d <- get_db ;;
      if existsb (fun x => ri_id x =? ri_id i) (receipt_items d)
      then throw (lit "UNIQUE constraint failed: receipt_items.id")
      else if negb (existsb (fun r => row_id r =? ri_receipt_id i)
                      (receipts d))
      then throw (lit "FOREIGN KEY constraint failed")
      else put_db (with_receipt_items d (receipt_items d ++ [i]))
  end.

(** [INSERT INTO user_receipts]: UNIQUE(user_id, receipt_id), and both
    columns are foreign keys. *)
Definition insert_user_receipt (ur : UserReceipt) : M unit :=
  d <- get_db ;;
  if existsb (fun x => ur_id x =? ur_id ur) (user_receipts d)
  then throw (lit "UNIQUE constraint failed: user_receipts.id")
  else if existsb
            (fun x => (ur_user_id x =? ur_user_id ur)
                      && (ur_receipt_id x =? ur_receipt_id ur))
            (user_receipts d)
  then throw
         (lit "UNIQUE constraint failed: user_receipts.user_id, user_receipts.receipt_id")
  else if negb (existsb (fun u => u_id u =? ur_user_id ur) (users d))
          || negb (existsb (fun r => row_id r =? ur_receipt_id ur)
                     (receipts d))
  then throw (lit "FOREIGN KEY constraint failed")
  else put_db (with_user_receipts d (user_receipts d ++ [ur])).

(** [DELETE FROM receipts WHERE id = ?], with ON DELETE CASCADE on the
    line items and on the ownership links of the deleted receipt. *)
Definition delete_receipt_rows (d : DB) (id : jsstring) : DB :=
  if existsb (fun r => row_id r =? id) (receipts d) then
    {| users := users d;
       receipts := filter (fun r => negb (row_id r =? id)) (receipts d);
       receipt_items :=
         filter (fun i => negb (ri_receipt_id i =? id)) (receipt_items d);
       user_receipts :=
         filter (fun ur => negb (ur_receipt_id ur =? id)) (user_receipts d);
       telegram_users := telegram_users d |}
  else d.

(** [DELETE FROM user_receipts WHERE user_id = ? AND receipt_id = ?] *)
Definition delete_link_rows (d : DB) (userId receiptId : jsstring) : DB :=
  with_user_receipts d
    (filter
       (fun ur => negb ((ur_user_id ur =? userId)
                        && (ur_receipt_id ur =? receiptId)))
       (user_receipts d)).

(** [UPDATE telegram_users SET google_api_key = ? WHERE chat_id = ?] *)
Definition update_api_key (d : DB) (chatId apiKey : jsstring) : DB :=
  with_telegram_users d
    (List.map
       (fun t =>
          if chat_id t =? chatId then
            {| chat_id := chat_id t; user_id := user_id t;
               google_api_key := Some apiKey;
               tu_created_at := tu_created_at t |}
          else t)
       (telegram_users d)).

(** ** The program *)

Section Program.

Variable E : env.

(** *** The outside: transport, model, clock, random source *)

Definition sendMessage (chatId : Z) (r : reply) : M unit :=
  call (fun t => telegram_sendMessage E t chatId r)
       (fun _ => EvSendMessage chatId r).

Definition sendChatAction (chatId : Z) (action : jsstring) : M unit :=
  call (fun t => telegram_sendChatAction E t chatId action)
       (fun _ => EvSendChatAction chatId action).

Definition getFile (fileId : jsstring) : M TgFile :=
  call (fun t => telegram_getFile E t fileId) (fun _ => EvGetFile fileId).

Definition downloadFileBuffer (filePath : jsstring) : M (list N) :=
  call (fun t => telegram_download E t filePath)
       (fun _ => EvDownload filePath).

Definition randomUUID : M jsstring := draw (crypto_randomUUID E).

Definition toISOString_now : M jsstring := draw (date_toISOString E).

Definition hashPassword (password : jsstring) : M jsstring :=
  draw (fun t => crypto_hashPassword E t password).

(** [createGeminiModel(apiKey)]: the key the client is built with,
    [apiKey || process.env.GOOGLE_API_KEY || ""]. *)
Definition createGeminiModel (apiKey : option jsstring) : jsstring :=
  or_else apiKey (or_else (GOOGLE_API_KEY E) []).

(** [analyzeReceiptImage(image, apiKey)]: one [generateContent] call on the
    image; what [parseBase64Image] cuts out of [image] is a function of
    [image], so the answer is taken as a function of [image] itself. *)
Definition analyzeReceiptImage (image : jsstring) (apiKey : option jsstring)
  : M jsstring :=
  let key := createGeminiModel apiKey in
  call (fun t => gemini_generate_image E t image key)
       (EvAnalyzeImage image key).

(** [createGeminiModel(apiKey).generateContent([prompt])] and
    [result.response.text()]. *)
Definition generateContent_text (prompt : jsstring)
  (apiKey : option jsstring) : M jsstring :=
  let key := createGeminiModel apiKey in
  call (fun t => gemini_generate_text E t prompt key)
       (EvGenerateText prompt key).

(** *** [lib/auth.ts] *)

Definition createUser (email password name : jsstring) : M UserRow :=
  id <- randomUUID ;;
  hashedPassword <- hashPassword password ;;
  createdAt <- toISOString_now ;;
  let row := {| u_id := id; u_email := email; u_password := hashedPassword;
                u_name := name; u_created_at := createdAt |} in
  insert_user row ;;;
  ret row.

(** *** [lib/telegram-users.ts] *)

Definition findTelegramUser (chatId : jsstring) : M (option TelegramUser) :=
  d <- get_db ;;
  ret (select_telegram_user d chatId).

Definition createTelegramUser (chatId name : jsstring) : M TelegramUser :=
  let email := lit "tg_" ++ chatId ++ lit "@telegram.local" in
  password <- randomUUID ;;
  user <- createUser email password name ;;
  createdAt <- toISOString_now ;;
  let row := {| chat_id := chatId; user_id := u_id user;
                google_api_key := None; tu_created_at := createdAt |} in
  insert_telegram_user row ;;;
  ret row.

Definition getOrCreateTelegramUser (chatId name : jsstring)
  : M TelegramUser :=
  existing <- findTelegramUser chatId ;;
  match existing with
  | Some t => ret t
  | None => createTelegramUser chatId name
  end.

Definition setGoogleApiKey (chatId apiKey : jsstring) : M bool :=
  d <- get_db ;;
  put_db (update_api_key d chatId apiKey) ;;;
  ret (existsb (fun t => chat_id t =? chatId) (telegram_users d)).

(** *** [lib/receipt-storage.ts] *)

(** [for (const x of v)] first asks [v] for its iterator: a TypeError when
    [v] is [null], [undefined] or another value that is not iterable. *)
Definition iterable {A} (v : option A) : M unit :=
  match v with
  | Some _ => ret tt
  | None => throw (lit "analysisResult.items is not iterable")
  end.

Definition createReceipt (analysisResult : ReceiptAnalysisResult)
  (rawResponse : option jsstring) : M Receipt :=
  id <- randomUUID ;;
  createdAt <- toISOString_now ;;
  let raw := or_else rawResponse (JSON_stringify E analysisResult) in
  transaction
    (insert_receipt
       {| row_id := id;
          row_store_name := a_store_name analysisResult;
          row_date := a_date analysisResult;
          row_time := a_time analysisResult;
          row_subtotal := a_subtotal analysisResult;
          row_tax := a_tax analysisResult;
          row_total_amount := a_total_amount analysisResult;
          row_currency := a_currency analysisResult;
          row_payment_method := a_payment_method analysisResult;
          row_raw_response := Some raw;
          row_created_at := createdAt |} ;;;
     iterable (a_items_array analysisResult) ;;;
     for_of (a_items analysisResult)
       (fun item =>
          itemId <- randomUUID ;;
          insert_receipt_item itemId id (item_name item)
            (item_quantity item) (item_unit_price item)
            (item_total_price item) (item_category item))) ;;;
  ret {| r_id := id;
         store_name := a_store_name analysisResult;
         date := a_date analysisResult;
         time := a_time analysisResult;
         subtotal := a_subtotal analysisResult;
         tax := a_tax analysisResult;
         total_amount := a_total_amount analysisResult;
         currency := a_currency analysisResult;
         payment_method := a_payment_method analysisResult;
         raw_response := Some raw;
         created_at := createdAt;
         items := a_items analysisResult |}.

Definition deleteReceipt (id : jsstring) : M bool :=
  d <- get_db ;;
  put_db (delete_receipt_rows d id) ;;;
  ret (existsb (fun r => row_id r =? id) (receipts d)).

Definition linkReceiptToUser (userId receiptId : jsstring)
  (notes : option jsstring) : M UserReceipt :=
  id <- randomUUID ;;
  addedAt <- toISOString_now ;;
  let row := {| ur_id := id; ur_user_id := userId;
                ur_receipt_id := receiptId; ur_added_at := addedAt;
                ur_notes := or_null notes |} in
  insert_user_receipt row ;;;
  ret row.

Definition unlinkReceiptFromUser (userId receiptId : jsstring) : M bool :=
  d <- get_db ;;
  put_db (delete_link_rows d userId receiptId) ;;;
  ret (existsb
         (fun ur => (ur_user_id ur =? userId)
                    && (ur_receipt_id ur =? receiptId))
         (user_receipts d)).

Definition getUserReceipts (userId : jsstring)
  : M (list UserReceiptWithDetails) :=
  d <- get_db ;;
  ret (select_user_receipts d userId).

Definition createReceiptForUser (userId : jsstring)
  (analysisResult : ReceiptAnalysisResult)
  (notes rawResponse : option jsstring) : M UserReceiptWithDetails :=
  receipt <- createReceipt analysisResult rawResponse ;;
  userReceipt <- linkReceiptToUser userId (r_id receipt) notes ;;
  ret {| receipt := receipt;
         user_receipt_id := ur_id userReceipt;
         added_at := ur_added_at userReceipt;
         notes := ur_notes userReceipt |}.

Definition getUserReceiptStats (userId : jsstring) : M stats :=
  d <- get_db ;;
  ret (select_user_receipt_stats E d userId).

(** *** [lib/telegram-handlers.ts] *)

Fixpoint join_space (l : list jsstring) : jsstring :=
  match l with
  | [] => []
  | [a] => a
  | a :: rest => a ++ [32%N] ++ join_space rest
  end.

Definition opt_list (o : option jsstring) : list jsstring :=
  match o with Some s => [s] | None => [] end.

Definition getUserName (msg : TgMessage) : jsstring :=
  match msg_from msg with
  | None => lit "User"
  | Some f =>
      join_space (filter truthy (first_name f :: opt_list (last_name f)))
  end.

Definition formatReceipt (r : UserReceiptWithDetails) : receipt_text :=
  let rc := receipt r in
  {| t_title := or_else (store_name rc) unknown_store;
     t_date := or_else (date rc) unknown_date;
     t_time := or_else (time rc) [];
     t_items :=
       List.map
         (fun item =>
            (item_name item, item_quantity item, item_total_price item))
         (items rc);
     t_subtotal := subtotal rc;
     t_tax := tax rc;
     t_total := total_amount rc;
     t_currency := or_else (currency rc) [];
     t_payment := or_null (payment_method rc) |}.

Definition text_of (msg : TgMessage) : jsstring := or_else (msg_text msg) [].

Definition handleStart (msg : TgMessage) : M unit :=
  let chatId := msg_chat_id msg in
  let name := getUserName msg in
  getOrCreateTelegramUser (of_Z chatId) name ;;;
  sendMessage chatId (ReplyWelcome name).

Definition handleSetKey (msg : TgMessage) : M unit :=
  let chatId := msg_chat_id msg in
  let name := getUserName msg in
  getOrCreateTelegramUser (of_Z chatId) name ;;;
  let text := text_of msg in
  let parts := split_ws text in
  if (List.length parts <? 2)%nat || negb (truthy_opt (nth_error parts 1))
  then sendMessage chatId ReplySetKeyUsage
  else
    let apiKey := nth 1 parts [] in
    setGoogleApiKey (of_Z chatId) apiKey ;;;
    sendMessage chatId ReplySetKeyUpdated.

Definition handleStats (msg : TgMessage) : M unit :=
  let chatId := msg_chat_id msg in
  tgUser <- findTelegramUser (of_Z chatId) ;;
  match tgUser with
  | None => sendMessage chatId ReplyRegisterFirst
  | Some tgUser =>
      stats <- getUserReceiptStats (user_id tgUser) ;;
      sendMessage chatId (ReplyStats stats)
  end.

Definition history_line_of (r : UserReceiptWithDetails) : history_line :=
  {| h_short_id := substring0 8 (r_id (receipt r));
     h_date := or_else (date (receipt r)) unknown_word;
     h_store := or_else (store_name (receipt r)) unknown_word;
     h_total := total_amount (receipt r);
     h_currency := or_else (currency (receipt r)) [] |}.

Definition handleHistory (msg : TgMessage) : M unit :=
  let chatId := msg_chat_id msg in
  tgUser <- findTelegramUser (of_Z chatId) ;;
  match tgUser with
  | None => sendMessage chatId ReplyRegisterFirst
  | Some tgUser =>
      receipts <- getUserReceipts (user_id tgUser) ;;
      if (List.length receipts =? 0)%nat
      then sendMessage chatId ReplyNoReceipts
      else
        let recent := firstn 10 receipts in
        sendMessage chatId
          (ReplyHistory (List.length recent)
             (List.map history_line_of recent))
  end.

Definition handleReceiptDetail (msg : TgMessage)
  (receiptIdPrefix : jsstring) : M unit :=
  let chatId := msg_chat_id msg in
  tgUser <- findTelegramUser (of_Z chatId) ;;
  match tgUser with
  | None => sendMessage chatId ReplyRegisterFirst
  | Some tgUser =>
      receipts <- getUserReceipts (user_id tgUser) ;;
      match
        find (fun r => startsWith (r_id (receipt r)) receiptIdPrefix)
          receipts
      with
      | None => sendMessage chatId ReplyReceiptNotFound
      | Some m => sendMessage chatId (ReplyReceipt (formatReceipt m))
      end
  end.

Definition handleDelete (msg : TgMessage) : M unit :=
  let chatId := msg_chat_id msg in
  tgUser <- findTelegramUser (of_Z chatId) ;;
  match tgUser with
  | None => sendMessage chatId ReplyRegisterFirst
  | Some tgUser =>
      let text := text_of msg in
      let parts := split_ws text in
      if (List.length parts <? 2)%nat
      then sendMessage chatId ReplyDeleteUsage
      else
        let idPrefix := nth 1 parts [] in
        receipts <- getUserReceipts (user_id tgUser) ;;
        match
          find (fun r => startsWith (r_id (receipt r)) idPrefix) receipts
        with
        | None => sendMessage chatId ReplyDeleteNotFound
        | Some m =>
            unlinkReceiptFromUser (user_id tgUser) (r_id (receipt m)) ;;;
            deleteReceipt (r_id (receipt m)) ;;;
            sendMessage chatId
              (ReplyDeleted (substring0 8 (r_id (receipt m))))
        end
  end.

Definition handleHelp (msg : TgMessage) : M unit :=
  sendMessage (msg_chat_id msg) ReplyHelp.

(** [findTelegramUser(...)!] followed by a property access: a TypeError
    when the row is missing. *)
Definition non_null {A} (o : option A) : M A :=
  match o with
  | Some a => ret a
  | None => throw (lit "Cannot read properties of undefined")
  end.

(** Reading the property [name] of [null]: a TypeError. *)
Definition null_has_no {A} (name : jsstring) : M A :=
  throw (lit "Cannot read properties of null (reading '" ++ name
         ++ lit "')").

Fixpoint last_opt {A} (l : list A) : option A :=
  match l with
  | [] => None
  | [a] => Some a
  | _ :: l' => last_opt l'
  end.

(** [msg.photo![msg.photo!.length - 1]] *)
Definition largest_photo (msg : TgMessage) : M TgPhotoSize :=
  match msg_photo msg with
  | Some photos => non_null (last_opt photos)
  | None => non_null None
  end.

Definition handlePhoto (msg : TgMessage) : M unit :=
  let chatId := msg_chat_id msg in
  tgUser <- findTelegramUser (of_Z chatId) ;;
  match tgUser with
  | None => getOrCreateTelegramUser (of_Z chatId) (getUserName msg) ;;; ret tt
  | Some _ => ret tt
  end ;;;
  found <- findTelegramUser (of_Z chatId) ;;
  user <- non_null found ;;
  let apiKey := google_api_key user in
  if negb (truthy_opt apiKey)
  then sendMessage chatId ReplySetKeyFirst
  else
    sendChatAction chatId (lit "typing") ;;;
    try_catch
      (largest <- largest_photo msg ;;
       file <- getFile (file_id largest) ;;
       match or_null (file_path file) with
       | None => sendMessage chatId ReplyNoPhotoFile
       | Some path =>
           buffer <- downloadFileBuffer path ;;
           let base64 := buffer_base64 E buffer in
           let mimeType :=
             if endsWith path (lit ".png")
             then lit "image/png" else lit "image/jpeg" in
           let imageData :=
             lit "data:" ++ mimeType ++ lit ";base64," ++ base64 in
           sendMessage chatId ReplyAnalyzing ;;;
           rawResult <- analyzeReceiptImage imageData apiKey ;;
           match JSON_parse E rawResult with
           | SyntaxError => sendMessage chatId ReplyUnparsable
           | ParsedNull => null_has_no (lit "error")
           | Parsed analysisResult =>
               if ToBoolean (a_error analysisResult)
               then
                 sendMessage chatId
                   (ReplyPhotoAnalysisError (a_error analysisResult))
               else
                 saved <- createReceiptForUser (user_id user) analysisResult
                            (or_null (msg_caption msg)) (Some rawResult) ;;
                 sendMessage chatId
                   (ReplySaved (formatReceipt saved)
                      (substring0 8 (r_id (receipt saved))))
           end
       end)
      (fun message =>
         sendMessage chatId
           (ReplyPhotoFailed (or_else (Some message) unknown_error))).

Definition text_prompt (text : option jsstring) : jsstring :=
  lit "Analyze this text description of a receipt or expense and extract structured data. The text may be in any language. Text: "
  ++ [34%N] ++ match text with Some t => t | None => lit "undefined" end
  ++ [34%N].

Definition handleTextReceipt (msg : TgMessage) : M unit :=
  let chatId := msg_chat_id msg in
  tgUser <- findTelegramUser (of_Z chatId) ;;
  match tgUser with
  | None => getOrCreateTelegramUser (of_Z chatId) (getUserName msg) ;;; ret tt
  | Some _ => ret tt
  end ;;;
  found <- findTelegramUser (of_Z chatId) ;;
  user <- non_null found ;;
  let apiKey := google_api_key user in
  if negb (truthy_opt apiKey)
  then sendMessage chatId ReplySetKeyFirst
  else
    sendChatAction chatId (lit "typing") ;;;
    try_catch
      (rawResult <- generateContent_text (text_prompt (msg_text msg)) apiKey ;;
       match JSON_parse E rawResult with
       | SyntaxError => sendMessage chatId ReplyUnparsable
       | ParsedNull => null_has_no (lit "error")
       | Parsed analysisResult =>
           if ToBoolean (a_error analysisResult)
           then
             sendMessage chatId
               (ReplyTextAnalysisError (a_error analysisResult))
           else
             saved <- createReceiptForUser (user_id user) analysisResult
                        None (Some rawResult) ;;
             sendMessage chatId
               (ReplySaved (formatReceipt saved)
                  (substring0 8 (r_id (receipt saved))))
       end)
      (fun message =>
         sendMessage chatId
           (ReplyTextFailed (or_else (Some message) unknown_error))).

(** The pattern [/^\/receipt[_]?([a-f0-9]+)/i]: the first capture group, or
    [None] when the text does not match.  After the literal, an underscore
    is taken when one is there; giving it back cannot help, since an
    underscore is no hexadecimal digit.  The group is greedy and nothing
    follows it, so it captures the whole run of digits. *)
Definition receiptMatch (text : jsstring) : option jsstring :=
  match strip_prefix_ci (lit "/receipt") text with
  | None => None
  | Some rest =>
      let rest' :=
        match rest with
        | c :: r => if (c =? 95)%N then r else rest
        | [] => rest
        end in
      match takeWhile is_hex_ci rest' with
      | [] => None
      | digits => Some digits
      end
  end.

(** [msg.photo && msg.photo.length > 0] *)
Definition has_photo (msg : TgMessage) : bool :=
  match msg_photo msg with
  | Some (_ :: _) => true
  | _ => false
  end.

Definition handleMessage (msg : TgMessage) : M unit :=
  let text := text_of msg in
  if startsWith text (lit "/start") then handleStart msg
  else if startsWith text (lit "/setkey") then handleSetKey msg
  else if startsWith text (lit "/stats") then handleStats msg
  else if startsWith text (lit "/history") then handleHistory msg
  else if startsWith text (lit "/delete") then handleDelete msg
  else if startsWith text (lit "/help") then handleHelp msg
  else
    match receiptMatch text with
    | Some prefix => handleReceiptDetail msg prefix
    | None =>
        if has_photo msg then handlePhoto msg
        else if truthy text && negb (startsWith text (lit "/"))
        then handleTextReceipt msg
        else if startsWith text (lit "/")
        then sendMessage (msg_chat_id msg) ReplyUnknownCommand
        else ret tt
    end.

End Program.

(** Running a handler on a database, from a fresh log. *)
Definition start (d : DB) (t : nat) : world :=
  {| db := d; tick := t; log := [] |}.


(** * Definitions used by the statements *)

(** ** Classification *)

(** The routes of the dispatcher. *)
Inductive route :=
| ToStart
| ToSetKey
| ToStats
| ToHistory
| ToDelete
| ToHelp
| ToReceiptDetail (idPrefix : jsstring)
| ToPhoto
| ToTextReceipt
| ToUnknownCommand
| ToNothing.

Definition matcher := TgMessage -> option route.

(** The classification as the specification words it: an ordered list of
    matchers, the first that matches wins. *)

Definition spec_literal_prefix (command : string) (r : route) : matcher :=
  fun msg =>
    if startsWith (text_of msg) (lit command) then Some r else None.

Definition spec_receipt_pattern : matcher :=
  fun msg => option_map ToReceiptDetail (receiptMatch (text_of msg)).

Definition spec_photo_payload : matcher :=
  fun msg => if has_photo msg then Some ToPhoto else None.

Definition spec_free_text : matcher :=
  fun msg =>
    if truthy (text_of msg) && negb (startsWith (text_of msg) (lit "/"))
    then Some ToTextReceipt else None.

Definition spec_other_command : matcher :=
  fun msg =>
    if startsWith (text_of msg) (lit "/") then Some ToUnknownCommand
    else None.

Definition spec_matchers : list matcher :=
  [ spec_literal_prefix "/start" ToStart;
    spec_literal_prefix "/setkey" ToSetKey;
    spec_literal_prefix "/stats" ToStats;
    spec_literal_prefix "/history" ToHistory;
    spec_literal_prefix "/delete" ToDelete;
    spec_literal_prefix "/help" ToHelp;
    spec_receipt_pattern;
    spec_photo_payload;
    spec_free_text;
    spec_other_command ].

Fixpoint spec_first_match (ms : list matcher) (msg : TgMessage) : route :=
  match ms with
  | [] => ToNothing
  | m :: ms' =>
      match m msg with
      | Some r => r
      | None => spec_first_match ms' msg
      end
  end.

(** What the dispatcher does on each route. *)
Definition dispatch (E : env) (r : route) (msg : TgMessage) : M unit :=
  match r with
  | ToStart => handleStart E msg
  | ToSetKey => handleSetKey E msg
  | ToStats => handleStats E msg
  | ToHistory => handleHistory E msg
  | ToDelete => handleDelete E msg
  | ToHelp => handleHelp E msg
  | ToReceiptDetail p => handleReceiptDetail E msg p
  | ToPhoto => handlePhoto E msg
  | ToTextReceipt => handleTextReceipt E msg
  | ToUnknownCommand => sendMessage E (msg_chat_id msg) ReplyUnknownCommand
  | ToNothing => ret tt
  end.

(** ** Sessions *)

(** The tables after a session [t] and its account [u] were provisioned. *)
Definition provisioned (d : DB) (u : UserRow) (t : TelegramUser) : DB :=
  with_telegram_users (with_users d (users d ++ [u]))
    (telegram_users d ++ [t]).

(** The three tables of the receipt store are as they were. *)
Definition receipt_store_unchanged (d d' : DB) : Prop :=
  receipts d' = receipts d
  /\ receipt_items d' = receipt_items d
  /\ user_receipts d' = user_receipts d.

(** A computation that makes no call to the outside. *)
Definition silent {A} (c : M A) : Prop :=
  forall w, log (snd (c w)) = log w.

(** ** The two analysis paths, cut into their stages *)

Section Stages.

Variable E : env.

(** The common head of [handlePhoto] and [handleTextReceipt]: the session
    is looked up (and provisioned when missing), and [body] runs only
    behind the credential check. *)
Definition with_credential (msg : TgMessage) (body : TelegramUser -> M unit)
  : M unit :=
  let chatId := msg_chat_id msg in
  tgUser <- findTelegramUser (of_Z chatId) ;;
  match tgUser with
  | None =>
      getOrCreateTelegramUser E (of_Z chatId) (getUserName msg) ;;; ret tt
  | Some _ => ret tt
  end ;;;
  found <- findTelegramUser (of_Z chatId) ;;
  user <- non_null found ;;
  if negb (truthy_opt (google_api_key user))
  then sendMessage E chatId ReplySetKeyFirst
  else sendChatAction E chatId (lit "typing") ;;; body user.

(** The common tail of both paths, once the model has answered:
    [JSON.parse], the [error] field, [createReceiptForUser]. *)
Definition store_analysis (chatId : Z) (user : TelegramUser)
  (on_error : json -> reply) (notes : option jsstring)
  (rawResult : jsstring) : M unit :=
  match JSON_parse E rawResult with
  | SyntaxError => sendMessage E chatId ReplyUnparsable
  | ParsedNull => null_has_no (lit "error")
  | Parsed analysisResult =>
      if ToBoolean (a_error analysisResult)
      then sendMessage E chatId (on_error (a_error analysisResult))
      else
        saved <- createReceiptForUser E (user_id user) analysisResult notes
                   (Some rawResult) ;;
        sendMessage E chatId
          (ReplySaved (formatReceipt saved)
             (substring0 8 (r_id (receipt saved))))
  end.

(** The [try] block of [handlePhoto] with its [catch]. *)
Definition photo_body (msg : TgMessage) (user : TelegramUser) : M unit :=
  let chatId := msg_chat_id msg in
  try_catch
    (largest <- largest_photo msg ;;
     file <- getFile E (file_id largest) ;;
     match or_null (file_path file) with
     | None => sendMessage E chatId ReplyNoPhotoFile
     | Some path =>
         buffer <- downloadFileBuffer E path ;;
         let base64 := buffer_base64 E buffer in
         let mimeType :=
           if endsWith path (lit ".png")
           then lit "image/png" else lit "image/jpeg" in
         let imageData :=
           lit "data:" ++ mimeType ++ lit ";base64," ++ base64 in
         sendMessage E chatId ReplyAnalyzing ;;;
         rawResult <- analyzeReceiptImage E imageData (google_api_key user) ;;
         store_analysis chatId user ReplyPhotoAnalysisError
           (or_null (msg_caption msg)) rawResult
     end)
    (fun message =>
       sendMessage E chatId
         (ReplyPhotoFailed (or_else (Some message) unknown_error))).

(** The [try] block of [handleTextReceipt] with its [catch]. *)
Definition text_body (msg : TgMessage) (user : TelegramUser) : M unit :=
  let chatId := msg_chat_id msg in
  try_catch
    (rawResult <- generateContent_text E (text_prompt (msg_text msg))
                    (google_api_key user) ;;
     store_analysis chatId user ReplyTextAnalysisError None rawResult)
    (fun message =>
       sendMessage E chatId
         (ReplyTextFailed (or_else (Some message) unknown_error))).


(** The model was called, whatever came of it. *)
Definition is_model_call (ev : event) : Prop :=
  match ev with
  | EvAnalyzeImage _ _ _ => True
  | EvGenerateText _ _ _ => True
  | _ => False
  end.






End Stages.

(** ** Exact sums

    The sum of rationals, against which the double arithmetic of the
    engine is measured. *)
Definition Qsum (l : list Q) : Q := fold_right Qplus 0 l.

Definition whole (q : Q) : Prop := exists z : Z, q == inject_Z z.

(** What IEEE 754 doubles guarantee on whole numbers.  When the terms of a
    running sum are whole and their absolute values add up to no more
    than 2^53, every partial sum is a whole number of at most that size,
    which a double holds exactly: no addition rounds, in whatever order
    and with whatever compensation the engine adds.  And a division
    rounds to the nearest double, which is the quotient itself when that
    is a whole number of at most that size. *)
Definition exact_on_whole_numbers (E : env) : Prop :=
  (forall l,
      Forall whole l -> Qsum (List.map Qabs l) <= inject_Z (2 ^ 53) ->
      real_sum E l == Qsum l)
  /\ (forall (a b : Q) (x n : Z),
         a == inject_Z x -> b == inject_Z n ->
         (Z.abs x <= 2 ^ 53)%Z -> (0 < n <= 2 ^ 53)%Z ->
         (exists m : Z, x = (m * n)%Z) ->
         real_div E a b == inject_Z (x / n)).

(** ** Doubles, for the examples

    One engine that computes as IEEE 754 prescribes.  [nearest_double]
    rounds a rational to the nearest number with a significand of 53
    bits, ties to the even significand; overflow and subnormal numbers,
    which amounts do not reach, are left out. *)

(** The fraction [n / d], with [d] positive, rounded. *)
Definition round_fraction (n d : Z) : Q :=
  if (n =? 0)%Z then 0
  else
    let a := Z.abs n in
    let e0 := (Z.log2 a - Z.log2 d - 52)%Z in
    let scaled (e : Z) : Z * Z :=
      if (0 <=? e)%Z then (a, (d * 2 ^ e)%Z) else ((a * 2 ^ (- e))%Z, d) in
    let e :=
      if (fst (scaled e0) / snd (scaled e0) <? 2 ^ 52)%Z
      then (e0 - 1)%Z else e0 in
    let x := fst (scaled e) in
    let y := snd (scaled e) in
    let m := (x / y)%Z in
    let r := (x mod y)%Z in
    let m' :=
      if (2 * r <? y)%Z then m
      else if (y <? 2 * r)%Z then (m + 1)%Z
      else if Z.even m then m else (m + 1)%Z in
    let s := if (n <? 0)%Z then (- m')%Z else m' in
    if (0 <=? e)%Z then inject_Z (s * 2 ^ e) else s # Z.to_pos (2 ^ (- e)).

Definition nearest_double (q : Q) : Q :=
  round_fraction (Qnum (Qred q)) (Zpos (Qden (Qred q))).

Definition double_add (x y : Q) : Q := nearest_double (x + y).
Definition double_sub (x y : Q) : Q := nearest_double (x - y).
Definition double_div (x y : Q) : Q := nearest_double (x / y).

(** A running sum with compensation (Kahan, Babuska, Neumaier): beside
    the sum [rSum], the rounding errors of the additions are added up in
    [rErr], which is added to the sum at the end. *)
Fixpoint compensated_sum (rSum rErr : Q) (l : list Q) : Q :=
  match l with
  | [] => double_add rSum rErr
  | r :: l' =>
      let t := double_add rSum r in
      let e :=
        if Qle_bool (Qabs rSum) (Qabs r)
        then double_add (double_sub r t) rSum
        else double_add (double_sub rSum t) r in
      compensated_sum t (double_add rErr e) l'
  end.

(** ** A concrete outside world, for the examples

    Every call to the transport succeeds, the model answers [raw], and
    [JSON.parse] does [answer].  Identifiers look like version 4 UUIDs
    and differ by their last group; the clock advances by one second at
    each reading.  The engine computes in doubles, as above. *)

Definition two_digits (n : nat) : jsstring :=
  [N.of_nat (48 + (n / 10) mod 10); N.of_nat (48 + n mod 10)].

Definition sample_uuid (t : nat) : jsstring :=
  lit "abcdef12-0000-4000-8000-" ++ of_Z (Z.of_nat t).

Definition sample_instant (t : nat) : jsstring :=
  lit "2026-01-01T00:" ++ two_digits (t / 60) ++ lit ":"
  ++ two_digits (t mod 60) ++ lit ".000Z".

Definition sample_env (raw : jsstring) (answer : parsed) : env :=
  {| telegram_sendMessage := fun _ _ _ => Ok tt;
     telegram_sendChatAction := fun _ _ _ => Ok tt;
     telegram_getFile :=
       fun _ _ => Ok {| file_path := Some (lit "photos/file_1.jpg") |};
     telegram_download := fun _ _ => Ok [255; 216; 255]%N;
     buffer_base64 := fun _ => lit "/9j/";
     gemini_generate_image := fun _ _ _ => Ok raw;
     gemini_generate_text := fun _ _ _ => Ok raw;
     GOOGLE_API_KEY := None;
     JSON_parse := fun _ => answer;
     JSON_stringify := fun _ => lit "{}";
     crypto_randomUUID := sample_uuid;
     crypto_hashPassword := fun _ _ => lit "00:00";
     date_toISOString := sample_instant;
     real_sum := compensated_sum 0 0;
     real_div := double_div |}.

Definition sample_analysis (total : option Q) (error : json)
  : ReceiptAnalysisResult :=
  {| a_store_name := Some (lit "Cafe");
     a_date := Some (lit "2026-01-01");
     a_time := None;
     a_items_array := Some [];
     a_subtotal := None;
     a_tax := None;
     a_total_amount := total;
     a_currency := Some (lit "EUR");
     a_payment_method := None;
     a_error := error |}.

Definition sample_sender : TgFrom :=
  {| first_name := lit "Ann"; last_name := None |}.

Definition text_message (chat : Z) (s : string) : TgMessage :=
  {| msg_from := Some sample_sender; msg_chat_id := chat;
     msg_text := Some (lit s); msg_photo := None; msg_caption := None |}.

Definition photo_message (chat : Z) : TgMessage :=
  {| msg_from := Some sample_sender; msg_chat_id := chat;
     msg_text := None;
     msg_photo :=
       Some [ {| file_id := lit "small"; width := 90; height := 120 |};
              {| file_id := lit "large"; width := 960; height := 1280 |} ];
     msg_caption := None |}.

(** The world after the messages [ms], handled one after the other. *)
Definition after_messages (E : env) (ms : list TgMessage) (w : world)
  : world :=
  fold_left (fun w m => snd (handleMessage E m w)) ms w.

(** The model answers a receipt of 110 with no error. *)
Definition plain_env : env :=
  sample_env (lit "{}") (Parsed (sample_analysis (Some 110) JNull)).


(** Chat 5 has registered and set its key. *)
Definition keyed_db : DB :=
  Eval vm_compute in
    db (after_messages plain_env
          [text_message 5 "/start"; text_message 5 "/setkey KEY"]
          (start empty_db 0)).

(** Chat 5 has registered and has set no key. *)
Definition registered_db : DB :=
  Eval vm_compute in
    db (after_messages plain_env [text_message 5 "/start"]
          (start empty_db 0)).

(** The session of the chat has no non-empty credential: there is no
    session, or its credential is null or the empty string. *)
Definition no_credential (d : DB) (chatId : jsstring) : Prop :=
  match select_telegram_user d chatId with
  | Some s => truthy_opt (google_api_key s) = false
  | None => True
  end.

(** What the credential check owes, on every message and from every state
    of the tables.  Without credential: no call to the model, no write to
    the receipt store, and the prompt as only reply, after the session was
    provisioned when the chat had none.  And the model is called only for a
    session that holds a non-empty credential. *)
Definition credential_gated (E : env) (h : TgMessage -> M unit) : Prop :=
  forall msg d t,
    let chat := msg_chat_id msg in
    let '(r, w') := h msg (start d t) in
    (no_credential d (of_Z chat) ->
     (forall ev, In ev (log w') -> ~ is_model_call ev)
     /\ receipt_store_unchanged d (db w')
     /\ match select_telegram_user d (of_Z chat) with
        | Some _ =>
            db w' = d /\ log w' = [EvSendMessage chat ReplySetKeyFirst]
        | None =>
            (exists m, r = Throw m /\ db w' = d /\ log w' = [])
            \/ (exists u s,
                  db w' = provisioned d u s /\ chat_id s = of_Z chat
                  /\ google_api_key s = None
                  /\ log w' = [EvSendMessage chat ReplySetKeyFirst])
        end)
    /\ ((exists ev, In ev (log w') /\ is_model_call ev) ->
        exists s, select_telegram_user d (of_Z chat) = Some s
                  /\ truthy_opt (google_api_key s) = true).

(** [parts[1]] of [/setkey]: the second piece of the text. *)
Definition second_token (msg : TgMessage) : option jsstring :=
  nth_error (split_ws (text_of msg)) 1.

(** ** Order of the listing *)

(** [x] was linked no earlier than [y]. *)
Definition row_newer_or_equal (x y : ReceiptRow * UserReceipt) : Prop :=
  Js.leb (ur_added_at (snd y)) (ur_added_at (snd x)) = true.

Definition newer_or_equal (x y : UserReceiptWithDetails) : Prop :=
  Js.leb (added_at y) (added_at x) = true.

(** The totals of the receipts an account is linked to, in the order of
    the listing. *)
Definition linked_totals (d : DB) (userId : jsstring) : list (option Q) :=
  List.map (fun r => total_amount (receipt r)) (select_user_receipts d userId).

(** The totals that the aggregates of [getUserReceiptStats] run over:
    those of the joined rows that are not NULL, in the order of the
    join. *)
Definition summed_totals (d : DB) (userId : jsstring) : list Q :=
  non_null_values
    (List.map (fun row => row_total_amount (fst row))
       (join_user_receipts d userId)).

(** ** Deletion *)

(** The tables after [handleDelete] has removed the link of the account
    to the receipt, and then the receipt. *)
Definition after_delete (d : DB) (userId receiptId : jsstring) : DB :=
  delete_receipt_rows (delete_link_rows d userId receiptId) receiptId.

(** The receipt is not the one with identifier [receiptId]. *)
Definition other_than (receiptId : jsstring) (r : UserReceiptWithDetails)
  : bool :=
  negb (r_id (receipt r) =? receiptId).

(** The reply of [/receipt] on a listing. *)
Definition lookup_reply (prefix : jsstring)
  (listing : list UserReceiptWithDetails) : reply :=
  match find (fun r => startsWith (r_id (receipt r)) prefix) listing with
  | Some r => ReplyReceipt (formatReceipt r)
  | None => ReplyReceiptNotFound
  end.

(** ** Sample states of the tables *)

(** The model answers a receipt that has no total. *)
Definition no_total_env : env :=
  sample_env (lit "{}") (Parsed (sample_analysis None JNull)).


(** The model answers text that is no JSON. *)
Definition garbage_env : env := sample_env (lit "oops") SyntaxError.

(** The account of chat 5 in the sample states. *)
Definition sample_account : jsstring := sample_uuid 1.

Definition setup : list TgMessage :=
  [text_message 5 "/start"; text_message 5 "/setkey KEY"].

(** Chat 5 has stored one receipt. *)
Definition one_receipt_world : world :=
  Eval vm_compute in
    after_messages plain_env (setup ++ [text_message 5 "coffee 3"])
      (start empty_db 0).

(** Chat 5 has stored two receipts. *)
Definition two_receipts_world : world :=
  Eval vm_compute in
    after_messages plain_env [text_message 5 "tea 2"] one_receipt_world.

(** Chat 5 has stored a receipt of 110 and then one without a total. *)
Definition missing_total_world : world :=
  Eval vm_compute in
    after_messages no_total_env [text_message 5 "tea"] one_receipt_world.

(** Chat 5 has stored a receipt of 110 and then one of 220. *)
Definition wholes_world : world :=
  Eval vm_compute in
    after_messages
      (sample_env (lit "{}") (Parsed (sample_analysis (Some 220) JNull)))
      [text_message 5 "tea 2"] one_receipt_world.

(** The model answers a receipt whose total is the double nearest to
    [total]. *)
Definition cents_env (total : Q) : env :=
  sample_env (lit "{}")
    (Parsed (sample_analysis (Some (nearest_double total)) JNull)).

(** Chat 5 has stored a receipt of 0.1 and then one of 0.2. *)
Definition cents_world : world :=
  Eval vm_compute in
    after_messages (cents_env (2 # 10)) [text_message 5 "tea"]
      (after_messages (cents_env (1 # 10))
         (setup ++ [text_message 5 "coffee"]) (start empty_db 0)).

(** Chat 5 has stored twelve receipts. *)
Definition twelve_receipts_world : world :=
  Eval vm_compute in
    after_messages plain_env
      (repeat (text_message 5 "coffee 3") 11) one_receipt_world.

(** The session of chat 5 in the sample states. *)
Definition sample_session : TelegramUser :=
  Eval vm_compute in
    match select_telegram_user keyed_db (lit "5") with
    | Some s => s
    | None =>
        {| chat_id := []; user_id := []; google_api_key := None;
           tu_created_at := [] |}
    end.

Definition listed_ids (d : DB) : list jsstring :=
  List.map (fun r => r_id (receipt r)) (select_user_receipts d sample_account).


(** The first provisioning of chat 5, from empty tables. *)
Definition fresh_session : TelegramUser :=
  Eval vm_compute in
    match select_telegram_user registered_db (lit "5") with
    | Some s => s
    | None =>
        {| chat_id := []; user_id := []; google_api_key := None;
           tu_created_at := [] |}
    end.

Definition fresh_world : world :=
  Eval vm_compute in
    snd (getOrCreateTelegramUser plain_env (lit "5") (lit "Ann")
           (start empty_db 0)).


(** * More of the program *)

(** ** The rest of [lib/receipt-storage.ts], [lib/telegram-users.ts] and
    [lib/auth.ts] *)

(** [SELECT * FROM receipts WHERE id = ?], first row. *)
Definition select_receipt (d : DB) (id : jsstring) : option ReceiptRow :=
  find (fun r => row_id r =? id) (receipts d).

(** The join of [getUserReceipts] with [AND r.id = ?], first row. *)
Definition select_user_receipt (d : DB) (userId receiptId : jsstring)
  : option (ReceiptRow * UserReceipt) :=
  find (fun row => row_id (fst row) =? receiptId)
    (join_user_receipts d userId).

(** [UPDATE user_receipts SET notes = ? WHERE user_id = ? AND
    receipt_id = ?] *)
Definition update_notes_rows (d : DB) (userId receiptId notes : jsstring)
  : DB :=
  with_user_receipts d
    (List.map
       (fun ur =>
          if (ur_user_id ur =? userId) && (ur_receipt_id ur =? receiptId)
          then {| ur_id := ur_id ur; ur_user_id := ur_user_id ur;
                  ur_receipt_id := ur_receipt_id ur;
                  ur_added_at := ur_added_at ur;
                  ur_notes := Some notes |}
          else ur)
       (user_receipts d)).

(** [SELECT * FROM users WHERE email = ?] and [WHERE id = ?], first row. *)
Definition select_user_by_email (d : DB) (email : jsstring)
  : option UserRow :=
  find (fun u => u_email u =? email) (users d).

Definition select_user_by_id (d : DB) (id : jsstring) : option UserRow :=
  find (fun u => u_id u =? id) (users d).

Definition getReceiptItems (receiptId : jsstring) : M (list ReceiptItem) :=
  d <- get_db ;;
  ret (select_getReceiptItems d receiptId).

Definition getReceiptById (id : jsstring) : M (option Receipt) :=
  d <- get_db ;;
  match select_receipt d id with
  | None => ret None
  | Some row =>
      its <- getReceiptItems id ;;
      ret (Some (rowToReceipt row its))
  end.

Definition getUserReceiptById (userId receiptId : jsstring)
  : M (option UserReceiptWithDetails) :=
  d <- get_db ;;
  match select_user_receipt d userId receiptId with
  | None => ret None
  | Some row =>
      its <- getReceiptItems (row_id (fst row)) ;;
      ret (Some {| receipt := rowToReceipt (fst row) its;
                   user_receipt_id := ur_id (snd row);
                   added_at := ur_added_at (snd row);
                   notes := ur_notes (snd row) |})
  end.

Definition updateUserReceiptNotes (userId receiptId notes : jsstring)
  : M bool :=
  d <- get_db ;;
  put_db (update_notes_rows d userId receiptId notes) ;;;
  ret (existsb
         (fun ur => (ur_user_id ur =? userId)
                    && (ur_receipt_id ur =? receiptId))
         (user_receipts d)).

(** [user?.google_api_key || null] *)
Definition getGoogleApiKey (chatId : jsstring) : M (option jsstring) :=
  user <- findTelegramUser chatId ;;
  ret (match user with
       | Some u => or_null (google_api_key u)
       | None => None
       end).

(** [rowToUser] keeps every column of the row; the [Date] it builds is
    kept as the ISO text of the column. *)
Definition findUserByEmail (email : jsstring) : M (option UserRow) :=
  d <- get_db ;;
  ret (select_user_by_email d email).

Definition findUserById (id : jsstring) : M (option UserRow) :=
  d <- get_db ;;
  ret (select_user_by_id d id).

(** ** The constraints of the schema ([lib/database.ts]) *)

(** The keys of the rows of a table are pairwise distinct. *)
Definition unique_key {A K} (key : A -> K) (rows : list A) : Prop :=
  NoDup (List.map key rows).

(** A column references the key of another table. *)
Definition references {A B} (col : A -> jsstring) (rows : list A)
  (key : B -> jsstring) (targets : list B) : Prop :=
  forall x, In x rows -> exists y, In y targets /\ key y = col x.

(** PRIMARY KEY, UNIQUE and FOREIGN KEY of the five tables. *)
Record db_ok (d : DB) : Prop := {
  ok_users_id : unique_key u_id (users d);
  ok_users_email : unique_key u_email (users d);
  ok_receipts_id : unique_key row_id (receipts d);
  ok_items_id : unique_key ri_id (receipt_items d);
  ok_items_receipt :
    references ri_receipt_id (receipt_items d) row_id (receipts d);
  ok_links_id : unique_key ur_id (user_receipts d);
  ok_links_pair :
    unique_key (fun ur => (ur_user_id ur, ur_receipt_id ur))
      (user_receipts d);
  ok_links_user : references ur_user_id (user_receipts d) u_id (users d);
  ok_links_receipt :
    references ur_receipt_id (user_receipts d) row_id (receipts d);
  ok_sessions_chat : unique_key chat_id (telegram_users d);
  ok_sessions_user : references user_id (telegram_users d) u_id (users d)
}.

(** A computation that keeps the constraints. *)
Definition keeps_db_ok {A} (c : M A) : Prop :=
  forall w, db_ok (db w) -> db_ok (db (snd (c w))).

(** The constraints as a test on the tables. *)
Fixpoint distinct (l : list jsstring) : bool :=
  match l with
  | [] => true
  | x :: r => negb (existsb (fun y => y =? x) r) && distinct r
  end.

Fixpoint distinct_pairs (l : list (jsstring * jsstring)) : bool :=
  match l with
  | [] => true
  | x :: r =>
      negb (existsb (fun y => (fst y =? fst x) && (snd y =? snd x)) r)
      && distinct_pairs r
  end.

Definition refers {A B} (col : A -> jsstring) (rows : list A)
  (key : B -> jsstring) (targets : list B) : bool :=
  forallb (fun x => existsb (fun y => key y =? col x) targets) rows.

Definition check_db (d : DB) : bool :=
  distinct (List.map u_id (users d))
  && distinct (List.map u_email (users d))
  && distinct (List.map row_id (receipts d))
  && distinct (List.map ri_id (receipt_items d))
  && refers ri_receipt_id (receipt_items d) row_id (receipts d)
  && distinct (List.map ur_id (user_receipts d))
  && distinct_pairs
       (List.map (fun ur => (ur_user_id ur, ur_receipt_id ur))
          (user_receipts d))
  && refers ur_user_id (user_receipts d) u_id (users d)
  && refers ur_receipt_id (user_receipts d) row_id (receipts d)
  && distinct (List.map chat_id (telegram_users d))
  && refers user_id (telegram_users d) u_id (users d).

(** ** What [createReceipt] writes *)

(** The row of [insertReceipt.run(...)] for the receipt it returns. *)
Definition receiptToRow (r : Receipt) : ReceiptRow :=
  {| row_id := r_id r;
     row_store_name := store_name r;
     row_date := date r;
     row_time := time r;
     row_subtotal := subtotal r;
     row_tax := tax r;
     row_total_amount := total_amount r;
     row_currency := currency r;
     row_payment_method := payment_method r;
     row_raw_response := raw_response r;
     row_created_at := created_at r |}.

(** The row of [insertItem.run(itemId, id, item.name, ...)]; there is
    none when a NOT NULL column would hold NULL. *)
Definition item_row (receiptId : jsstring) (itemId : jsstring)
  (item : ReceiptItem) : option ReceiptItemRow :=
  match
    item_values itemId receiptId (item_name item) (item_quantity item)
      (item_unit_price item) (item_total_price item) (item_category item)
  with
  | inr row => Some row
  | inl _ => None
  end.

(** The item has a value in each of the NOT NULL columns [name],
    [quantity], [unit_price] and [total_price]. *)
Definition storable (item : ReceiptItem) : bool :=
  match
    item_name item, item_quantity item, item_unit_price item,
    item_total_price item
  with
  | Some _, Some _, Some _, Some _ => true
  | _, _, _, _ => false
  end.

(** The rows of the loop over [analysisResult.items] when the first
    identifier is drawn at [t]: one draw for each item, in order, and
    the row of each item that has one. *)
Definition item_rows (E : env) (receiptId : jsstring) (t : nat)
  (l : list ReceiptItem) : list ReceiptItemRow :=
  flat_map
    (fun p =>
       match item_row receiptId (crypto_randomUUID E (fst p)) (snd p) with
       | Some row => [row]
       | None => []
       end)
    (combine (seq t (List.length l)) l).

(** The analysis can be stored: [items] is an array, and each of its
    items has a value in each NOT NULL column. *)
Definition storable_items (a : ReceiptAnalysisResult) : bool :=
  match a_items_array a with
  | Some l => forallb storable l
  | None => false
  end.

(** The body of the loop of [createReceipt]. *)
Definition insert_item (E : env) (id : jsstring) (item : ReceiptItem)
  : M unit :=
  itemId <- randomUUID E ;;
  insert_receipt_item itemId id (item_name item) (item_quantity item)
    (item_unit_price item) (item_total_price item) (item_category item).

(** Two line items that agree on what the model read off the receipt. *)
Definition same_item (x y : ReceiptItem) : Prop :=
  item_name x = item_name y
  /\ item_quantity x = item_quantity y
  /\ item_unit_price x = item_unit_price y
  /\ item_total_price x = item_total_price y
  /\ item_category x = item_category y.


(** The identifiers drawn for new rows collide neither with those in use
    nor with one another. *)
Fixpoint fresh_ids (used new : list jsstring) : bool :=
  match new with
  | [] => true
  | x :: rest =>
      negb (existsb (fun y => y =? x) used) && fresh_ids (used ++ [x]) rest
  end.

(** The identifiers drawn by the loop of [createReceipt]. *)
Definition item_ids (E : env) (t : nat) (l : list ReceiptItem)
  : list jsstring :=
  List.map (crypto_randomUUID E) (seq t (List.length l)).

(** The receipt that [createReceipt] returns when called at [t]. *)
Definition created_receipt (E : env) (t : nat) (a : ReceiptAnalysisResult)
  (rawResponse : option jsstring) : Receipt :=
  {| r_id := crypto_randomUUID E t;
     store_name := a_store_name a;
     date := a_date a;
     time := a_time a;
     subtotal := a_subtotal a;
     tax := a_tax a;
     total_amount := a_total_amount a;
     currency := a_currency a;
     payment_method := a_payment_method a;
     raw_response := Some (or_else rawResponse (JSON_stringify E a));
     created_at := date_toISOString E (S t);
     items := a_items a |}.

(** ** More sample states *)

(** An analysis with two line items. *)
Definition shopping : ReceiptAnalysisResult :=
  {| a_store_name := Some (lit "Market");
     a_date := Some (lit "2026-02-03");
     a_time := Some (lit "18:30");
     a_items_array :=
       Some
         [ {| item_id := None; item_receipt_id := None;
              item_name := Some (lit "Milk"); item_quantity := Some 2;
              item_unit_price := Some 1; item_total_price := Some 2;
              item_category := Some (lit "Groceries") |};
           {| item_id := None; item_receipt_id := None;
              item_name := Some (lit "Bottle"); item_quantity := Some 1;
              item_unit_price := Some (1 # 4);
              item_total_price := Some (1 # 4);
              item_category := Some (lit "Pfand") |} ];
     a_subtotal := Some (9 # 4);
     a_tax := None;
     a_total_amount := Some (9 # 4);
     a_currency := Some (lit "EUR");
     a_payment_method := Some (lit "Cash");
     a_error := JNull |}.

Definition shopping_env : env := sample_env (lit "{}") (Parsed shopping).

(** A random source that always draws the same identifier. *)
Definition stuck_env : env :=
  {| telegram_sendMessage := telegram_sendMessage shopping_env;
     telegram_sendChatAction := telegram_sendChatAction shopping_env;
     telegram_getFile := telegram_getFile shopping_env;
     telegram_download := telegram_download shopping_env;
     buffer_base64 := buffer_base64 shopping_env;
     gemini_generate_image := gemini_generate_image shopping_env;
     gemini_generate_text := gemini_generate_text shopping_env;
     GOOGLE_API_KEY := None;
     JSON_parse := JSON_parse shopping_env;
     JSON_stringify := JSON_stringify shopping_env;
     crypto_randomUUID := fun _ => sample_uuid 0;
     crypto_hashPassword := crypto_hashPassword shopping_env;
     date_toISOString := date_toISOString shopping_env;
     real_sum := real_sum shopping_env;
     real_div := real_div shopping_env |}.

(** The account has an ownership link to the receipt. *)
Definition linked (d : DB) (userId receiptId : jsstring) : bool :=
  existsb
    (fun ur => (ur_user_id ur =? userId) && (ur_receipt_id ur =? receiptId))
    (user_receipts d).

(** A receipt with this identifier is stored. *)
Definition stored (d : DB) (receiptId : jsstring) : bool :=
  existsb (fun r => row_id r =? receiptId) (receipts d).

(** An account with this identifier exists. *)
Definition registered (d : DB) (userId : jsstring) : bool :=
  existsb (fun u => u_id u =? userId) (users d).

(** The ownership link that [linkReceiptToUser] inserts when called at
    [t]. *)
Definition created_link (E : env) (t : nat) (userId receiptId : jsstring)
  (notes : option jsstring) : UserReceipt :=
  {| ur_id := crypto_randomUUID E t;
     ur_user_id := userId;
     ur_receipt_id := receiptId;
     ur_added_at := date_toISOString E (S t);
     ur_notes := or_null notes |}.

(** Chat 5 has stored two receipts and chat 6 has registered. *)
Definition two_accounts_world : world :=
  Eval vm_compute in
    after_messages plain_env [text_message 6 "/start"] two_receipts_world.

(** The account of chat 6. *)
Definition second_account : jsstring :=
  Eval vm_compute in
    match select_telegram_user (db two_accounts_world) (lit "6") with
    | Some s => user_id s
    | None => []
    end.

(** The ownership links of an account. *)
Definition links_of (d : DB) (userId : jsstring) : list UserReceipt :=
  filter (fun ur => ur_user_id ur =? userId) (user_receipts d).

(** The entry as it reads once its notes were replaced. *)
Definition with_notes (n : jsstring) (x : UserReceiptWithDetails)
  : UserReceiptWithDetails :=
  {| receipt := receipt x;
     user_receipt_id := user_receipt_id x;
     added_at := added_at x;
     notes := Some n |}.

(** The row of [updateUserReceiptNotes] for one ownership link. *)
Definition set_notes (userId receiptId notes : jsstring) (ur : UserReceipt)
  : UserReceipt :=
  if (ur_user_id ur =? userId) && (ur_receipt_id ur =? receiptId)
  then {| ur_id := ur_id ur; ur_user_id := ur_user_id ur;
          ur_receipt_id := ur_receipt_id ur;
          ur_added_at := ur_added_at ur;
          ur_notes := Some notes |}
  else ur.

(** The row that [createUser] inserts when called at [t]; the [Date] of
    the returned [User] is kept as the ISO text it was built from. *)
Definition created_user (E : env) (t : nat) (email password name : jsstring)
  : UserRow :=
  {| u_id := crypto_randomUUID E t;
     u_email := email;
     u_password := crypto_hashPassword E (S t) password;
     u_name := name;
     u_created_at := date_toISOString E (S (S t)) |}.

(** An account with this e-mail address exists. *)
Definition email_taken (d : DB) (email : jsstring) : bool :=
  existsb (fun u => u_email u =? email) (users d).

(** The chat has a session. *)
Definition has_session (d : DB) (chatId : jsstring) : bool :=
  existsb (fun t => chat_id t =? chatId) (telegram_users d).

(** ** What a handler tells the outside *)

(** Every call to the outside that the computation makes satisfies [P]. *)
Definition emits (P : event -> Prop) {A} (c : M A) : Prop :=
  forall w, exists evs, log (snd (c w)) = log w ++ evs /\ Forall P evs.

(** A call to the model is made with the key [k]; other events pass. *)
Definition model_key_is (k : jsstring) (ev : event) : Prop :=
  match ev with
  | EvAnalyzeImage _ key _ => key = k
  | EvGenerateText _ key _ => key = k
  | _ => True
  end.

(** The event is no call to the model. *)
Definition no_model_call (ev : event) : Prop :=
  match ev with
  | EvAnalyzeImage _ _ _ => False
  | EvGenerateText _ _ _ => False
  | _ => True
  end.

(** A call to the model is made with the non-empty key of the session
    that the chat has in [d]. *)
Definition uses_session_key (d : DB) (chat : Z) (ev : event) : Prop :=
  match ev with
  | EvAnalyzeImage _ key _ | EvGenerateText _ key _ =>
      exists s,
        select_telegram_user d (of_Z chat) = Some s
        /\ google_api_key s = Some key
        /\ truthy key = true
  | _ => True
  end.

(** A computation that leaves the tables as they are. *)
Definition reads_only {A} (c : M A) : Prop :=
  forall w, db (snd (c w)) = db w.

(** The placeholder address of the account of a chat. *)
Definition placeholder_email (chatId : jsstring) : jsstring :=
  lit "tg_" ++ chatId ++ lit "@telegram.local".

(** The session that [createTelegramUser] inserts when called at [t]. *)
Definition created_session (E : env) (t : nat) (chatId : jsstring)
  : TelegramUser :=
  {| chat_id := chatId;
     user_id := crypto_randomUUID E (S t);
     google_api_key := None;
     tu_created_at := date_toISOString E (S (S (S (S t)))) |}.

(** The text has no white space in it. *)
Definition no_space (s : jsstring) : bool :=
  forallb (fun c => negb (is_space c)) s.

(** An account registered under the placeholder address of chat 6. *)
Definition squatted_world : world :=
  Eval vm_compute in
    snd (createUser plain_env (lit "tg_6@telegram.local") (lit "pw")
           (lit "Eve") one_receipt_world).

(** The text is made of hexadecimal digits, in either case. *)
Definition all_hex (s : jsstring) : bool := forallb is_hex_ci s.

(** The command that the [/history] reply tells the user to type for a
    listed receipt. *)
Definition detail_command (line : history_line) : jsstring :=
  lit "/receipt_" ++ h_short_id line.

(** The newest receipt of the account of chat 5, once it has two. *)
Definition sample_listed : UserReceiptWithDetails :=
  Eval vm_compute in
    match select_user_receipts (db two_receipts_world) sample_account with
    | x :: _ => x
    | [] =>
        {| receipt := created_receipt plain_env 0 shopping None;
           user_receipt_id := []; added_at := []; notes := None |}
    end.

(** The model is out of quota: every call to it throws. *)
Definition failing_env : env :=
  {| telegram_sendMessage := telegram_sendMessage shopping_env;
     telegram_sendChatAction := telegram_sendChatAction shopping_env;
     telegram_getFile := telegram_getFile shopping_env;
     telegram_download := telegram_download shopping_env;
     buffer_base64 := buffer_base64 shopping_env;
     gemini_generate_image := fun _ _ _ => Throw (lit "quota exceeded");
     gemini_generate_text := fun _ _ _ => Throw (lit "quota exceeded");
     GOOGLE_API_KEY := None;
     JSON_parse := JSON_parse shopping_env;
     JSON_stringify := JSON_stringify shopping_env;
     crypto_randomUUID := crypto_randomUUID shopping_env;
     crypto_hashPassword := crypto_hashPassword shopping_env;
     date_toISOString := date_toISOString shopping_env;
     real_sum := real_sum shopping_env;
     real_div := real_div shopping_env |}.

(** [err.message || '未知错误'] *)
Definition failure_text (message : jsstring) : jsstring :=
  if truthy message then message else unknown_error.

(** ** What a handler may do to the tables *)

(** The tables before and after the computation are related by [R],
    whether it returns or throws. *)
Definition changes_by (R : DB -> DB -> Prop) {A} (c : M A) : Prop :=
  forall w, R (db w) (db (snd (c w))).

(** Every ownership link that is new belongs to the account [u]. *)
Definition links_added_for (u : jsstring) (d d' : DB) : Prop :=
  forall ur, In ur (user_receipts d') ->
             In ur (user_receipts d) \/ ur_user_id ur = u.


(** No receipt is removed. *)
Definition receipts_kept (d d' : DB) : Prop :=
  forall r, In r (receipts d) -> In r (receipts d').

(** The tables grow, and only for the account [u]: new ownership links
    belong to [u], and every receipt is still there. *)
Definition grows_for (u : jsstring) (d d' : DB) : Prop :=
  links_added_for u d d' /\ receipts_kept d d'.

(** The ownership links and the receipts are as they were. *)
Definition store_kept (d d' : DB) : Prop :=
  user_receipts d' = user_receipts d /\ receipts d' = receipts d.

(** ** [lib/receipt.ts]: [parseBase64Image] *)

(** [s.includes(p)] *)
Fixpoint includes (s p : jsstring) : bool :=
  match s with
  | [] => startsWith [] p
  | _ :: s' => startsWith s p || includes s' p
  end.

(** [s.split(sep)] for a separator that is not empty: the text is cut at
    every occurrence of [sep], found from the left without overlap.
    [skip] counts the code units of a separator that are still to be
    passed over; [acc] is the current piece, reversed. *)
Fixpoint split_lit_go (sep : jsstring) (skip : nat) (acc s : jsstring)
  : list jsstring :=
  match s with
  | [] => [rev acc]
  | c :: s' =>
      match skip with
      | S k => split_lit_go sep k acc s'
      | O =>
          if startsWith s sep
          then rev acc :: split_lit_go sep (List.length sep - 1) [] s'
          else split_lit_go sep 0 (c :: acc) s'
      end
  end.

Definition split_lit (s sep : jsstring) : list jsstring :=
  split_lit_go sep 0 [] s.

(** [s.replace(p, "")] for a text [p] that is not empty: the first
    occurrence of [p] is taken out. *)
Fixpoint remove_first (p s : jsstring) : jsstring :=
  match s with
  | [] => []
  | c :: s' =>
      if startsWith s p then skipn (List.length p) s
      else c :: remove_first p s'
  end.

Definition parseBase64Image (image : jsstring) : jsstring * jsstring :=
  if includes image (lit ";base64,")
  then
    let parts := split_lit image (lit ";base64,") in
    (remove_first (lit "data:") (nth 0 parts []), nth 1 parts [])
  else (lit "image/jpeg", image).

(** The text has no semicolon in it. *)
Definition no_semicolon (s : jsstring) : bool :=
  forallb (fun c => negb (c =? 59)%N) s.

(** The data URI that [handlePhoto] builds for a downloaded file. *)
Definition photo_data_uri (path base64 : jsstring) : jsstring :=
  lit "data:"
  ++ (if endsWith path (lit ".png") then lit "image/png" else lit "image/jpeg")
  ++ lit ";base64," ++ base64.

(** ** [routes/receipt.ts]: the routes that carry no body *)

(** [JwtPayload] of [types/auth.ts]. *)
Record JwtPayload := {
  p_userId : jsstring;
  p_email : jsstring
}.

(** What the routes read of a request: [req.headers.authorization]. *)
Record Request := { authorization : option jsstring }.

(** What [res.end(JSON.stringify(...))] is given. *)
Inductive Payload :=
| PError (message : jsstring)
| PMessage (message : jsstring)
| PReceipts (receipts : list UserReceiptWithDetails)
| PReceipt (r : UserReceiptWithDetails)
| PStats (s : stats).

(** [res.writeHead(status, corsHeaders)] and [res.end(payload)]. *)
Record Response := {
  status : nat;
  payload : Payload
}.

Section Rest.

Variable E : env.

(** [verifyToken] of [lib/auth.ts] checks an HMAC and reads the clock:
    what it answers for a token at a reading of the clock is taken from
    the outside. *)
Variable verifyToken : nat -> jsstring -> option JwtPayload.

Definition getTokenFromHeader (req : Request) : option jsstring :=
  match authorization req with
  | Some authHeader =>
      if truthy authHeader && startsWith authHeader (lit "Bearer ")
      then Some (skipn 7 authHeader)
      else None
  | None => None
  end.

Definition authenticateUser (req : Request) : M (option jsstring) :=
  match getTokenFromHeader req with
  | None => ret None
  | Some token =>
      if negb (truthy token) then ret None
      else
        payload <- draw (fun t => verifyToken t token) ;;
        match payload with
        | None => ret None
        | Some p => ret (Some (p_userId p))
        end
  end.

Definition respond (code : nat) (body : Payload) : M Response :=
  ret {| status := code; payload := body |}.

Definition unauthorized : M Response :=
  respond 401 (PError (lit "Unauthorized")).

Definition internal_error (message : jsstring) : M Response :=
  respond 500 (PError (lit "Internal server error")).

Definition handleGetUserReceipts (req : Request) : M Response :=
  try_catch
    (userId <- authenticateUser req ;;
     if negb (truthy_opt userId) then unauthorized
     else
       receipts <- getUserReceipts (or_else userId []) ;;
       respond 200 (PReceipts receipts))
    internal_error.

Definition handleGetReceiptById (req : Request) (receiptId : jsstring)
  : M Response :=
  try_catch
    (userId <- authenticateUser req ;;
     if negb (truthy_opt userId) then unauthorized
     else
       receipt <- getUserReceiptById (or_else userId []) receiptId ;;
       match receipt with
       | None => respond 404 (PError (lit "Receipt not found"))
       | Some r => respond 200 (PReceipt r)
       end)
    internal_error.

Definition handleDeleteReceipt (req : Request) (receiptId : jsstring)
  : M Response :=
  try_catch
    (userId <- authenticateUser req ;;
     if negb (truthy_opt userId) then unauthorized
     else
       receipt <- getUserReceiptById (or_else userId []) receiptId ;;
       match receipt with
       | None => respond 404 (PError (lit "Receipt not found"))
       | Some _ =>
           unlinkReceiptFromUser (or_else userId []) receiptId ;;;
           deleteReceipt receiptId ;;;
           respond 200 (PMessage (lit "Receipt deleted successfully"))
       end)
    internal_error.

Definition handleGetReceiptStats (req : Request) : M Response :=
  try_catch
    (userId <- authenticateUser req ;;
     if negb (truthy_opt userId) then unauthorized
     else
       stats <- getUserReceiptStats E (or_else userId []) ;;
       respond 200 (PStats stats))
    internal_error.

(** The account that the request is authenticated as, when the clock
    reads [t]: [None] when the handler answers 401. *)
Definition requester (req : Request) (t : nat) : option jsstring :=
  match getTokenFromHeader req with
  | None => None
  | Some token =>
      if negb (truthy token) then None
      else
        match verifyToken t token with
        | Some p => if truthy (p_userId p) then Some (p_userId p) else None
        | None => None
        end
  end.

End Rest.

(** A verifier for the examples: the token is the identifier of the
    account. *)
Definition sample_verifyToken (t : nat) (token : jsstring)
  : option JwtPayload :=
  Some {| p_userId := token; p_email := [] |}.

Definition bearer (token : jsstring) : Request :=
  {| authorization := Some (lit "Bearer " ++ token) |}.

(** The status of the answer of a route. *)
Definition status_of (run : result Response * world) : option nat :=
  match fst run with
  | Ok r => Some (status r)
  | Throw _ => None
  end.

(** ** [routes/auth.ts]: [isValidEmail] *)

(** Regular expressions over code units, as far as the pattern of
    [isValidEmail] needs them: classes, sequence, alternative and
    repetition. *)
Inductive regex :=
| Never
| Eps
| Class (p : char -> bool)
| Seq (r1 r2 : regex)
| Alt (r1 r2 : regex)
| Star (r : regex).

(** [r+] *)
Definition Plus (r : regex) : regex := Seq r (Star r).

Fixpoint nullable (r : regex) : bool :=
  match r with
  | Never => false
  | Eps => true
  | Class _ => false
  | Seq r1 r2 => nullable r1 && nullable r2
  | Alt r1 r2 => nullable r1 || nullable r2
  | Star _ => true
  end.

(** What is left of [r] to match once the code unit [c] was read. *)
Fixpoint deriv (c : char) (r : regex) : regex :=
  match r with
  | Never => Never
  | Eps => Never
  | Class p => if p c then Eps else Never
  | Seq r1 r2 =>
      if nullable r1
      then Alt (Seq (deriv c r1) r2) (deriv c r2)
      else Seq (deriv c r1) r2
  | Alt r1 r2 => Alt (deriv c r1) (deriv c r2)
  | Star r1 => Seq (deriv c r1) (Star r1)
  end.

(** [/^r$/.test(s)]: the whole text matches [r]. *)
Definition test_whole (r : regex) (s : jsstring) : bool :=
  nullable (fold_left (fun r c => deriv c r) s r).

(** The class [[^\s@]]. *)
Definition not_space_at (c : char) : bool :=
  negb (is_space c) && negb (c =? 64)%N.

(** [/^[^\s@]+@[^\s@]+\.[^\s@]+$/] *)
Definition emailRegex : regex :=
  Seq (Plus (Class not_space_at))
    (Seq (Class (N.eqb 64))
       (Seq (Plus (Class not_space_at))
          (Seq (Class (N.eqb 46)) (Plus (Class not_space_at))))).

Definition isValidEmail (email : jsstring) : bool :=
  test_whole emailRegex email.

(** The texts that a regular expression matches. *)
Inductive matches : regex -> jsstring -> Prop :=
| m_eps : matches Eps []
| m_class p c : p c = true -> matches (Class p) [c]
| m_seq r1 r2 s1 s2 :
    matches r1 s1 -> matches r2 s2 -> matches (Seq r1 r2) (s1 ++ s2)
| m_alt_l r1 r2 s : matches r1 s -> matches (Alt r1 r2) s
| m_alt_r r1 r2 s : matches r2 s -> matches (Alt r1 r2) s
| m_star_nil r : matches (Star r) []
| m_star_cons r s1 s2 :
    matches r s1 -> matches (Star r) s2 -> matches (Star r) (s1 ++ s2).

(** A text of code units of the class [[^\s@]] that is not empty. *)
Definition word (s : jsstring) : Prop :=
  s <> [] /\ forallb not_space_at s = true.

(** ** [lib/auth.ts]: [hashPassword] and [verifyPassword] *)

Section Passwords.

(** [crypto.pbkdf2Sync(password, salt, 1000, 64, 'sha512').toString('hex')],
    a function of the password and the salt. *)
Variable pbkdf2 : jsstring -> jsstring -> jsstring.

(** What [hashPassword] returns once it has drawn [salt]. *)
Definition hashPasswordWith (salt password : jsstring) : jsstring :=
  salt ++ lit ":" ++ pbkdf2 password salt.

(** [const [salt, originalHash] = hashedPassword.split(':')]: a missing
    second piece is [undefined], which no text equals. *)
Definition verifyPassword (password hashedPassword : jsstring) : bool :=
  let parts := split_lit hashedPassword (lit ":") in
  let salt := nth 0 parts [] in
  match nth_error parts 1 with
  | Some originalHash => pbkdf2 password salt =? originalHash
  | None => false
  end.

End Passwords.

(** The text has no colon in it. *)
Definition no_colon (s : jsstring) : bool :=
  forallb (fun c => negb (c =? 58)%N) s.

(** A stand-in for the key derivation, for the examples. *)
Definition sample_pbkdf2 (password salt : jsstring) : jsstring :=
  lit "c0ffee" ++ of_Z (Z.of_nat (List.length password))
  ++ of_Z (Z.of_nat (List.length salt)).
(** * Properties *)

(** ** Examples of the string functions *)

Example split_setkey :
  split_ws (lit "/setkey  abc def") = [lit "/setkey"; lit "abc"; lit "def"].
Proof. reflexivity. Qed.

Example split_trailing : split_ws (lit "/delete ") = [lit "/delete"; []].
Proof. reflexivity. Qed.

Example split_leading : split_ws (lit " a") = [[]; lit "a"].
Proof. reflexivity. Qed.

Example split_empty : split_ws [] = [[]].
Proof. reflexivity. Qed.

Example of_Z_neg : of_Z (-42) = lit "-42".
Proof. reflexivity. Qed.


(** ** Strings *)

Lemma jseqb_refl (a : jsstring) : (a =? a) = true.
Proof.
  induction a as [|c a IH]; simpl; [reflexivity|].
  rewrite N.eqb_refl. exact IH.
Qed.

Lemma jseqb_eq (a b : jsstring) : (a =? b) = true <-> a = b.
Proof.
  split.
  - revert b. induction a as [|c a IH]; intros [|d b] H; simpl in H;
      try discriminate; [reflexivity|].
    apply andb_true_iff in H. destruct H as [Hc Hr].
    apply N.eqb_eq in Hc. subst d. f_equal. apply IH. exact Hr.
  - intros ->. apply jseqb_refl.
Qed.

Lemma jseqb_neq (a b : jsstring) : (a =? b) = false <-> a <> b.
Proof.
  split.
  - intros H Heq. subst b. rewrite jseqb_refl in H. discriminate.
  - intros H. destruct (a =? b) eqn:Hab; [|reflexivity].
    apply jseqb_eq in Hab. contradiction.
Qed.

Lemma jseqb_sym (a b : jsstring) : (a =? b) = (b =? a).
Proof.
  destruct (a =? b) eqn:Hab.
  - apply jseqb_eq in Hab. subst b. symmetry. apply jseqb_refl.
  - symmetry. apply jseqb_neq. apply jseqb_neq in Hab. congruence.
Qed.

Lemma startsWith_nil (s : jsstring) : startsWith s [] = true.
Proof. destruct s; reflexivity. Qed.

Lemma startsWith_app (p rest : jsstring) : startsWith (p ++ rest) p = true.
Proof.
  induction p as [|c p IH]; simpl; [reflexivity|].
  rewrite N.eqb_refl. exact IH.
Qed.

Lemma jsleb_refl (a : jsstring) : Js.leb a a = true.
Proof.
  induction a as [|c a IH]; simpl; [reflexivity|].
  rewrite N.ltb_irrefl, N.eqb_refl. exact IH.
Qed.

Lemma jsleb_total (a b : jsstring) : Js.leb a b = false -> Js.leb b a = true.
Proof.
  revert b. induction a as [|c a IH]; intros [|d b] H; simpl in *;
    try discriminate; try reflexivity.
  destruct (N.ltb_spec c d) as [Hlt|Hge]; [discriminate|].
  destruct (N.eqb_spec c d) as [->|Hne].
  - rewrite N.ltb_irrefl, N.eqb_refl. apply IH. exact H.
  - assert (Hdc : (d < c)%N) by lia.
    apply N.ltb_lt in Hdc. rewrite Hdc. reflexivity.
Qed.

Lemma jsleb_trans (a b c : jsstring) :
  Js.leb a b = true -> Js.leb b c = true -> Js.leb a c = true.
Proof.
  revert b c. induction a as [|x a IH]; intros [|y b] [|z c] Hab Hbc;
    simpl in *; try discriminate; try reflexivity.
  destruct (N.ltb_spec x y) as [Hxy|Hxy].
  - destruct (N.ltb_spec y z) as [Hyz|Hyz].
    + assert (H : (x < z)%N) by lia. apply N.ltb_lt in H. rewrite H.
      reflexivity.
    + destruct (N.eqb_spec y z) as [->|Hne]; [|discriminate].
      apply N.ltb_lt in Hxy. rewrite Hxy. reflexivity.
  - destruct (N.eqb_spec x y) as [->|Hne]; [|discriminate].
    destruct (N.ltb_spec y z) as [Hyz|Hyz]; [reflexivity|].
    destruct (N.eqb_spec y z) as [->|Hne]; [|discriminate].
    eapply IH; eassumption.
Qed.

(** A run of white space after a separator has begun adds no piece. *)
Lemma split_go_spaces (ws : jsstring) :
  forallb is_space ws = true -> split_go true [] ws = [[]].
Proof.
  induction ws as [|c ws IH]; simpl; intros H; [reflexivity|].
  apply andb_true_iff in H. destruct H as [Hc Hws].
  rewrite Hc. apply IH. exact Hws.
Qed.

(** ** Classification *)

(** C1. For every inbound message, [handleMessage] does what the first
    matching entry of the ordered list of matchers selects: the six literal
    command prefixes (compared by [startsWith], so that trailing arguments
    are accepted), then the [/receipt] pattern with its id-prefix, then a
    photo payload, then non-empty text that does not start with a slash,
    then any other text starting with a slash, and nothing (no reply)
    when no matcher applies. *)
Theorem handleMessage_first_match (E : env) (msg : TgMessage) :
  handleMessage E msg = dispatch E (spec_first_match spec_matchers msg) msg.
Proof.
  unfold handleMessage, spec_matchers, spec_first_match,
    spec_literal_prefix, spec_receipt_pattern, spec_photo_payload,
    spec_free_text, spec_other_command.
  repeat match goal with
         | |- context [if startsWith ?t ?p then _ else _] =>
             destruct (startsWith t p) eqn:?; try reflexivity
         end;
    destruct (receiptMatch (text_of msg)); simpl; try reflexivity;
    destruct (has_photo msg); try reflexivity;
    destruct (truthy (text_of msg)); reflexivity.
Qed.

(** Trailing arguments are accepted: a text that begins with one of the
    six literal commands takes that command's route, whatever follows. *)
Lemma literal_command_routes (msg : TgMessage) (rest : jsstring) :
  forall command r,
    In (command, r)
       [("/start", ToStart); ("/setkey", ToSetKey); ("/stats", ToStats);
        ("/history", ToHistory); ("/delete", ToDelete); ("/help", ToHelp)]%string
    ->
    text_of msg = lit command ++ rest ->
    spec_first_match spec_matchers msg = r.
Proof.
  intros command r Hin Htext.
  simpl in Hin.
  repeat (destruct Hin as [Hin|Hin];
          [injection Hin as <- <-;
           unfold spec_matchers, spec_first_match, spec_literal_prefix;
           rewrite Htext; reflexivity|]).
  contradiction.
Qed.

(** ** Sessions *)

Lemma find_none_existsb {A} (p : A -> bool) (l : list A) :
  find p l = None -> existsb p l = false.
Proof.
  induction l as [|x l IH]; simpl; [reflexivity|].
  destruct (p x); [discriminate|]. exact IH.
Qed.

Lemma find_app_none {A} (p : A -> bool) (l : list A) (x : A) :
  find p l = None -> p x = true -> find p (l ++ [x]) = Some x.
Proof.
  induction l as [|y l IH]; simpl; intros Hf Hx.
  - rewrite Hx. reflexivity.
  - destruct (p y); [discriminate|]. apply IH; assumption.
Qed.

Lemma existsb_app_last {A} (p : A -> bool) (l : list A) (x : A) :
  p x = true -> existsb p (l ++ [x]) = true.
Proof.
  intros Hx. rewrite existsb_app. simpl. rewrite Hx.
  rewrite orb_true_r. reflexivity.
Qed.

Ltac run :=
  unfold bind, ret, throw, get_db, put_db, draw, call; simpl.

Section Directory.
Variable E : env.

Lemma createUser_cases (email password name : jsstring) (w : world) :
  let '(r, w') := createUser E email password name w in
  log w' = log w /\
  match r with
  | Ok u => db w' = with_users (db w) (users (db w) ++ [u])
            /\ u_email u = email
  | Throw _ => db w' = db w
  end.
Proof.
  unfold createUser, randomUUID, hashPassword, toISOString_now, insert_user.
  run.
  repeat match goal with
         | |- context [if ?c then _ else _] => destruct c; simpl
         end; auto.
Qed.

Lemma createTelegramUser_cases (chatId name : jsstring) (w : world) :
  select_telegram_user (db w) chatId = None ->
  let '(r, w') := createTelegramUser E chatId name w in
  log w' = log w /\
  match r with
  | Ok t => exists u, db w' = provisioned (db w) u t
                      /\ chat_id t = chatId /\ user_id t = u_id u
                      /\ google_api_key t = None
  | Throw _ => db w' = db w
  end.
Proof.
  intros Hsel.
  unfold createTelegramUser, randomUUID, toISOString_now.
  unfold bind at 1. unfold draw at 1. unfold bind at 1.
  match goal with
  | |- context [createUser E ?e ?p ?n ?w0] =>
      pose proof (createUser_cases e p n w0) as Hc;
      destruct (createUser E e p n w0) as [[u|m] w1]
  end; simpl in Hc; destruct Hc as [Hlog Hdb]; [|auto].
  destruct Hdb as [Hdb Hemail].
  unfold insert_telegram_user. run.
  rewrite Hdb. simpl.
  unfold select_telegram_user in Hsel.
  rewrite (find_none_existsb _ _ Hsel).
  rewrite existsb_app_last by apply jseqb_refl. simpl.
  split; [exact Hlog|].
  exists u. repeat split; reflexivity.
Qed.

Lemma getOrCreateTelegramUser_cases (chatId name : jsstring) (w : world) :
  let '(r, w') := getOrCreateTelegramUser E chatId name w in
  log w' = log w /\
  match select_telegram_user (db w) chatId with
  | Some t => r = Ok t /\ w' = w
  | None =>
      match r with
      | Ok t => exists u, db w' = provisioned (db w) u t
                          /\ chat_id t = chatId /\ user_id t = u_id u
                          /\ google_api_key t = None
      | Throw _ => db w' = db w
      end
  end.
Proof.
  unfold getOrCreateTelegramUser, findTelegramUser.
  unfold bind, get_db, ret. simpl.
  destruct (select_telegram_user (db w) chatId) as [t|] eqn:Hsel.
  - auto.
  - apply createTelegramUser_cases. exact Hsel.
Qed.

Lemma select_provisioned (d : DB) (u : UserRow) (t : TelegramUser) :
  select_telegram_user d (chat_id t) = None ->
  select_telegram_user (provisioned d u t) (chat_id t) = Some t.
Proof.
  intros H. unfold select_telegram_user, provisioned. simpl.
  apply find_app_none; [exact H | apply jseqb_refl].
Qed.

End Directory.

Lemma silent_ret {A} (a : A) : silent (ret a).
Proof. intros w. reflexivity. Qed.

Lemma silent_throw {A} (m : jsstring) : silent (@throw A m).
Proof. intros w. reflexivity. Qed.

Lemma silent_bind {A B} (c : M A) (k : A -> M B) :
  silent c -> (forall a, silent (k a)) -> silent (bind c k).
Proof.
  intros Hc Hk w. unfold bind. specialize (Hc w).
  destruct (c w) as [[a|m] w1]; simpl in *.
  - rewrite Hk. exact Hc.
  - exact Hc.
Qed.

Lemma silent_draw {A} (f : nat -> A) : silent (draw f).
Proof. intros w. reflexivity. Qed.

Lemma silent_get_db : silent get_db.
Proof. intros w. reflexivity. Qed.

Lemma silent_put_db (d : DB) : silent (put_db d).
Proof. intros w. reflexivity. Qed.

Lemma silent_if {A} (b : bool) (c1 c2 : M A) :
  silent c1 -> silent c2 -> silent (if b then c1 else c2).
Proof. destruct b; auto. Qed.

Lemma silent_transaction {A} (c : M A) : silent c -> silent (transaction c).
Proof.
  intros Hc w. unfold transaction. specialize (Hc w).
  destruct (c w) as [[a|m] w1]; simpl in *; exact Hc.
Qed.

Lemma silent_for_of {A} (l : list A) (body : A -> M unit) :
  (forall a, silent (body a)) -> silent (for_of l body).
Proof.
  intros Hb. induction l as [|x l IH]; simpl.
  - apply silent_ret.
  - apply silent_bind; auto.
Qed.

Ltac silent_tac :=
  repeat first
    [ apply silent_bind; [|intros ?]
    | apply silent_if
    | apply silent_transaction
    | apply silent_for_of; intros ?
    | apply silent_ret | apply silent_throw | apply silent_draw
    | apply silent_get_db | apply silent_put_db
    | match goal with
      | |- silent (match ?x with _ => _ end) => destruct x
      end ].

Lemma silent_createReceiptForUser (E : env) userId a notes raw :
  silent (createReceiptForUser E userId a notes raw).
Proof.
  unfold createReceiptForUser, createReceipt, linkReceiptToUser,
    insert_receipt, insert_receipt_item, insert_user_receipt, iterable,
    randomUUID, toISOString_now.
  silent_tac.
Qed.

Section Gate.
Variable E : env.

Lemma handlePhoto_gate (msg : TgMessage) :
  handlePhoto E msg = with_credential E msg (photo_body E msg).
Proof. reflexivity. Qed.

Lemma handleTextReceipt_gate (msg : TgMessage) :
  handleTextReceipt E msg = with_credential E msg (text_body E msg).
Proof. reflexivity. Qed.

Lemma with_credential_cases (msg : TgMessage) (body : TelegramUser -> M unit)
  (d : DB) (t : nat) :
  let chat := msg_chat_id msg in
  let '(r, w') := with_credential E msg body (start d t) in
  match select_telegram_user d (of_Z chat) with
  | Some s =>
      if truthy_opt (google_api_key s) then
        match telegram_sendChatAction E t chat (lit "typing") with
        | Ok _ =>
            (r, w') =
            body s {| db := d; tick := S t;
                      log := [EvSendChatAction chat (lit "typing")] |}
        | Throw m =>
            r = Throw m /\ db w' = d
            /\ log w' = [EvSendChatAction chat (lit "typing")]
        end
      else db w' = d /\ log w' = [EvSendMessage chat ReplySetKeyFirst]
  | None =>
      (exists m, r = Throw m /\ db w' = d /\ log w' = [])
      \/ (exists u s,
            db w' = provisioned d u s /\ chat_id s = of_Z chat
            /\ google_api_key s = None
            /\ log w' = [EvSendMessage chat ReplySetKeyFirst])
  end.
Proof.
  cbv zeta. unfold with_credential. set (chat := msg_chat_id msg).
  unfold findTelegramUser at 1. unfold bind at 1 2. unfold get_db, ret at 1.
  simpl.
  destruct (select_telegram_user d (of_Z chat)) as [s|] eqn:Hsel.
  - unfold bind at 1. simpl. unfold findTelegramUser, bind, get_db, ret.
    simpl. rewrite Hsel. simpl.
    destruct (truthy_opt (google_api_key s)); simpl.
    + unfold sendChatAction, call. simpl.
      destruct (telegram_sendChatAction E t chat (lit "typing")).
      * destruct (body s _). reflexivity.
      * auto.
    + unfold sendMessage, call. simpl.
      destruct (telegram_sendMessage E t chat ReplySetKeyFirst); auto.
  - unfold bind at 1 2.
    pose proof (getOrCreateTelegramUser_cases E (of_Z chat) (getUserName msg)
                  (start d t)) as Hg.
    destruct (getOrCreateTelegramUser E (of_Z chat) (getUserName msg)
                (start d t)) as [[s|m] w1].
    + simpl in Hg. rewrite Hsel in Hg.
      destruct Hg as [Hlog (u & Hdb & Hchat & Huid & Hkey)].
      unfold ret at 1. unfold findTelegramUser, bind, get_db, ret.
      simpl. rewrite Hdb. rewrite <- Hchat.
      rewrite select_provisioned by (rewrite Hchat; exact Hsel).
      simpl. rewrite Hkey. simpl.
      unfold sendMessage, call. simpl.
      destruct (telegram_sendMessage E (tick w1) chat ReplySetKeyFirst);
        simpl; right; exists u, s; rewrite Hlog; auto.
    + simpl in Hg. rewrite Hsel in Hg. destruct Hg as [Hlog Hdb].
      simpl. left. exists m. auto.
Qed.

End Gate.

Section Analysis.
Variable E : env.





End Analysis.

Section Bodies.
Variable E : env.

Lemma try_catch_bind {A B} (c : M A) (k : A -> M B) (h : jsstring -> M B)
  (w : world) :
  try_catch (bind c k) h w =
  match c w with
  | (Ok a, w1) => try_catch (k a) h w1
  | (Throw e, w1) => h e w1
  end.
Proof. unfold try_catch, bind. destruct (c w) as [[a|e] w1]; reflexivity. Qed.




End Bodies.

Section Paths.
Variable E : env.


Lemma receipt_store_unchanged_refl (d : DB) : receipt_store_unchanged d d.
Proof. repeat split. Qed.

Lemma receipt_store_unchanged_provisioned d u s :
  receipt_store_unchanged d (provisioned d u s).
Proof. repeat split. Qed.



End Paths.

(** ** The credential check *)

Section Credential.
Variable E : env.

Lemma with_credential_gated (body : TgMessage -> TelegramUser -> M unit) :
  credential_gated E (fun msg => with_credential E msg (body msg)).
Proof.
  intros msg d t. cbv zeta. unfold no_credential.
  pose proof (with_credential_cases E msg (body msg) d t) as Hc.
  cbv zeta in Hc.
  destruct (with_credential E msg (body msg) (start d t)) as [r w'].
  set (chat := msg_chat_id msg) in *.
  destruct (select_telegram_user d (of_Z chat)) as [s|].
  - destruct (truthy_opt (google_api_key s)) eqn:Hk.
    + split; [discriminate|]. intros _. exists s. auto.
    + destruct Hc as [Hd Hl]. split.
      * intros _. split; [|split; [|auto]].
        -- rewrite Hl. intros ev [<-|[]] Hm. exact Hm.
        -- rewrite Hd. apply receipt_store_unchanged_refl.
      * rewrite Hl. intros (ev & [<-|[]] & Hm). contradiction.
  - assert (Hno : forall ev, In ev (log w') -> ~ is_model_call ev).
    { destruct Hc as [(m & _ & _ & Hl)|(u & s & _ & _ & _ & Hl)];
        rewrite Hl; intros ev Hin Hm; simpl in Hin.
      - contradiction.
      - destruct Hin as [<-|[]]. contradiction. }
    split.
    + intros _. split; [exact Hno|]. split; [|exact Hc].
      destruct Hc as [(m & _ & -> & _)|(u & s & -> & _)].
      * apply receipt_store_unchanged_refl.
      * apply receipt_store_unchanged_provisioned.
    + intros (ev & Hin & Hm). exfalso. exact (Hno ev Hin Hm).
Qed.

(** C3, as amended.  For every photo message and every free-form text
    message, from every state of the tables: if the chat has no session,
    or a session whose credential is null or empty, the handler never calls
    the model and writes nothing to the receipt store (receipts, line
    items, ownership links).  When the session exists, the [/setkey] prompt
    is the only reply and all tables are left as they were.  When the chat
    has no session, the handler first provisions one (an account and a
    session row with no credential) and then sends the prompt, or
    provisioning throws and nothing is written or sent.  And the model is
    called only when the session holds a non-empty credential. *)
Theorem no_credential_no_analysis :
  credential_gated E (handlePhoto E)
  /\ credential_gated E (handleTextReceipt E).
Proof.
  split.
  - apply (with_credential_gated (photo_body E)).
  - apply (with_credential_gated (text_body E)).
Qed.

End Credential.

(** ** Provisioning *)

Section Provisioning.
Variable E : env.

(** C4.  For every chat identity: when [getOrCreateTelegramUser] has
    returned a session, a second call with the same identity (whatever the
    display name) returns that same session, hence the same account
    [user_id], and leaves the world as it was: no account and no session
    row is added. *)
Theorem getOrCreateTelegramUser_idempotent (chatId name name' : jsstring)
  (w w1 : world) (t : TelegramUser) :
  getOrCreateTelegramUser E chatId name w = (Ok t, w1) ->
  getOrCreateTelegramUser E chatId name' w1 = (Ok t, w1).
Proof.
  intros H1.
  pose proof (getOrCreateTelegramUser_cases E chatId name w) as Hc.
  rewrite H1 in Hc. destruct Hc as [Hlog Hc].
  pose proof (getOrCreateTelegramUser_cases E chatId name' w1) as Hc'.
  destruct (getOrCreateTelegramUser E chatId name' w1) as [r2 w2].
  destruct Hc' as [_ Hc'].
  destruct (select_telegram_user (db w) chatId) as [t0|] eqn:Hsel.
  - destruct Hc as [Heq ->]. injection Heq as <-.
    rewrite Hsel in Hc'. destruct Hc' as [-> ->]. reflexivity.
  - destruct Hc as (u & Hdb & Hchat & _ & _).
    rewrite Hdb, <- Hchat in Hc'.
    rewrite select_provisioned in Hc' by (rewrite Hchat; exact Hsel).
    destruct Hc' as [-> ->]. reflexivity.
Qed.

(** The first call does return a session: always when the chat has one,
    and otherwise as soon as the identifier drawn for the account and the
    placeholder address are not taken. *)
Lemma getOrCreateTelegramUser_returns (chatId name : jsstring) (w : world) :
  (select_telegram_user (db w) chatId = None ->
   existsb (fun x => u_id x =? crypto_randomUUID E (S (tick w)))
     (users (db w)) = false
   /\ existsb
        (fun x => u_email x =? lit "tg_" ++ chatId ++ lit "@telegram.local")
        (users (db w)) = false) ->
  exists t w1, getOrCreateTelegramUser E chatId name w = (Ok t, w1).
Proof.
  intros H. unfold getOrCreateTelegramUser, findTelegramUser.
  unfold bind, get_db, ret. simpl.
  destruct (select_telegram_user (db w) chatId) as [t|] eqn:Hsel.
  - eauto.
  - destruct (H eq_refl) as [Hid Hemail].
    unfold createTelegramUser, createUser, randomUUID, hashPassword,
      toISOString_now, insert_user, insert_telegram_user.
    unfold bind, ret, throw, get_db, put_db, draw. simpl.
    simpl in Hemail. rewrite Hid, Hemail. simpl.
    unfold select_telegram_user in Hsel.
    rewrite (find_none_existsb _ _ Hsel).
    rewrite existsb_app_last by apply jseqb_refl. simpl. eauto.
Qed.

End Provisioning.

(** ** Routing of the commands used below *)

Ltac first_chars H :=
  repeat match type of H with
         | (_ && _) = true =>
             let H1 := fresh "Hc" in
             apply andb_true_iff in H; destruct H as [H1 H];
             apply N.eqb_eq in H1; subst
         end.

Section Routing.
Variable E : env.

Lemma handleMessage_setkey (msg : TgMessage) :
  startsWith (text_of msg) (lit "/setkey") = true ->
  handleMessage E msg = handleSetKey E msg.
Proof.
  intros H. unfold handleMessage. rewrite H. revert H.
  destruct (text_of msg) as [|c0 [|c1 [|c2 rest]]];
    simpl; intros H; first_chars H; try discriminate H; reflexivity.
Qed.

Lemma handleMessage_stats (msg : TgMessage) :
  startsWith (text_of msg) (lit "/stats") = true ->
  handleMessage E msg = handleStats E msg.
Proof.
  intros H. unfold handleMessage. rewrite H. revert H.
  destruct (text_of msg) as [|c0 [|c1 [|c2 [|c3 [|c4 rest]]]]];
    simpl; intros H; first_chars H; try discriminate H; reflexivity.
Qed.

Lemma handleMessage_history (msg : TgMessage) :
  startsWith (text_of msg) (lit "/history") = true ->
  handleMessage E msg = handleHistory E msg.
Proof.
  intros H. unfold handleMessage. rewrite H. revert H.
  destruct (text_of msg) as [|c0 [|c1 rest]];
    simpl; intros H; first_chars H; try discriminate H; reflexivity.
Qed.

Lemma handleMessage_delete (msg : TgMessage) :
  startsWith (text_of msg) (lit "/delete") = true ->
  handleMessage E msg = handleDelete E msg.
Proof.
  intros H. unfold handleMessage. rewrite H. revert H.
  destruct (text_of msg) as [|c0 [|c1 rest]];
    simpl; intros H; first_chars H; try discriminate H; reflexivity.
Qed.

Lemma handleMessage_receipt (msg : TgMessage) (p : jsstring) :
  receiptMatch (text_of msg) = Some p ->
  handleMessage E msg = handleReceiptDetail E msg p.
Proof.
  intros H. unfold handleMessage. rewrite H.
  unfold receiptMatch in H. revert H.
  destruct (text_of msg) as [|c0 [|c1 rest]]; simpl;
    [discriminate | repeat rewrite andb_false_r; reflexivity |].
  destruct (canonicalize c0 =? canonicalize 47%N)%N; [|discriminate].
  destruct (N.eqb_spec (canonicalize c1) (canonicalize 114%N)) as [H1|];
    [|discriminate].
  intros _.
  assert (Hs : (c1 =? 115)%N = false).
  { apply N.eqb_neq. intros ->. vm_compute in H1. discriminate. }
  assert (Hh : (c1 =? 104)%N = false).
  { apply N.eqb_neq. intros ->. vm_compute in H1. discriminate. }
  assert (Hd : (c1 =? 100)%N = false).
  { apply N.eqb_neq. intros ->. vm_compute in H1. discriminate. }
  rewrite Hs, Hh, Hd. repeat rewrite andb_false_r. reflexivity.
Qed.

End Routing.

(** ** The listing of an account's receipts *)

Lemma insert_desc_perm (x : ReceiptRow * UserReceipt) l :
  Permutation (x :: l) (insert_desc x l).
Proof.
  induction l as [|y l IH]; simpl; [apply Permutation_refl|].
  destruct (Js.leb (ur_added_at (snd y)) (ur_added_at (snd x))).
  - apply Permutation_refl.
  - eapply perm_trans; [apply perm_swap|]. apply perm_skip. exact IH.
Qed.

Lemma order_by_perm l : Permutation l (order_by_added_at_desc l).
Proof.
  induction l as [|x l IH]; simpl; [constructor|].
  eapply perm_trans; [|apply insert_desc_perm].
  apply perm_skip. exact IH.
Qed.

Lemma row_newer_trans x y z :
  row_newer_or_equal x y -> row_newer_or_equal y z -> row_newer_or_equal x z.
Proof. unfold row_newer_or_equal. intros Hxy Hyz. eapply jsleb_trans; eauto. Qed.

Lemma insert_desc_sorted x l :
  StronglySorted row_newer_or_equal l ->
  StronglySorted row_newer_or_equal (insert_desc x l).
Proof.
  induction 1 as [|y l Hs IH Hy]; simpl.
  - constructor; constructor.
  - destruct (Js.leb (ur_added_at (snd y)) (ur_added_at (snd x))) eqn:Hle.
    + constructor; [constructor; assumption|].
      constructor; [exact Hle|].
      rewrite Forall_forall in *. intros z Hz.
      eapply row_newer_trans; [exact Hle | apply Hy; exact Hz].
    + constructor; [exact IH|].
      rewrite Forall_forall in *. intros z Hz.
      apply (Permutation_in _ (Permutation_sym (insert_desc_perm x l))) in Hz.
      destruct Hz as [<-|Hz]; [|apply Hy; exact Hz].
      apply jsleb_total. exact Hle.
Qed.

Lemma order_by_sorted l :
  StronglySorted row_newer_or_equal (order_by_added_at_desc l).
Proof.
  induction l as [|x l IH]; simpl; [constructor|].
  apply insert_desc_sorted. exact IH.
Qed.

Lemma StronglySorted_map {A B} (R : A -> A -> Prop) (S : B -> B -> Prop)
  (f : A -> B) (l : list A) :
  (forall x y, R x y -> S (f x) (f y)) ->
  StronglySorted R l -> StronglySorted S (List.map f l).
Proof.
  intros Hf. induction 1 as [|x l Hs IH Hx]; simpl; constructor; auto.
  rewrite Forall_forall in *. intros y Hy.
  apply in_map_iff in Hy. destruct Hy as (z & <- & Hz). auto.
Qed.

Lemma select_user_receipts_sorted (d : DB) (userId : jsstring) :
  StronglySorted newer_or_equal (select_user_receipts d userId).
Proof.
  unfold select_user_receipts.
  eapply StronglySorted_map; [|apply order_by_sorted].
  intros x y H. exact H.
Qed.

Lemma select_user_receipts_perm (d : DB) (userId : jsstring) :
  Permutation
    (List.map (with_details d) (join_user_receipts d userId))
    (select_user_receipts d userId).
Proof. apply Permutation_map. apply order_by_perm. Qed.

Lemma sorted_firstn {A} (R : A -> A -> Prop) (n : nat) (l : list A) :
  StronglySorted R l -> StronglySorted R (firstn n l).
Proof.
  intros Hs. revert n. induction Hs as [|a l Hs IH Ha]; intros n.
  - rewrite firstn_nil. constructor.
  - destruct n as [|n]; simpl; constructor; [apply IH|].
    rewrite Forall_forall in *. intros x Hx. apply Ha.
    rewrite <- (firstn_skipn n l). apply in_or_app. left. exact Hx.
Qed.

(** In a sorted list, what a prefix keeps comes before what it leaves. *)
Lemma sorted_firstn_skipn {A} (R : A -> A -> Prop) (n : nat) (l : list A) :
  StronglySorted R l ->
  forall x y, In x (firstn n l) -> In y (skipn n l) -> R x y.
Proof.
  intros Hs. revert n. induction Hs as [|a l Hs IH Ha]; intros n x y Hx Hy.
  - rewrite firstn_nil in Hx. contradiction.
  - destruct n as [|n]; simpl in *; [contradiction|].
    destruct Hx as [<-|Hx].
    + rewrite Forall_forall in Ha. apply Ha.
      rewrite <- (firstn_skipn n l). apply in_or_app. right. exact Hy.
    + eapply IH; eassumption.
Qed.

(** ** Statistics *)

Lemma non_null_values_perm (l l' : list (option Q)) :
  Permutation l l' ->
  Permutation (non_null_values l) (non_null_values l').
Proof.
  induction 1 as [|[q|] l l' Hp IH|[p|] [q|] l|l1 l2 l3 H1 IH1 H2 IH2];
    simpl; auto; try apply Permutation_refl.
  - apply perm_swap.
  - eapply perm_trans; eassumption.
Qed.

Lemma Qsum_perm (l l' : list Q) : Permutation l l' -> Qsum l == Qsum l'.
Proof.
  induction 1 as [|x l l' Hp IH|x y l|l1 l2 l3 H1 IH1 H2 IH2]; simpl.
  - reflexivity.
  - rewrite IH. reflexivity.
  - ring.
  - rewrite IH1. exact IH2.
Qed.

Lemma linked_totals_perm (d : DB) (userId : jsstring) :
  Permutation
    (List.map (fun row => row_total_amount (fst row))
       (join_user_receipts d userId))
    (linked_totals d userId).
Proof.
  unfold linked_totals, select_user_receipts.
  rewrite map_map. simpl.
  apply Permutation_map. apply order_by_perm.
Qed.

(** The aggregates run over the totals of the listed receipts that are
    not null. *)
Lemma summed_totals_perm (d : DB) (userId : jsstring) :
  Permutation (summed_totals d userId)
    (non_null_values (linked_totals d userId)).
Proof. apply non_null_values_perm, linked_totals_perm. Qed.

Lemma sql_SUM_none (E : env) (l : list (option Q)) :
  non_null_values l = [] -> COALESCE (sql_SUM E l) 0 = 0.
Proof. unfold sql_SUM. intros ->. reflexivity. Qed.

Lemma sql_SUM_some (E : env) (l : list (option Q)) :
  non_null_values l <> [] ->
  COALESCE (sql_SUM E l) 0 = real_sum E (non_null_values l).
Proof.
  unfold sql_SUM. destruct (non_null_values l); [congruence|reflexivity].
Qed.

Lemma sql_AVG_none (E : env) (l : list (option Q)) :
  non_null_values l = [] -> COALESCE (sql_AVG E l) 0 = 0.
Proof. unfold sql_AVG. intros ->. reflexivity. Qed.

Lemma sql_AVG_some (E : env) (l : list (option Q)) :
  non_null_values l <> [] ->
  COALESCE (sql_AVG E l) 0 =
  real_div E (real_sum E (non_null_values l))
    (inject_Z (Z.of_nat (List.length (non_null_values l)))).
Proof.
  unfold sql_AVG. destruct (non_null_values l); [congruence|reflexivity].
Qed.

Lemma Qabs_Qsum (l : list Q) : Qabs (Qsum l) <= Qsum (List.map Qabs l).
Proof.
  induction l as [|x l IH]; simpl; [discriminate|].
  eapply Qle_trans; [apply Qabs_triangle|].
  apply Qplus_le_r. exact IH.
Qed.

Lemma whole_bound (q : Q) (x : Z) (b : Z) :
  q == inject_Z x -> Qabs q <= inject_Z b -> (Z.abs x <= b)%Z.
Proof.
  intros Hq Hb. rewrite Hq in Hb.
  change (Qabs (inject_Z x)) with (inject_Z (Z.abs x)) in Hb.
  rewrite Zle_Qle. exact Hb.
Qed.

(** Where the double arithmetic is exact, the statistics are the exact
    sum and the exact mean. *)
Lemma exact_statistics (E : env) (present : list Q) (m : Z) :
  exact_on_whole_numbers E ->
  Forall whole present ->
  Qsum (List.map Qabs present) <= inject_Z (2 ^ 53) ->
  (Z.of_nat (List.length present) <= 2 ^ 53)%Z ->
  present <> [] ->
  Qsum present == inject_Z m * inject_Z (Z.of_nat (List.length present)) ->
  real_sum E present == Qsum present
  /\ real_div E (real_sum E present)
       (inject_Z (Z.of_nat (List.length present)))
     == inject_Z m.
Proof.
  intros [Hsum Hdiv] Hw Hb Hlen Hne Hm.
  pose proof (Hsum present Hw Hb) as Hs.
  split; [exact Hs|].
  set (n := Z.of_nat (List.length present)) in *.
  assert (Hn : (0 < n)%Z).
  { unfold n. destruct present; [congruence|]. simpl List.length. lia. }
  assert (Hx : real_sum E present == inject_Z (m * n)).
  { rewrite Hs, Hm, inject_Z_mult. reflexivity. }
  rewrite (Hdiv (real_sum E present) (inject_Z n) (m * n)%Z n Hx
             (Qeq_refl _)).
  - rewrite Z.div_mul by lia. reflexivity.
  - apply (@whole_bound (Qsum present)).
    + rewrite Hm, inject_Z_mult. reflexivity.
    + eapply Qle_trans; [apply Qabs_Qsum|exact Hb].
  - lia.
  - exists m. reflexivity.
Qed.

(** *** The doubles of the examples *)

Lemma round_fraction_whole (z : Z) :
  (Z.abs z <= 2 ^ 53)%Z -> round_fraction z 1 == inject_Z z.
Proof.
  intros Hz. unfold round_fraction.
  destruct (z =? 0)%Z eqn:H0; [apply Z.eqb_eq in H0; subst; reflexivity|].
  apply Z.eqb_neq in H0. cbv zeta.
  assert (Hsign : forall m : Z,
             (if (z <? 0)%Z then (- m)%Z else m) = (Z.sgn z * m)%Z).
  { intros m. destruct (z <? 0)%Z eqn:Hs;
      [apply Z.ltb_lt in Hs | apply Z.ltb_ge in Hs]; lia. }
  assert (Hza : (Z.sgn z * Z.abs z = z)%Z) by lia.
  remember (Z.abs z) as a eqn:Ea.
  assert (Ha : (0 < a)%Z) by lia.
  pose proof (Z.log2_spec a Ha) as [Hlo Hhi].
  remember (Z.log2 a) as L eqn:EL.
  assert (HL : (L <= 53)%Z).
  { destruct (Z_le_gt_dec L 53) as [|Hgt]; [assumption|exfalso].
    assert ((2 ^ 54 <= 2 ^ L)%Z) by (apply Z.pow_le_mono_r; lia).
    lia. }
  assert (HL0 : (0 <= L)%Z) by (subst L; apply Z.log2_nonneg).
  change (Z.log2 1) with 0%Z. rewrite Z.sub_0_r.
  destruct (0 <=? L - 52)%Z eqn:He0.
  - apply Z.leb_le in He0. cbn [fst snd].
    assert (Hcase : (L = 52 \/ L = 53)%Z) by lia.
    destruct Hcase as [HL52|HL53].
    + subst L. rewrite HL52 in *. change (52 - 52)%Z with 0%Z.
      change (1 * 2 ^ 0)%Z with 1%Z. rewrite Z.div_1_r.
      assert (Hlt : (a <? 2 ^ 52)%Z = false) by (apply Z.ltb_ge; lia).
      rewrite Hlt. change (0 <=? 0)%Z with true. cbn [fst snd].
      change (1 * 2 ^ 0)%Z with 1%Z.
      rewrite Z.div_1_r, Z.mod_1_r. change (2 * 0 <? 1)%Z with true.
      cbv iota. rewrite Hsign, Hza. change (2 ^ 0)%Z with 1%Z.
      rewrite Z.mul_1_r. reflexivity.
    + subst L. rewrite HL53 in *. change (53 - 52)%Z with 1%Z.
      assert (Ha53 : a = (2 ^ 53)%Z) by lia.
      rewrite Ha53.
      change ((2 ^ 53 / (1 * 2 ^ 1) <? 2 ^ 52)%Z) with false. cbv iota.
      change (0 <=? 1)%Z with true. cbn [fst snd].
      change (2 ^ 53 / (1 * 2 ^ 1))%Z with (2 ^ 52)%Z.
      change (2 ^ 53 mod (1 * 2 ^ 1))%Z with 0%Z.
      change (2 * 0 <? 1 * 2 ^ 1)%Z with true. cbv iota.
      rewrite Hsign.
      assert (Hz2 : (Z.sgn z * 2 ^ 52 * 2 ^ 1 = z)%Z) by lia.
      rewrite Hz2. reflexivity.
  - pose proof (proj1 (Z.leb_gt _ _) He0) as He0'. cbn [fst snd].
    remember (- (L - 52))%Z as k eqn:Ek.
    assert (Hk : (0 < k)%Z) by lia.
    rewrite Z.div_1_r.
    assert (Hpow : (2 ^ L * 2 ^ k = 2 ^ 52)%Z).
    { rewrite <- Z.pow_add_r by lia. f_equal. lia. }
    assert (Hpk : (0 < 2 ^ k)%Z) by (apply Z.pow_pos_nonneg; lia).
    assert (Hge : (2 ^ 52 <= a * 2 ^ k)%Z).
    { rewrite <- Hpow. apply Z.mul_le_mono_nonneg_r; lia. }
    assert (Hlt : (a * 2 ^ k <? 2 ^ 52)%Z = false) by (apply Z.ltb_ge; lia).
    rewrite Hlt. rewrite He0. cbn [fst snd]. rewrite <- Ek.
    rewrite Z.div_1_r, Z.mod_1_r. change (2 * 0 <? 1)%Z with true. cbv iota.
    rewrite Hsign.
    unfold Qeq. cbn [Qnum Qden inject_Z].
    rewrite Z2Pos.id by exact Hpk. nia.
Qed.

Lemma nearest_double_eq (q q' : Q) :
  q == q' -> nearest_double q = nearest_double q'.
Proof.
  intros H. unfold nearest_double. rewrite (Qred_complete _ _ H). reflexivity.
Qed.

Lemma nearest_double_whole (q : Q) (z : Z) :
  q == inject_Z z -> (Z.abs z <= 2 ^ 53)%Z -> nearest_double q == inject_Z z.
Proof.
  intros Hq Hz. rewrite (nearest_double_eq Hq). unfold nearest_double.
  assert (Hred : Qred (inject_Z z) = inject_Z z).
  { unfold Qred, inject_Z.
    pose proof (Z.ggcd_gcd z 1) as Hg.
    pose proof (Z.ggcd_correct_divisors z 1) as Hd.
    destruct (Z.ggcd z 1) as [g [aa bb]]. cbn [fst snd] in *.
    rewrite Z.gcd_1_r in Hg. subst g. destruct Hd as [Ha Hb].
    rewrite Z.mul_1_l in Ha, Hb. subst aa bb. reflexivity. }
  rewrite Hred. simpl. apply round_fraction_whole. exact Hz.
Qed.

Lemma Qsum_abs_nonneg (l : list Q) : 0 <= Qsum (List.map Qabs l).
Proof.
  induction l as [|x l IH]; simpl; [discriminate|].
  apply Qle_trans with (0 + 0); [discriminate|].
  apply Qplus_le_compat; [apply Qabs_nonneg | exact IH].
Qed.

(** On whole numbers that stay within 2^53 no addition rounds, so the
    compensation stays zero and the running sum is the exact one. *)
Lemma compensated_sum_exact (l : list Q) :
  forall (s c : Q),
    whole s -> c == 0 -> Forall whole l ->
    Qabs s + Qsum (List.map Qabs l) <= inject_Z (2 ^ 53) ->
    compensated_sum s c l == s + Qsum l.
Proof.
  induction l as [|r l IH]; intros s c [zs Hs] Hc Hl Hb.
  - simpl in *. unfold double_add.
    assert (Hsum : s + c == inject_Z zs) by (rewrite Hc, Hs; ring).
    rewrite (nearest_double_whole Hsum).
    + rewrite Hs. ring.
    + apply (@whole_bound s zs _ Hs). rewrite Qplus_0_r in Hb. exact Hb.
  - inversion Hl as [|r' l' [zr Hr] Hl']. subst r' l'.
    cbn [compensated_sum List.map Qsum fold_right] in *.
    fold (Qsum (List.map Qabs l)) in Hb. fold (Qsum l).
    pose proof (Qsum_abs_nonneg l) as Hnn.
    pose proof (Qabs_nonneg s) as Hns. pose proof (Qabs_nonneg r) as Hnr.
    assert (Hbs : Qabs s <= inject_Z (2 ^ 53)).
    { apply Qle_trans with (Qabs s + (Qabs r + Qsum (List.map Qabs l)));
        [|exact Hb].
      rewrite <- (Qplus_0_r (Qabs s)) at 1. apply Qplus_le_r.
      apply Qle_trans with (0 + 0); [discriminate|].
      apply Qplus_le_compat; assumption. }
    assert (Hbr : Qabs r <= inject_Z (2 ^ 53)).
    { apply Qle_trans with (Qabs s + (Qabs r + Qsum (List.map Qabs l)));
        [|exact Hb].
      apply Qle_trans with (0 + (Qabs r + 0)).
      - rewrite Qplus_0_l, Qplus_0_r. apply Qle_refl.
      - apply Qplus_le_compat; [assumption|].
        apply Qplus_le_r. assumption. }
    assert (Hbt : Qabs (s + r) + Qsum (List.map Qabs l)
                  <= inject_Z (2 ^ 53)).
    { eapply Qle_trans; [|exact Hb]. rewrite Qplus_assoc.
      apply Qplus_le_l. apply Qabs_triangle. }
    assert (Ht : double_add s r == inject_Z (zs + zr)).
    { unfold double_add. apply nearest_double_whole.
      - rewrite Hs, Hr, inject_Z_plus. reflexivity.
      - apply (@whole_bound (s + r)).
        + rewrite Hs, Hr, inject_Z_plus. reflexivity.
        + eapply Qle_trans; [|exact Hbt].
          rewrite <- (Qplus_0_r (Qabs (s + r))) at 1.
          apply Qplus_le_r. exact Hnn. }
    set (t := double_add s r) in *.
    assert (He1 : double_add (double_sub r t) s == 0).
    { unfold double_add, double_sub.
      assert (H1 : nearest_double (r - t) == inject_Z (- zs)).
      { apply nearest_double_whole.
        - rewrite Ht, Hr, inject_Z_plus, inject_Z_opp. ring.
        - rewrite Z.abs_opp. apply (@whole_bound s zs _ Hs Hbs). }
      assert (H2 : nearest_double (r - t) + s == inject_Z 0).
      { rewrite H1, Hs, inject_Z_opp. change (inject_Z 0) with 0. ring. }
      rewrite (nearest_double_whole H2); [reflexivity|]. simpl. lia. }
    assert (He2 : double_add (double_sub s t) r == 0).
    { unfold double_add, double_sub.
      assert (H1 : nearest_double (s - t) == inject_Z (- zr)).
      { apply nearest_double_whole.
        - rewrite Ht, Hs, inject_Z_plus, inject_Z_opp. ring.
        - rewrite Z.abs_opp. apply (@whole_bound r zr _ Hr Hbr). }
      assert (H2 : nearest_double (s - t) + r == inject_Z 0).
      { rewrite H1, Hr, inject_Z_opp. change (inject_Z 0) with 0. ring. }
      rewrite (nearest_double_whole H2); [reflexivity|]. simpl. lia. }
    assert (Hc' : forall e, e == 0 -> double_add c e == 0).
    { intros e He. unfold double_add.
      assert (H2 : c + e == inject_Z 0).
      { rewrite Hc, He. reflexivity. }
      rewrite (nearest_double_whole H2); [reflexivity|]. simpl. lia. }
    rewrite IH.
    + rewrite Ht, Hs, Hr, inject_Z_plus. ring.
    + exists (zs + zr)%Z. exact Ht.
    + destruct (Qle_bool (Qabs s) (Qabs r)); apply Hc'; assumption.
    + exact Hl'.
    + rewrite Ht. rewrite Hs, Hr, <- inject_Z_plus in Hbt. exact Hbt.
Qed.

(** The doubles of the examples keep what IEEE 754 promises on whole
    numbers. *)
Lemma sample_exact (raw : jsstring) (answer : parsed) :
  exact_on_whole_numbers (sample_env raw answer).
Proof.
  split.
  - intros l Hl Hb. cbn [real_sum sample_env].
    rewrite compensated_sum_exact; [ring| exists 0%Z; reflexivity
                                    | reflexivity | exact Hl |].
    change (Qabs 0) with 0. rewrite Qplus_0_l. exact Hb.
  - intros a b x n Ha Hb Hx Hn (m & Hm). cbn [real_div sample_env].
    subst x. rewrite Z.div_mul by lia. unfold double_div.
    apply nearest_double_whole; [|nia].
    rewrite Ha, Hb, inject_Z_mult. field. intros H0.
    assert (Hz : n = 0%Z) by (apply (inject_Z_injective n 0); exact H0).
    lia.
Qed.

(** C6, as amended.  For every account, [getUserReceiptStats] returns
    and: its count is the number of receipts linked to the account; the
    values it adds are the totals of those receipts that are present (not
    null); with no such value its total and its mean are 0, so that with
    no linked receipt the result is count 0, total 0, mean 0; otherwise its
    total is the running sum of the engine over these values and its mean
    is that total divided, by the engine, by the number of these values,
    hence by the count only when every linked receipt has a total.  The
    engine computes in doubles, which round.  Where doubles are exact, on
    whole amounts whose absolute values add up to no more than 2^53, the
    total is the exact sum, and the mean is the exact mean when that is a
    whole number; so for linked receipts with totals 110 and 220 the
    result is count 2, total 330, mean 165. *)
Theorem stats_of_linked_receipts (E : env) (userId : jsstring) (w : world) :
  let totals := linked_totals (db w) userId in
  let present := summed_totals (db w) userId in
  let n := inject_Z (Z.of_nat (List.length present)) in
  exists st,
    getUserReceiptStats E userId w = (Ok st, w)
    /\ totalReceipts st = List.length totals
    /\ Permutation present (non_null_values totals)
    /\ (present = [] -> totalAmount st = 0 /\ averageAmount st = 0)
    /\ (present <> [] ->
        totalAmount st = real_sum E present
        /\ averageAmount st = real_div E (totalAmount st) n)
    /\ (List.length present = List.length totals -> totals <> [] ->
        averageAmount st
        = real_div E (totalAmount st)
            (inject_Z (Z.of_nat (totalReceipts st))))
    /\ (totals = [] ->
        totalReceipts st = 0%nat /\ totalAmount st = 0
        /\ averageAmount st = 0)
    /\ (exact_on_whole_numbers E ->
        Forall whole present ->
        Qsum (List.map Qabs present) <= inject_Z (2 ^ 53) ->
        (Z.of_nat (List.length present) <= 2 ^ 53)%Z ->
        totalAmount st == Qsum present
        /\ forall m : Z,
             present <> [] -> Qsum present == inject_Z m * n ->
             averageAmount st == inject_Z m)
    /\ (exact_on_whole_numbers E ->
        Permutation totals [Some 110; Some 220] ->
        totalReceipts st = 2%nat /\ totalAmount st == 330
        /\ averageAmount st == 165).
Proof.
  cbv zeta.
  exists (select_user_receipt_stats E (db w) userId).
  split; [destruct w; reflexivity|].
  pose proof (linked_totals_perm (db w) userId) as Hp.
  pose proof (summed_totals_perm (db w) userId) as Hnn.
  unfold select_user_receipt_stats. cbn [totalReceipts totalAmount averageAmount].
  fold (summed_totals (db w) userId) in *.
  set (amounts := List.map (fun row => row_total_amount (fst row))
                    (join_user_receipts (db w) userId)) in *.
  assert (Hpresent : non_null_values amounts = summed_totals (db w) userId)
    by reflexivity.
  set (present := summed_totals (db w) userId) in *.
  set (totals := linked_totals (db w) userId) in *.
  assert (Hcount : List.length (join_user_receipts (db w) userId)
                   = List.length totals).
  { rewrite <- (Permutation_length Hp). unfold amounts.
    rewrite length_map. reflexivity. }
  assert (Hnone : present = [] ->
                  COALESCE (sql_SUM E amounts) 0 = 0
                  /\ COALESCE (sql_AVG E amounts) 0 = 0).
  { intros He. rewrite sql_SUM_none, sql_AVG_none by congruence. auto. }
  assert (Hsome : present <> [] ->
                  COALESCE (sql_SUM E amounts) 0 = real_sum E present
                  /\ COALESCE (sql_AVG E amounts) 0
                     = real_div E (COALESCE (sql_SUM E amounts) 0)
                         (inject_Z (Z.of_nat (List.length present)))).
  { intros Hne. rewrite sql_SUM_some, sql_AVG_some by congruence.
    rewrite Hpresent. auto. }
  assert (Hexact : exact_on_whole_numbers E ->
            Forall whole present ->
            Qsum (List.map Qabs present) <= inject_Z (2 ^ 53) ->
            (Z.of_nat (List.length present) <= 2 ^ 53)%Z ->
            COALESCE (sql_SUM E amounts) 0 == Qsum present
            /\ forall m : Z,
                 present <> [] ->
                 Qsum present
                 == inject_Z m * inject_Z (Z.of_nat (List.length present)) ->
                 COALESCE (sql_AVG E amounts) 0 == inject_Z m).
  { intros HE Hw Hb Hlen. split.
    - destruct present as [|x rest] eqn:Hpr.
      + rewrite (proj1 (Hnone eq_refl)). reflexivity.
      + rewrite (proj1 (Hsome ltac:(discriminate))).
        apply (proj1 HE); assumption.
    - intros m Hne Hm.
      destruct (@exact_statistics E present m HE Hw Hb Hlen Hne Hm)
        as [Hs Hd].
      destruct (Hsome Hne) as [Ht Ha]. rewrite Ha, Ht. exact Hd. }
  split; [exact Hcount|]. split; [exact Hnn|].
  split; [exact Hnone|]. split; [exact Hsome|].
  split; [|split; [|split]].
  - intros Hall Hne. rewrite Hcount, <- Hall.
    apply Hsome. intros He. rewrite He in Hall.
    destruct totals; [congruence|discriminate].
  - intros He. rewrite Hcount, He. split; [reflexivity|].
    apply Hnone. rewrite He in Hnn. simpl in Hnn.
    apply Permutation_nil. apply Permutation_sym. exact Hnn.
  - exact Hexact.
  - intros HE Hex.
    pose proof (@non_null_values_perm _ _ Hex) as Hex'. simpl in Hex'.
    assert (Hpp : Permutation present [110; 220])
      by (eapply perm_trans; eassumption).
    split; [rewrite Hcount, (Permutation_length Hex); reflexivity|].
    assert (Hw : Forall whole present).
    { apply Forall_forall. intros x Hx.
      apply (Permutation_in _ Hpp) in Hx.
      destruct Hx as [<-|[<-|[]]]; [exists 110%Z | exists 220%Z]; reflexivity. }
    assert (Hb : Qsum (List.map Qabs present) <= inject_Z (2 ^ 53)).
    { rewrite (@Qsum_perm _ _ (Permutation_map Qabs Hpp)). discriminate. }
    assert (Hlen : (Z.of_nat (List.length present) <= 2 ^ 53)%Z).
    { rewrite (Permutation_length Hpp). simpl. lia. }
    destruct (Hexact HE Hw Hb Hlen) as [Ht Ha].
    split.
    + rewrite Ht, (@Qsum_perm _ _ Hpp). reflexivity.
    + apply (Ha 165%Z).
      * intros He. rewrite He in Hpp. apply Permutation_nil in Hpp.
        discriminate.
      * rewrite (@Qsum_perm _ _ Hpp), (Permutation_length Hpp). reflexivity.
Qed.

(** ** [/history] *)

(** C7.  For every registered session, [/history] writes nothing and
    sends one reply: the no-receipts reply when the account has no linked
    receipt, and otherwise the lines of the first ten receipts of the
    listing.  The listing holds exactly the receipts linked to the account
    and is ordered by the time of linking, descending; so the reply shows
    all receipts when there are at most ten, ten of twelve, in descending
    order, and every receipt shown was linked no earlier than any receipt
    left out. *)
Theorem history_shows_ten_most_recent (E : env) (msg : TgMessage) (d : DB)
  (t : nat) (s : TelegramUser) :
  startsWith (text_of msg) (lit "/history") = true ->
  select_telegram_user d (of_Z (msg_chat_id msg)) = Some s ->
  let chat := msg_chat_id msg in
  let all := select_user_receipts d (user_id s) in
  let shown := firstn 10 all in
  let '(_, w') := handleMessage E msg (start d t) in
  db w' = d
  /\ (all = [] -> log w' = [EvSendMessage chat ReplyNoReceipts])
  /\ (all <> [] ->
      log w' = [EvSendMessage chat
                  (ReplyHistory (List.length shown)
                     (List.map history_line_of shown))])
  /\ (filter (fun ur => ur_user_id ur =? user_id s) (user_receipts d) = [] ->
      all = [])
  /\ List.length shown = Nat.min 10 (List.length all)
  /\ (List.length all = 12%nat -> List.length shown = 10%nat)
  /\ Permutation
       (List.map (with_details d) (join_user_receipts d (user_id s))) all
  /\ StronglySorted newer_or_equal shown
  /\ (forall x y, In x shown -> In y (skipn 10 all) -> newer_or_equal x y).
Proof.
  intros Hcmd Hsel. cbv zeta.
  rewrite handleMessage_history by exact Hcmd.
  unfold handleHistory, findTelegramUser, getUserReceipts.
  unfold bind, get_db, ret, sendMessage, call.
  cbn [db tick log start]. rewrite Hsel.
  assert (Hrest :
    let all := select_user_receipts d (user_id s) in
    (filter (fun ur => ur_user_id ur =? user_id s) (user_receipts d) = [] ->
     all = [])
    /\ List.length (firstn 10 all) = Nat.min 10 (List.length all)
    /\ (List.length all = 12%nat -> List.length (firstn 10 all) = 10%nat)
    /\ Permutation
         (List.map (with_details d) (join_user_receipts d (user_id s))) all
    /\ StronglySorted newer_or_equal (firstn 10 all)
    /\ (forall x y, In x (firstn 10 all) -> In y (skipn 10 all) ->
                    newer_or_equal x y)).
  { cbv zeta.
    split; [unfold select_user_receipts, join_user_receipts;
            intros ->; reflexivity|].
    split; [apply length_firstn|].
    split; [intros H12; rewrite length_firstn, H12; reflexivity|].
    split; [apply select_user_receipts_perm|].
    split; [apply sorted_firstn; apply select_user_receipts_sorted|].
    apply sorted_firstn_skipn. apply select_user_receipts_sorted. }
  cbv zeta in Hrest.
  change (db (start d t)) with d.
  destruct (select_user_receipts d (user_id s)) as [|r rs].
  - cbn [List.length Nat.eqb app].
    split; [reflexivity|]. split; [reflexivity|].
    split; [congruence|]. exact Hrest.
  - cbn [List.length Nat.eqb app].
    split; [reflexivity|]. split; [discriminate|].
    split; [reflexivity|]. exact Hrest.
Qed.

(** ** Deleting a receipt *)

Lemma filter_filter_implied {A} (p q : A -> bool) (l : list A) :
  (forall x, p x = true -> q x = true) ->
  filter p (filter q l) = filter p l.
Proof.
  intros Hpq. induction l as [|x l IH]; simpl; [reflexivity|].
  destruct (q x) eqn:Hq; simpl.
  - rewrite IH. reflexivity.
  - destruct (p x) eqn:Hp; [|exact IH].
    apply Hpq in Hp. congruence.
Qed.

Lemma filter_ext_in_list {A} (p q : A -> bool) (l : list A) :
  (forall x, In x l -> p x = q x) -> filter p l = filter q l.
Proof.
  induction l as [|x l IH]; simpl; intros H; [reflexivity|].
  rewrite (H x) by (left; reflexivity).
  rewrite IH by (intros y Hy; apply H; right; exact Hy). reflexivity.
Qed.

Lemma filter_all {A} (p : A -> bool) (l : list A) :
  (forall x, In x l -> p x = true) -> filter p l = l.
Proof.
  induction l as [|x l IH]; simpl; intros H; [reflexivity|].
  rewrite (H x) by (left; reflexivity).
  rewrite IH by (intros y Hy; apply H; right; exact Hy). reflexivity.
Qed.

Lemma filter_none {A} (p : A -> bool) (l : list A) :
  (forall x, In x l -> p x = false) -> filter p l = [].
Proof.
  induction l as [|x l IH]; simpl; intros H; [reflexivity|].
  rewrite (H x) by (left; reflexivity).
  apply IH. intros y Hy. apply H. right. exact Hy.
Qed.

(** An element that is not older than any element of the list goes to
    its front. *)
Lemma insert_desc_front x l :
  Forall (row_newer_or_equal x) l -> insert_desc x l = x :: l.
Proof.
  intros H. destruct l as [|y l]; simpl; [reflexivity|].
  inversion H as [|? ? Hy _]; subst. unfold row_newer_or_equal in Hy.
  rewrite Hy. reflexivity.
Qed.

Lemma filter_insert_desc (p : ReceiptRow * UserReceipt -> bool) x l :
  StronglySorted row_newer_or_equal l ->
  filter p (insert_desc x l) =
  if p x then insert_desc x (filter p l) else filter p l.
Proof.
  induction 1 as [|y l Hs IH Hy].
  - simpl. destruct (p x); reflexivity.
  - simpl insert_desc.
    destruct (Js.leb (ur_added_at (snd y)) (ur_added_at (snd x))) eqn:Hle.
    + change (filter p (x :: y :: l))
        with (if p x then x :: filter p (y :: l) else filter p (y :: l)).
      destruct (p x); [|reflexivity].
      symmetry. apply insert_desc_front.
      rewrite Forall_forall. intros z Hz.
      apply filter_In in Hz. destruct Hz as [[<-|Hz] _]; [exact Hle|].
      rewrite Forall_forall in Hy.
      eapply row_newer_trans; [exact Hle | apply Hy; exact Hz].
    + simpl filter. rewrite IH.
      destruct (p y), (p x); simpl; try rewrite Hle; reflexivity.
Qed.

Lemma filter_order_by (p : ReceiptRow * UserReceipt -> bool) l :
  filter p (order_by_added_at_desc l) = order_by_added_at_desc (filter p l).
Proof.
  induction l as [|x l IH]; simpl; [reflexivity|].
  rewrite filter_insert_desc by apply order_by_sorted.
  rewrite IH. destruct (p x); reflexivity.
Qed.

Lemma delete_link_then_receipt_links (d : DB) (userId receiptId : jsstring) :
  existsb (fun r => row_id r =? receiptId) (receipts d) = true ->
  user_receipts (after_delete d userId receiptId) =
  filter (fun ur => negb (ur_receipt_id ur =? receiptId)) (user_receipts d).
Proof.
  intros Hex. unfold after_delete, delete_receipt_rows. simpl.
  rewrite Hex. simpl.
  apply filter_filter_implied. intros ur H.
  rewrite negb_true_iff in H. rewrite H, andb_false_r. reflexivity.
Qed.

Lemma after_delete_receipts (d : DB) (userId receiptId : jsstring) :
  receipts (after_delete d userId receiptId) =
  filter (fun r => negb (row_id r =? receiptId)) (receipts d).
Proof.
  unfold after_delete, delete_receipt_rows. simpl.
  destruct (existsb (fun r => row_id r =? receiptId) (receipts d)) eqn:Hex;
    simpl; [reflexivity|].
  symmetry. apply filter_all. intros r Hr.
  destruct (row_id r =? receiptId) eqn:Heq; [|reflexivity].
  exfalso. assert (Ht : existsb (fun r => row_id r =? receiptId)
                          (receipts d) = true).
  { apply existsb_exists. exists r. auto. }
  congruence.
Qed.

Lemma after_delete_items (d : DB) (userId receiptId other : jsstring) :
  other <> receiptId ->
  select_getReceiptItems (after_delete d userId receiptId) other =
  select_getReceiptItems d other.
Proof.
  intros Hne. unfold select_getReceiptItems, select_receipt_items.
  f_equal. unfold after_delete, delete_receipt_rows. simpl.
  destruct (existsb (fun r => row_id r =? receiptId) (receipts d));
    simpl; [|reflexivity].
  apply filter_filter_implied. intros i Hi.
  apply jseqb_eq in Hi. rewrite Hi. apply negb_true_iff.
  apply jseqb_neq. exact Hne.
Qed.

Lemma after_delete_join (d : DB) (userId receiptId u : jsstring) :
  existsb (fun r => row_id r =? receiptId) (receipts d) = true ->
  join_user_receipts (after_delete d userId receiptId) u =
  filter (fun row => negb (row_id (fst row) =? receiptId))
    (join_user_receipts d u).
Proof.
  intros Hex. unfold join_user_receipts.
  rewrite delete_link_then_receipt_links by exact Hex.
  rewrite after_delete_receipts.
  induction (user_receipts d) as [|ur links IH]; simpl; [reflexivity|].
  destruct (ur_receipt_id ur =? receiptId) eqn:Hrid; simpl.
  - destruct (ur_user_id ur =? u); simpl; [|exact IH].
    rewrite filter_app, <- IH.
    rewrite (@filter_none _ _ (List.map _ _)); [reflexivity|].
    intros row Hrow. apply in_map_iff in Hrow.
    destruct Hrow as (r & <- & Hr). apply filter_In in Hr.
    destruct Hr as [_ Hr]. simpl.
    apply jseqb_eq in Hr. apply jseqb_eq in Hrid.
    rewrite Hr, Hrid, jseqb_refl. reflexivity.
  - destruct (ur_user_id ur =? u); simpl; [|exact IH].
    rewrite filter_app, <- IH. f_equal.
    rewrite (@filter_all _ _ (List.map _ _)).
    + f_equal. apply filter_filter_implied.
      intros r Hr. apply jseqb_eq in Hr. rewrite Hr, Hrid. reflexivity.
    + intros row Hrow. apply in_map_iff in Hrow.
      destruct Hrow as (r & <- & Hr). apply filter_In in Hr.
      destruct Hr as [_ Hr]. simpl.
      apply jseqb_eq in Hr. rewrite Hr, Hrid. reflexivity.
Qed.

Lemma map_filter_agree {A B} (f g : A -> B) (p : A -> bool) (q : B -> bool)
  (l : list A) :
  (forall x, q (g x) = p x) ->
  (forall x, p x = true -> f x = g x) ->
  List.map f (filter p l) = filter q (List.map g l).
Proof.
  intros Hq Hf. induction l as [|x l IH]; simpl; [reflexivity|].
  rewrite Hq. destruct (p x) eqn:Hp; simpl; [|exact IH].
  rewrite IH, Hf by exact Hp. reflexivity.
Qed.

(** After the deletion, every account lists what it listed before, in the
    same order, without the deleted receipt. *)
Lemma after_delete_listing (d : DB) (userId receiptId u : jsstring) :
  existsb (fun r => row_id r =? receiptId) (receipts d) = true ->
  select_user_receipts (after_delete d userId receiptId) u =
  filter (other_than receiptId) (select_user_receipts d u).
Proof.
  intros Hex. unfold select_user_receipts.
  rewrite after_delete_join by exact Hex.
  rewrite <- filter_order_by.
  apply map_filter_agree.
  - intros row. reflexivity.
  - intros row Hrow. unfold with_details.
    rewrite after_delete_items; [reflexivity|].
    apply jseqb_neq. apply negb_true_iff. exact Hrow.
Qed.

(** A listed receipt has its row in the table. *)
Lemma listed_receipt_exists (d : DB) (u : jsstring)
  (m : UserReceiptWithDetails) :
  In m (select_user_receipts d u) ->
  existsb (fun r => row_id r =? r_id (receipt m)) (receipts d) = true.
Proof.
  intros Hin. unfold select_user_receipts in Hin.
  apply in_map_iff in Hin. destruct Hin as (row & <- & Hrow).
  apply (Permutation_in _ (Permutation_sym (order_by_perm _))) in Hrow.
  unfold join_user_receipts in Hrow.
  apply in_flat_map in Hrow. destruct Hrow as (ur & _ & Hrow).
  apply in_map_iff in Hrow. destruct Hrow as (r & <- & Hr).
  apply filter_In in Hr. destruct Hr as [Hr _].
  apply existsb_exists. exists r. split; [exact Hr|]. apply jseqb_refl.
Qed.

Section DeleteAndLookup.
Variable E : env.

(** What [/receipt] does for a registered chat: one reply, no write. *)
Lemma receipt_lookup (msg : TgMessage) (d : DB) (t : nat)
  (s : TelegramUser) (p : jsstring) :
  receiptMatch (text_of msg) = Some p ->
  select_telegram_user d (of_Z (msg_chat_id msg)) = Some s ->
  let chat := msg_chat_id msg in
  let '(_, w') := handleMessage E msg (start d t) in
  db w' = d
  /\ log w' =
     [EvSendMessage chat
        (lookup_reply p (select_user_receipts d (user_id s)))].
Proof.
  intros Hm Hsel. cbv zeta.
  rewrite handleMessage_receipt with (p := p) by exact Hm.
  unfold handleReceiptDetail, findTelegramUser, getUserReceipts.
  unfold bind, get_db, ret, sendMessage, call.
  simpl. rewrite Hsel. simpl. unfold lookup_reply.
  destruct (find (fun r => startsWith (r_id (receipt r)) p)
              (select_user_receipts d (user_id s)));
    simpl; auto.
Qed.

(** What [/delete] does for a registered chat, once its argument
    matches the listed receipt [m]. *)
Lemma handleDelete_found (msg : TgMessage) (d : DB) (t : nat)
  (s : TelegramUser) (p : jsstring) (m : UserReceiptWithDetails) :
  select_telegram_user d (of_Z (msg_chat_id msg)) = Some s ->
  nth_error (split_ws (text_of msg)) 1 = Some p ->
  find (fun r => startsWith (r_id (receipt r)) p)
    (select_user_receipts d (user_id s)) = Some m ->
  let chat := msg_chat_id msg in
  let mid := r_id (receipt m) in
  let '(_, w') := handleDelete E msg (start d t) in
  db w' = after_delete d (user_id s) mid
  /\ log w' = [EvSendMessage chat (ReplyDeleted (substring0 8 mid))].
Proof.
  intros Hsel Hp Hfind. cbv zeta.
  unfold handleDelete, findTelegramUser, getUserReceipts,
    unlinkReceiptFromUser, deleteReceipt.
  unfold bind, get_db, put_db, ret, sendMessage, call.
  destruct (split_ws (text_of msg)) as [|a [|b parts]];
    try discriminate Hp.
  simpl in Hp. injection Hp as ->.
  simpl. rewrite Hsel. simpl. rewrite Hfind. simpl. auto.
Qed.

(** C9, as amended.  For every registered session and every [/delete]
    whose argument is a prefix of the id of a listed receipt, with [m] the
    first such receipt in the listing: the handler removes the ownership
    link, then the receipt, and confirms with the first eight characters of
    the id; afterwards no receipt row and no ownership link carries that
    id.  A later [/receipt] with the same prefix is answered from the old
    listing without [m]: it never finds the deleted receipt, and it replies
    not-found when no other listed receipt has an id starting with the
    prefix. *)
Theorem delete_removes_link_and_receipt (msg : TgMessage) (d : DB)
  (t : nat) (s : TelegramUser) (p : jsstring)
  (m : UserReceiptWithDetails) :
  startsWith (text_of msg) (lit "/delete") = true ->
  select_telegram_user d (of_Z (msg_chat_id msg)) = Some s ->
  nth_error (split_ws (text_of msg)) 1 = Some p ->
  find (fun r => startsWith (r_id (receipt r)) p)
    (select_user_receipts d (user_id s)) = Some m ->
  let chat := msg_chat_id msg in
  let mid := r_id (receipt m) in
  let '(_, w') := handleMessage E msg (start d t) in
  db w' = delete_receipt_rows (delete_link_rows d (user_id s) mid) mid
  /\ log w' = [EvSendMessage chat (ReplyDeleted (substring0 8 mid))]
  /\ (forall r, In r (receipts (db w')) -> row_id r <> mid)
  /\ (forall ur, In ur (user_receipts (db w')) -> ur_receipt_id ur <> mid)
  /\ (forall lookup t',
        msg_chat_id lookup = chat ->
        receiptMatch (text_of lookup) = Some p ->
        let remaining :=
          filter (other_than mid) (select_user_receipts d (user_id s)) in
        let '(_, w'') := handleMessage E lookup (start (db w') t') in
        db w'' = db w'
        /\ log w'' = [EvSendMessage chat (lookup_reply p remaining)]
        /\ (forall r,
              find (fun r => startsWith (r_id (receipt r)) p) remaining
              = Some r ->
              r_id (receipt r) <> mid)
        /\ ((forall r, In r remaining ->
                       startsWith (r_id (receipt r)) p = false) ->
            lookup_reply p remaining = ReplyReceiptNotFound)).
Proof.
  intros Hcmd Hsel Hp Hfind. cbv zeta.
  rewrite handleMessage_delete by exact Hcmd.
  pose proof (@handleDelete_found msg d t s p m Hsel Hp Hfind) as Hd.
  cbv zeta in Hd.
  destruct (handleDelete E msg (start d t)) as [r w'].
  destruct Hd as [Hdb Hlog].
  assert (Hin : In m (select_user_receipts d (user_id s))).
  { apply find_some in Hfind. apply Hfind. }
  pose proof (@listed_receipt_exists d (user_id s) m Hin) as Hex.
  split; [exact Hdb|]. split; [exact Hlog|].
  split; [|split].
  - intros r0 Hr0. rewrite Hdb in Hr0.
    change (delete_receipt_rows
              (delete_link_rows d (user_id s) (r_id (receipt m)))
              (r_id (receipt m)))
      with (after_delete d (user_id s) (r_id (receipt m))) in Hr0.
    rewrite after_delete_receipts in Hr0.
    apply filter_In in Hr0. destruct Hr0 as [_ Hr0].
    apply jseqb_neq. apply negb_true_iff. exact Hr0.
  - intros ur Hur. rewrite Hdb in Hur.
    rewrite delete_link_then_receipt_links in Hur by exact Hex.
    apply filter_In in Hur. destruct Hur as [_ Hur].
    apply jseqb_neq. apply negb_true_iff. exact Hur.
  - intros lookup t' Hchat Hm.
    assert (Hsel' : select_telegram_user (db w')
                      (of_Z (msg_chat_id lookup)) = Some s).
    { rewrite Hchat, Hdb. unfold select_telegram_user, after_delete,
        delete_receipt_rows. simpl. rewrite Hex. exact Hsel. }
    pose proof (@receipt_lookup lookup (db w') t' s p Hm Hsel') as Hl.
    cbv zeta in Hl.
    destruct (handleMessage E lookup (start (db w') t')) as [r'' w''].
    destruct Hl as [Hdb'' Hlog''].
    rewrite Hdb in Hlog''.
    rewrite after_delete_listing in Hlog'' by exact Hex.
    rewrite Hchat in Hlog''.
    split; [exact Hdb''|]. split; [exact Hlog''|].
    split.
    + intros r0 Hf0. apply find_some in Hf0. destruct Hf0 as [Hin0 _].
      apply filter_In in Hin0. destruct Hin0 as [_ Hother].
      unfold other_than in Hother. apply negb_true_iff in Hother.
      apply jseqb_neq. exact Hother.
    + intros Hnone. unfold lookup_reply.
      destruct (find (fun r0 => startsWith (r_id (receipt r0)) p)
                  (filter (other_than (r_id (receipt m)))
                     (select_user_receipts d (user_id s))))
        as [r0|] eqn:Hf0; [|reflexivity].
      apply find_some in Hf0. destruct Hf0 as [Hin0 Hs0].
      rewrite (Hnone r0 Hin0) in Hs0. discriminate.
Qed.

(** The text [/delete] followed by white space only has an empty second
    piece. *)
Lemma split_ws_delete_blank (ws : jsstring) :
  ws <> [] -> forallb is_space ws = true ->
  split_ws (lit "/delete" ++ ws) = [lit "/delete"; []].
Proof.
  intros Hne Hws. destruct ws as [|c ws]; [congruence|].
  simpl in Hws. apply andb_true_iff in Hws. destruct Hws as [Hc Hws].
  unfold split_ws. simpl. rewrite Hc.
  rewrite split_go_spaces by exact Hws. reflexivity.
Qed.

(** C10.  For every registered session whose account lists at least one
    receipt, and every text that is [/delete] followed by white space only:
    the second piece of the text exists and is empty, so the argument check
    passes; the first receipt of the listing (the newest link) is matched,
    its link and its row are deleted, and the only reply is the
    confirmation, not a usage error or a not-found reply. *)
Theorem delete_with_blank_argument (msg : TgMessage) (d : DB) (t : nat)
  (s : TelegramUser) (ws : jsstring) (newest : UserReceiptWithDetails)
  (older : list UserReceiptWithDetails) :
  text_of msg = lit "/delete" ++ ws ->
  ws <> [] -> forallb is_space ws = true ->
  select_telegram_user d (of_Z (msg_chat_id msg)) = Some s ->
  select_user_receipts d (user_id s) = newest :: older ->
  let chat := msg_chat_id msg in
  let mid := r_id (receipt newest) in
  nth_error (split_ws (text_of msg)) 1 = Some []
  /\ let '(_, w') := handleMessage E msg (start d t) in
     db w' = delete_receipt_rows (delete_link_rows d (user_id s) mid) mid
     /\ log w' = [EvSendMessage chat (ReplyDeleted (substring0 8 mid))].
Proof.
  intros Htext Hne Hws Hsel Hlist. cbv zeta.
  assert (Hparts : nth_error (split_ws (text_of msg)) 1 = Some []).
  { rewrite Htext, split_ws_delete_blank by assumption. reflexivity. }
  split; [exact Hparts|].
  rewrite handleMessage_delete
    by (rewrite Htext; apply startsWith_app).
  assert (Hfind : find (fun r => startsWith (r_id (receipt r)) [])
                    (select_user_receipts d (user_id s)) = Some newest).
  { rewrite Hlist. reflexivity. }
  exact (@handleDelete_found msg d t s [] newest Hsel Hparts Hfind).
Qed.

End DeleteAndLookup.

(** * Concrete runs *)

(** ** Provisioning, twice *)

(** Witness of C4: chat 5 is provisioned from empty tables, then asked for
    again under another display name. *)
Lemma getOrCreateTelegramUser_idempotent_witness :
  getOrCreateTelegramUser plain_env (lit "5") (lit "Ann") (start empty_db 0)
  = (Ok fresh_session, fresh_world)
  /\ getOrCreateTelegramUser plain_env (lit "5") (lit "Ann B.") fresh_world
     = (Ok fresh_session, fresh_world).
Proof.
  split; [reflexivity|].
  apply (@getOrCreateTelegramUser_idempotent plain_env (lit "5") (lit "Ann")
           (lit "Ann B.") (start empty_db 0) fresh_world fresh_session).
  reflexivity.
Defined.

(** ** An answer with an error, an answer with an empty error *)


(** An answer that is no JSON: the parse-error reply, and no write. *)
Example unparsable_answer_not_stored :
  let w' := snd (handleMessage garbage_env (text_message 5 "coffee 3")
                   (start keyed_db 0)) in
  db w' = keyed_db
  /\ log w'
     = [EvSendChatAction 5 (lit "typing");
        EvGenerateText (text_prompt (Some (lit "coffee 3"))) (lit "KEY")
          (Ok (lit "oops"));
        EvSendMessage 5 ReplyUnparsable].
Proof. split; reflexivity. Qed.


(** The same with an [error] that is no string: [false] and [0] are not
    null either, and the receipt is stored. *)
Example falsy_error_is_stored :
  Forall
    (fun error =>
       let E := sample_env (lit "{}")
                  (Parsed (sample_analysis (Some 110) error)) in
       let w' := snd (handleMessage E (text_message 5 "coffee 3")
                        (start keyed_db 0)) in
       error <> JNull
       /\ ToBoolean error = false
       /\ List.length (receipts (db w')) = 1%nat
       /\ forall ev, In ev (log w') ->
                     ev <> EvSendMessage 5 (ReplyTextAnalysisError error))
    [JBool false; JNumber 0].
Proof.
  repeat constructor; try discriminate; vm_compute;
    intros ev [<-|[<-|[<-|[]]]]; discriminate.
Qed.

(** An [error] that is truthy without being a string is relayed as it
    is, and nothing is stored. *)
Example truthy_error_is_relayed :
  let E := sample_env (lit "{}")
             (Parsed (sample_analysis (Some 110) (JBool true))) in
  let w' := snd (handleMessage E (text_message 5 "coffee 3")
                   (start keyed_db 0)) in
  db w' = keyed_db
  /\ In (EvSendMessage 5 (ReplyTextAnalysisError (JBool true))) (log w').
Proof. cbv zeta. split; [reflexivity|]. vm_compute. auto. Qed.

(** The model answers the text [null]: reading [error] throws inside the
    [try], the failure is reported and nothing is stored. *)
Example null_answer_not_stored :
  let E := sample_env (lit "null") ParsedNull in
  let w' := snd (handleMessage E (text_message 5 "coffee 3")
                   (start keyed_db 0)) in
  db w' = keyed_db
  /\ log w'
     = [EvSendChatAction 5 (lit "typing");
        EvGenerateText (text_prompt (Some (lit "coffee 3"))) (lit "KEY")
          (Ok (lit "null"));
        EvSendMessage 5
          (ReplyTextFailed
             (lit "Cannot read properties of null (reading 'error')"))].
Proof. split; reflexivity. Qed.

(** The model answers an object without [items], as it may on the text
    path, whose prompt names no field: the loop over the items throws,
    the receipt row is rolled back and the failure is reported. *)
Example answer_without_items_not_stored :
  let a :=
    {| a_store_name := None; a_date := None; a_time := None;
       a_items_array := None; a_subtotal := None; a_tax := None;
       a_total_amount := Some 3; a_currency := None;
       a_payment_method := None; a_error := JNull |} in
  let E := sample_env (lit "{}") (Parsed a) in
  let w' := snd (handleMessage E (text_message 5 "coffee 3")
                   (start keyed_db 0)) in
  db w' = keyed_db
  /\ log w'
     = [EvSendChatAction 5 (lit "typing");
        EvGenerateText (text_prompt (Some (lit "coffee 3"))) (lit "KEY")
          (Ok (lit "{}"));
        EvSendMessage 5
          (ReplyTextFailed (lit "analysisResult.items is not iterable"))].
Proof. split; reflexivity. Qed.

(** ** A first message without credential *)

(** Witness of C3: a photo from a registered chat that has set no key. *)
Lemma no_credential_no_analysis_witness :
  let msg := photo_message 5 in
  let w' := snd (handlePhoto plain_env msg (start registered_db 0)) in
  no_credential registered_db (of_Z 5)
  /\ db w' = registered_db
  /\ log w' = [EvSendMessage 5 ReplySetKeyFirst].
Proof.
  cbv zeta. split; [reflexivity|].
  pose proof (proj1 (no_credential_no_analysis plain_env)
                (photo_message 5) registered_db 0%nat) as H.
  cbv zeta in H.
  destruct (handlePhoto plain_env (photo_message 5)
              (start registered_db 0)) as [r w'].
  destruct H as [H _].
  destruct (H eq_refl) as (_ & _ & Hrun).
  cbn [snd]. exact Hrun.
Defined.

(** Counterexample to C3 as first stated: a photo from a chat that has no
    session is answered with the prompt, but an account and a session row
    have been written. *)
Lemma photo_from_new_chat_provisions :
  let msg := photo_message 5 in
  let w' := snd (handleMessage plain_env msg (start empty_db 0)) in
  no_credential empty_db (of_Z 5)
  /\ log w' = [EvSendMessage 5 ReplySetKeyFirst]
  /\ users empty_db = []
  /\ List.map u_email (users (db w')) = [lit "tg_5@telegram.local"]
  /\ List.map chat_id (telegram_users (db w')) = [lit "5"]
  /\ db w' <> empty_db.
Proof.
  cbv zeta. split; [exact I|]. split; [reflexivity|].
  split; [reflexivity|]. split; [reflexivity|]. split; [reflexivity|].
  intros H. apply (f_equal (fun d => List.length (users d))) in H.
  vm_compute in H. discriminate.
Qed.

(** ** Statistics *)

(** Witness of C6: two receipts of 110 each, under the sample
    arithmetic. *)
Lemma stats_of_linked_receipts_witness :
  linked_totals (db two_receipts_world) sample_account
  = [Some 110; Some 110]
  /\ exact_on_whole_numbers plain_env
  /\ exists st,
       getUserReceiptStats plain_env sample_account
         (start (db two_receipts_world) 0)
       = (Ok st, start (db two_receipts_world) 0)
       /\ totalReceipts st = 2%nat
       /\ totalAmount st == 220
       /\ averageAmount st == 110.
Proof.
  split; [reflexivity|]. split; [apply sample_exact|].
  destruct (stats_of_linked_receipts plain_env sample_account
              (start (db two_receipts_world) 0))
    as (st & Hrun & Hcount & _ & _ & _ & _ & _ & Hexact & _).
  exists st. split; [exact Hrun|].
  split; [rewrite Hcount; reflexivity|].
  destruct (Hexact (sample_exact _ _)) as [Htotal Hmean].
  - repeat constructor; exists 110%Z; reflexivity.
  - vm_compute. discriminate.
  - vm_compute. discriminate.
  - split; [rewrite Htotal; reflexivity|].
    apply (Hmean 110%Z); [discriminate | reflexivity].
Defined.

(** Counterexample to C6 as first stated: of two linked receipts one has
    no total; the count is 2 and the total 110, but the mean is 110 and
    not 55.  The amounts are whole, so no rounding is involved. *)
Lemma mean_ignores_missing_totals :
  let st := select_user_receipt_stats plain_env (db missing_total_world)
              sample_account in
  linked_totals (db missing_total_world) sample_account = [None; Some 110]
  /\ getUserReceiptStats plain_env sample_account
       (start (db missing_total_world) 0)
     = (Ok st, start (db missing_total_world) 0)
  /\ totalReceipts st = 2%nat
  /\ totalAmount st == 110
  /\ averageAmount st == 110
  /\ ~ averageAmount st
       == totalAmount st / inject_Z (Z.of_nat (totalReceipts st)).
Proof.
  cbv zeta. repeat (split; [reflexivity|]). vm_compute. discriminate.
Qed.

(** Totals of 110 and 220: count 2, total 330, mean 165. *)
Example stats_of_110_and_220 :
  let st := select_user_receipt_stats plain_env (db wholes_world)
              sample_account in
  linked_totals (db wholes_world) sample_account = [Some 220; Some 110]
  /\ getUserReceiptStats plain_env sample_account
       (start (db wholes_world) 0)
     = (Ok st, start (db wholes_world) 0)
  /\ totalReceipts st = 2%nat
  /\ totalAmount st == 330
  /\ averageAmount st == 165.
Proof. cbv zeta. repeat split; reflexivity. Qed.

(** Amounts in cents: the two totals are the doubles nearest to 0.1 and
    to 0.2, the total returned is 0.30000000000000004 and the mean
    0.15000000000000002, and the total is not the sum of the two. *)
Example cents_are_rounded :
  let st := select_user_receipt_stats plain_env (db cents_world)
              sample_account in
  let tenth := nearest_double (1 # 10) in
  let fifth := nearest_double (2 # 10) in
  linked_totals (db cents_world) sample_account = [Some fifth; Some tenth]
  /\ tenth == 3602879701896397 # 36028797018963968
  /\ fifth == 3602879701896397 # 18014398509481984
  /\ totalReceipts st = 2%nat
  /\ totalAmount st == 1351079888211149 # 4503599627370496
  /\ averageAmount st == 1351079888211149 # 9007199254740992
  /\ ~ totalAmount st == tenth + fifth.
Proof.
  cbv zeta. repeat (split; [reflexivity|]). vm_compute. discriminate.
Qed.

(** ** [/history] on twelve receipts *)

(** Witness of C7: twelve receipts, ten lines. *)
Lemma history_shows_ten_most_recent_witness :
  let msg := text_message 5 "/history" in
  let d := db twelve_receipts_world in
  startsWith (text_of msg) (lit "/history") = true
  /\ select_telegram_user d (of_Z 5) = Some sample_session
  /\ List.length (select_user_receipts d (user_id sample_session)) = 12%nat
  /\ exists lines,
       log (snd (handleMessage plain_env msg (start d 0)))
       = [EvSendMessage 5 (ReplyHistory 10 lines)]
       /\ List.map h_short_id lines = repeat (lit "abcdef12") 10.
Proof.
  cbv zeta. split; [reflexivity|]. split; [reflexivity|].
  split; [reflexivity|].
  pose proof (@history_shows_ten_most_recent plain_env
                (text_message 5 "/history") (db twelve_receipts_world)
                0%nat sample_session eq_refl eq_refl) as H.
  cbv zeta in H.
  destruct (handleMessage plain_env (text_message 5 "/history")
              (start (db twelve_receipts_world) 0)) as [r w'].
  destruct H as (_ & _ & Hlog & _ & _ & H12 & _).
  cbn [snd]. rewrite Hlog by (vm_compute; discriminate).
  rewrite H12 by reflexivity.
  eexists. split; reflexivity.
Defined.

(** ** [/receipt] with upper-case digits *)

(** C8, at a failing input.  The account of chat 5 lists one receipt,
    whose id starts with [abcdef12].  The pattern of [/receipt] accepts the
    upper-case digits of [/receipt_ABCDEF12] and extracts [ABCDEF12], but
    the scan compares with [startsWith], which is case-sensitive: the reply
    is not-found, while the same digits in lower case find the receipt. *)
Theorem uppercase_prefix_finds_nothing :
  let d := db one_receipt_world in
  let upper := text_message 5 "/receipt_ABCDEF12" in
  let lower := text_message 5 "/receipt_abcdef12" in
  select_telegram_user d (of_Z 5) = Some sample_session
  /\ listed_ids d = [lit "abcdef12-0000-4000-8000-9"]
  /\ receiptMatch (text_of upper) = Some (lit "ABCDEF12")
  /\ receiptMatch (text_of lower) = Some (lit "abcdef12")
  /\ log (snd (handleMessage plain_env upper (start d 0)))
     = [EvSendMessage 5 ReplyReceiptNotFound]
  /\ log (snd (handleMessage plain_env lower (start d 0)))
     <> [EvSendMessage 5 ReplyReceiptNotFound].
Proof.
  cbv zeta. repeat (split; [reflexivity|]). vm_compute. discriminate.
Qed.

(** ** [/delete] *)

(** Witness of C9: the only receipt is deleted and then looked up. *)
Lemma delete_removes_link_and_receipt_witness :
  let d := db one_receipt_world in
  let msg := text_message 5 "/delete abcdef12" in
  let lookup := text_message 5 "/receipt_abcdef12" in
  startsWith (text_of msg) (lit "/delete") = true
  /\ select_telegram_user d (of_Z 5) = Some sample_session
  /\ nth_error (split_ws (text_of msg)) 1 = Some (lit "abcdef12")
  /\ listed_ids d = [lit "abcdef12-0000-4000-8000-9"]
  /\ let '(_, w') := handleMessage plain_env msg (start d 0) in
     log w' = [EvSendMessage 5 (ReplyDeleted (lit "abcdef12"))]
     /\ receipts (db w') = []
     /\ user_receipts (db w') = []
     /\ log (snd (handleMessage plain_env lookup (start (db w') 0)))
        = [EvSendMessage 5 ReplyReceiptNotFound].
Proof.
  cbv zeta. do 4 (split; [reflexivity|]).
  destruct (find (fun r => startsWith (r_id (receipt r)) (lit "abcdef12"))
              (select_user_receipts (db one_receipt_world)
                 (user_id sample_session))) as [m|] eqn:Hfind;
    [|vm_compute in Hfind; discriminate Hfind].
  pose proof (@delete_removes_link_and_receipt plain_env
                (text_message 5 "/delete abcdef12") (db one_receipt_world)
                0%nat sample_session (lit "abcdef12") m
                eq_refl eq_refl eq_refl Hfind) as H.
  cbv zeta in H.
  destruct (handleMessage plain_env (text_message 5 "/delete abcdef12")
              (start (db one_receipt_world) 0)) as [r w'].
  destruct H as (Hdb & Hlog & _ & _ & Hlookup).
  vm_compute in Hfind. injection Hfind as <-.
  split; [rewrite Hlog; reflexivity|].
  split; [rewrite Hdb; reflexivity|].
  split; [rewrite Hdb; reflexivity|].
  specialize (Hlookup (text_message 5 "/receipt_abcdef12") 0%nat
                eq_refl eq_refl).
  cbv zeta in Hlookup.
  destruct (handleMessage plain_env (text_message 5 "/receipt_abcdef12")
              (start (db w') 0)) as [r2 w2].
  destruct Hlookup as (_ & Hlog2 & _).
  cbn [snd]. rewrite Hlog2. reflexivity.
Defined.

(** Counterexample to C9 as first stated: the ids of two listed receipts
    both start with [a]; after [/delete a] has removed the newer one, the
    lookup [/receipt_a] with the same prefix finds the older one. *)
Lemma shared_prefix_still_found :
  let d := db two_receipts_world in
  let msg := text_message 5 "/delete a" in
  let lookup := text_message 5 "/receipt_a" in
  let w1 := snd (handleMessage plain_env msg (start d 0)) in
  let w2 := snd (handleMessage plain_env lookup (start (db w1) 0)) in
  select_telegram_user d (of_Z 5) = Some sample_session
  /\ listed_ids d
     = [lit "abcdef12-0000-4000-8000-16"; lit "abcdef12-0000-4000-8000-9"]
  /\ nth_error (split_ws (text_of msg)) 1 = Some (lit "a")
  /\ receiptMatch (text_of lookup) = Some (lit "a")
  /\ log w1 = [EvSendMessage 5 (ReplyDeleted (lit "abcdef12"))]
  /\ listed_ids (db w1) = [lit "abcdef12-0000-4000-8000-9"]
  /\ log w2 <> [EvSendMessage 5 ReplyReceiptNotFound].
Proof.
  cbv zeta. repeat (split; [reflexivity|]). vm_compute. discriminate.
Qed.

(** Witness of C10: [/delete] and a blank, with two receipts listed. *)
Lemma delete_with_blank_argument_witness :
  let d := db two_receipts_world in
  let msg := text_message 5 "/delete " in
  text_of msg = lit "/delete" ++ lit " "
  /\ select_telegram_user d (of_Z 5) = Some sample_session
  /\ listed_ids d
     = [lit "abcdef12-0000-4000-8000-16"; lit "abcdef12-0000-4000-8000-9"]
  /\ let '(_, w') := handleMessage plain_env msg (start d 0) in
     log w' = [EvSendMessage 5 (ReplyDeleted (lit "abcdef12"))]
     /\ listed_ids (db w') = [lit "abcdef12-0000-4000-8000-9"].
Proof.
  cbv zeta. do 3 (split; [reflexivity|]).
  destruct (select_user_receipts (db two_receipts_world)
              (user_id sample_session)) as [|newest older] eqn:Hlist;
    [discriminate Hlist|].
  pose proof (@delete_with_blank_argument plain_env
                (text_message 5 "/delete ") (db two_receipts_world) 0%nat
                sample_session (lit " ") newest older eq_refl
                ltac:(discriminate) eq_refl eq_refl Hlist) as H.
  cbv zeta in H. destruct H as [_ H].
  destruct (handleMessage plain_env (text_message 5 "/delete ")
              (start (db two_receipts_world) 0)) as [r w'].
  destruct H as (Hdb & Hlog).
  vm_compute in Hlist. injection Hlist as <- <-.
  split; [rewrite Hlog; reflexivity|].
  rewrite Hdb. reflexivity.
Defined.


(** * More properties *)

(** ** The constraints of the schema are kept *)

Lemma existsb_false_not_in_map {A} (key : A -> jsstring) (k : jsstring)
  (l : list A) :
  existsb (fun x => key x =? k) l = false -> ~ In k (List.map key l).
Proof.
  intros Hex Hin. apply in_map_iff in Hin. destruct Hin as (x & Hk & Hx).
  assert (Ht : existsb (fun x => key x =? k) l = true).
  { apply existsb_exists. exists x. split; [exact Hx|].
    rewrite Hk. apply jseqb_refl. }
  congruence.
Qed.

Lemma existsb_true_in {A} (key : A -> jsstring) (k : jsstring)
  (l : list A) :
  existsb (fun x => key x =? k) l = true -> exists x, In x l /\ key x = k.
Proof.
  intros Hex. apply existsb_exists in Hex. destruct Hex as (x & Hx & Hk).
  exists x. split; [exact Hx|]. apply jseqb_eq. exact Hk.
Qed.

Lemma unique_key_snoc {A K} (key : A -> K) (l : list A) (x : A) :
  unique_key key l -> ~ In (key x) (List.map key l) ->
  unique_key key (l ++ [x]).
Proof.
  unfold unique_key. intros Hl Hx. rewrite map_app. simpl.
  apply NoDup_app; [exact Hl | repeat constructor; intros [] |].
  intros k Hk [<-|[]]. contradiction.
Qed.

Lemma unique_key_filter {A K} (key : A -> K) (p : A -> bool) (l : list A) :
  unique_key key l -> unique_key key (filter p l).
Proof.
  unfold unique_key. induction l as [|x l IH]; simpl; intros H; [exact H|].
  inversion H as [|? ? Hx Hl]; subst.
  destruct (p x); simpl; [|apply IH; exact Hl].
  constructor; [|apply IH; exact Hl].
  intros Hin. apply Hx. apply in_map_iff in Hin.
  destruct Hin as (y & Hy & Hin). apply filter_In in Hin.
  apply in_map_iff. exists y. tauto.
Qed.

Lemma unique_key_map_same {A K} (key : A -> K) (f : A -> A) (l : list A) :
  (forall x, key (f x) = key x) ->
  unique_key key l -> unique_key key (List.map f l).
Proof.
  unfold unique_key. intros Hf H. rewrite map_map.
  rewrite (map_ext _ key) by exact Hf. exact H.
Qed.

Lemma references_snoc_rows {A B} (col : A -> jsstring) (rows : list A)
  (key : B -> jsstring) (targets : list B) (x : A) :
  references col rows key targets ->
  (exists y, In y targets /\ key y = col x) ->
  references col (rows ++ [x]) key targets.
Proof.
  intros H Hx z Hz. apply in_app_or in Hz.
  destruct Hz as [Hz|[<-|[]]]; auto.
Qed.

Lemma references_snoc_targets {A B} (col : A -> jsstring) (rows : list A)
  (key : B -> jsstring) (targets : list B) (y : B) :
  references col rows key targets ->
  references col rows key (targets ++ [y]).
Proof.
  intros H x Hx. destruct (H x Hx) as (z & Hz & Hk).
  exists z. split; [apply in_or_app; left; exact Hz | exact Hk].
Qed.

Lemma references_filter_rows {A B} (col : A -> jsstring) (rows : list A)
  (key : B -> jsstring) (targets : list B) (p : A -> bool) :
  references col rows key targets ->
  references col (filter p rows) key targets.
Proof.
  intros H x Hx. apply filter_In in Hx. apply H. apply Hx.
Qed.

(** Deleting the targets with key [k] together with the rows that
    reference [k]. *)
Lemma references_cascade {A B} (col : A -> jsstring) (rows : list A)
  (key : B -> jsstring) (targets : list B) (k : jsstring) :
  references col rows key targets ->
  references col (filter (fun x => negb (col x =? k)) rows)
    key (filter (fun y => negb (key y =? k)) targets).
Proof.
  intros H x Hx. apply filter_In in Hx. destruct Hx as [Hx Hk].
  destruct (H x Hx) as (y & Hy & Hyk).
  exists y. split; [|exact Hyk].
  apply filter_In. split; [exact Hy|]. rewrite Hyk. exact Hk.
Qed.

Lemma references_map_same {A B} (col : A -> jsstring) (rows : list A)
  (key : B -> jsstring) (targets : list B) (f : A -> A) :
  (forall x, col (f x) = col x) ->
  references col rows key targets ->
  references col (List.map f rows) key targets.
Proof.
  intros Hf H x Hx. apply in_map_iff in Hx. destruct Hx as (z & <- & Hz).
  rewrite Hf. apply H. exact Hz.
Qed.

Lemma empty_db_ok : db_ok empty_db.
Proof.
  constructor; try (unfold unique_key; simpl; constructor);
    intros x [].
Qed.

Lemma db_ok_add_user (d : DB) (u : UserRow) :
  db_ok d ->
  existsb (fun x => u_id x =? u_id u) (users d) = false ->
  existsb (fun x => u_email x =? u_email u) (users d) = false ->
  db_ok (with_users d (users d ++ [u])).
Proof.
  intros [] Hid Hemail. constructor; simpl; auto.
  - apply unique_key_snoc; [assumption|].
    apply existsb_false_not_in_map. exact Hid.
  - apply unique_key_snoc; [assumption|].
    apply existsb_false_not_in_map. exact Hemail.
  - apply references_snoc_targets. assumption.
  - apply references_snoc_targets. assumption.
Qed.

Lemma db_ok_add_session (d : DB) (t : TelegramUser) :
  db_ok d ->
  existsb (fun x => chat_id x =? chat_id t) (telegram_users d) = false ->
  existsb (fun u => u_id u =? user_id t) (users d) = true ->
  db_ok (with_telegram_users d (telegram_users d ++ [t])).
Proof.
  intros [] Hchat Huser. constructor; simpl; auto.
  - apply unique_key_snoc; [assumption|].
    apply existsb_false_not_in_map. exact Hchat.
  - apply references_snoc_rows; [assumption|].
    apply existsb_true_in. exact Huser.
Qed.

Lemma db_ok_add_receipt (d : DB) (r : ReceiptRow) :
  db_ok d ->
  existsb (fun x => row_id x =? row_id r) (receipts d) = false ->
  db_ok (with_receipts d (receipts d ++ [r])).
Proof.
  intros [] Hid. constructor; simpl; auto.
  - apply unique_key_snoc; [assumption|].
    apply existsb_false_not_in_map. exact Hid.
  - apply references_snoc_targets. assumption.
  - apply references_snoc_targets. assumption.
Qed.

Lemma db_ok_add_item (d : DB) (i : ReceiptItemRow) :
  db_ok d ->
  existsb (fun x => ri_id x =? ri_id i) (receipt_items d) = false ->
  existsb (fun r => row_id r =? ri_receipt_id i) (receipts d) = true ->
  db_ok (with_receipt_items d (receipt_items d ++ [i])).
Proof.
  intros [] Hid Hfk. constructor; simpl; auto.
  - apply unique_key_snoc; [assumption|].
    apply existsb_false_not_in_map. exact Hid.
  - apply references_snoc_rows; [assumption|].
    apply existsb_true_in. exact Hfk.
Qed.

Lemma db_ok_add_link (d : DB) (ur : UserReceipt) :
  db_ok d ->
  existsb (fun x => ur_id x =? ur_id ur) (user_receipts d) = false ->
  existsb
    (fun x => (ur_user_id x =? ur_user_id ur)
              && (ur_receipt_id x =? ur_receipt_id ur))
    (user_receipts d) = false ->
  existsb (fun u => u_id u =? ur_user_id ur) (users d) = true ->
  existsb (fun r => row_id r =? ur_receipt_id ur) (receipts d) = true ->
  db_ok (with_user_receipts d (user_receipts d ++ [ur])).
Proof.
  intros [] Hid Hpair Huser Hreceipt. constructor; simpl; auto.
  - apply unique_key_snoc; [assumption|].
    apply existsb_false_not_in_map. exact Hid.
  - apply unique_key_snoc; [assumption|].
    intros Hin. apply in_map_iff in Hin. destruct Hin as (x & Hk & Hx).
    injection Hk as Hu Hr.
    assert (Ht : existsb
                   (fun x => (ur_user_id x =? ur_user_id ur)
                             && (ur_receipt_id x =? ur_receipt_id ur))
                   (user_receipts d) = true).
    { apply existsb_exists. exists x. split; [exact Hx|].
      rewrite Hu, Hr, !jseqb_refl. reflexivity. }
    congruence.
  - apply references_snoc_rows; [assumption|].
    apply existsb_true_in. exact Huser.
  - apply references_snoc_rows; [assumption|].
    apply existsb_true_in. exact Hreceipt.
Qed.

Lemma db_ok_delete_link (d : DB) (userId receiptId : jsstring) :
  db_ok d -> db_ok (delete_link_rows d userId receiptId).
Proof.
  intros []. constructor; simpl; auto.
  - apply unique_key_filter. assumption.
  - apply unique_key_filter. assumption.
  - apply references_filter_rows. assumption.
  - apply references_filter_rows. assumption.
Qed.

Lemma db_ok_delete_receipt (d : DB) (id : jsstring) :
  db_ok d -> db_ok (delete_receipt_rows d id).
Proof.
  intros Hok. unfold delete_receipt_rows.
  destruct (existsb (fun r => row_id r =? id) (receipts d)); [|exact Hok].
  destruct Hok. constructor; simpl; auto.
  - apply unique_key_filter. assumption.
  - apply unique_key_filter. assumption.
  - apply references_cascade. assumption.
  - apply unique_key_filter. assumption.
  - apply unique_key_filter. assumption.
  - apply references_filter_rows. assumption.
  - apply references_cascade. assumption.
Qed.

Lemma db_ok_update_api_key (d : DB) (chatId apiKey : jsstring) :
  db_ok d -> db_ok (update_api_key d chatId apiKey).
Proof.
  intros []. constructor; simpl; auto.
  - apply unique_key_map_same; [|assumption].
    intros t. destruct (chat_id t =? chatId); reflexivity.
  - apply references_map_same; [|assumption].
    intros t. destruct (chat_id t =? chatId); reflexivity.
Qed.

Lemma db_ok_update_notes (d : DB) (userId receiptId notes : jsstring) :
  db_ok d -> db_ok (update_notes_rows d userId receiptId notes).
Proof.
  intros []. constructor; simpl; auto.
  - apply unique_key_map_same; [|assumption].
    intros ur.
    destruct ((ur_user_id ur =? userId) && (ur_receipt_id ur =? receiptId));
      reflexivity.
  - apply unique_key_map_same; [|assumption].
    intros ur.
    destruct ((ur_user_id ur =? userId) && (ur_receipt_id ur =? receiptId));
      reflexivity.
  - apply references_map_same; [|assumption].
    intros ur.
    destruct ((ur_user_id ur =? userId) && (ur_receipt_id ur =? receiptId));
      reflexivity.
  - apply references_map_same; [|assumption].
    intros ur.
    destruct ((ur_user_id ur =? userId) && (ur_receipt_id ur =? receiptId));
      reflexivity.
Qed.

(** The combinators of the monad. *)

Lemma keeps_ret {A} (a : A) : keeps_db_ok (ret a).
Proof. intros w H. exact H. Qed.

Lemma keeps_throw {A} (m : jsstring) : keeps_db_ok (@throw A m).
Proof. intros w H. exact H. Qed.

Lemma keeps_draw {A} (f : nat -> A) : keeps_db_ok (draw f).
Proof. intros w H. exact H. Qed.

Lemma keeps_call {A} (f : nat -> result A) (ev : result A -> event) :
  keeps_db_ok (call f ev).
Proof. intros w H. exact H. Qed.

Lemma keeps_get_db : keeps_db_ok get_db.
Proof. intros w H. exact H. Qed.

Lemma keeps_bind {A B} (c : M A) (k : A -> M B) :
  keeps_db_ok c -> (forall a, keeps_db_ok (k a)) -> keeps_db_ok (bind c k).
Proof.
  intros Hc Hk w Hw. unfold bind. specialize (Hc w Hw).
  destruct (c w) as [[a|m] w1]; simpl in *; [apply Hk|]; exact Hc.
Qed.

Lemma keeps_try_catch {A} (c : M A) (h : jsstring -> M A) :
  keeps_db_ok c -> (forall m, keeps_db_ok (h m)) ->
  keeps_db_ok (try_catch c h).
Proof.
  intros Hc Hh w Hw. unfold try_catch. specialize (Hc w Hw).
  destruct (c w) as [[a|m] w1]; simpl in *; [|apply Hh]; exact Hc.
Qed.

Lemma keeps_transaction {A} (c : M A) :
  keeps_db_ok c -> keeps_db_ok (transaction c).
Proof.
  intros Hc w Hw. unfold transaction. specialize (Hc w Hw).
  destruct (c w) as [[a|m] w1]; simpl in *; [exact Hc | exact Hw].
Qed.

Lemma keeps_for_of {A} (l : list A) (body : A -> M unit) :
  (forall a, keeps_db_ok (body a)) -> keeps_db_ok (for_of l body).
Proof.
  intros Hb. induction l as [|x l IH]; simpl.
  - apply keeps_ret.
  - apply keeps_bind; auto.
Qed.

(** A statement that reads the tables and then writes or throws. *)
Lemma keeps_statement {A} (f : DB -> M A) :
  (forall d, db_ok d -> forall w, db w = d -> db_ok (db (snd (f d w)))) ->
  keeps_db_ok (bind get_db f).
Proof.
  intros H w Hw. unfold bind, get_db. simpl. apply (H (db w) Hw w eq_refl).
Qed.

Lemma keeps_insert_user (u : UserRow) : keeps_db_ok (insert_user u).
Proof.
  apply keeps_statement. intros d Hd w Hw.
  destruct (existsb (fun x => u_id x =? u_id u) (users d)) eqn:Hid;
    [simpl; congruence|].
  destruct (existsb (fun x => u_email x =? u_email u) (users d)) eqn:He;
    [simpl; congruence|].
  simpl. apply db_ok_add_user; assumption.
Qed.

Lemma keeps_insert_telegram_user (t : TelegramUser) :
  keeps_db_ok (insert_telegram_user t).
Proof.
  apply keeps_statement. intros d Hd w Hw.
  destruct (existsb (fun x => chat_id x =? chat_id t) (telegram_users d))
    eqn:Hc; [simpl; congruence|].
  destruct (existsb (fun u => u_id u =? user_id t) (users d)) eqn:Hu;
    simpl; [|congruence].
  apply db_ok_add_session; assumption.
Qed.

Lemma keeps_insert_receipt (r : ReceiptRow) : keeps_db_ok (insert_receipt r).
Proof.
  apply keeps_statement. intros d Hd w Hw.
  destruct (existsb (fun x => row_id x =? row_id r) (receipts d)) eqn:Hid;
    [simpl; congruence|].
  simpl. apply db_ok_add_receipt; assumption.
Qed.

Lemma keeps_insert_receipt_item (id receipt_id : jsstring)
  (name : option jsstring) (quantity unit_price total_price : option Q)
  (category : option jsstring) :
  keeps_db_ok
    (insert_receipt_item id receipt_id name quantity unit_price total_price
       category).
Proof.
  unfold insert_receipt_item.
  destruct (item_values _ _ _ _ _ _ _) as [column|i]; [apply keeps_throw|].
  apply keeps_statement. intros d Hd w Hw.
  destruct (existsb (fun x => ri_id x =? ri_id i) (receipt_items d)) eqn:Hid;
    [simpl; congruence|].
  destruct (existsb (fun r => row_id r =? ri_receipt_id i) (receipts d))
    eqn:Hfk; simpl; [|congruence].
  apply db_ok_add_item; assumption.
Qed.

Lemma keeps_insert_user_receipt (ur : UserReceipt) :
  keeps_db_ok (insert_user_receipt ur).
Proof.
  apply keeps_statement. intros d Hd w Hw.
  destruct (existsb (fun x => ur_id x =? ur_id ur) (user_receipts d)) eqn:Hid;
    [simpl; congruence|].
  destruct (existsb
              (fun x => (ur_user_id x =? ur_user_id ur)
                        && (ur_receipt_id x =? ur_receipt_id ur))
              (user_receipts d)) eqn:Hpair; [simpl; congruence|].
  destruct (existsb (fun u => u_id u =? ur_user_id ur) (users d)) eqn:Hu;
    [|simpl; congruence].
  destruct (existsb (fun r => row_id r =? ur_receipt_id ur) (receipts d))
    eqn:Hr; simpl; [|congruence].
  apply db_ok_add_link; assumption.
Qed.

Lemma keeps_update {A} (f : DB -> DB) (a : DB -> A) :
  (forall d, db_ok d -> db_ok (f d)) ->
  keeps_db_ok (d <- get_db ;; put_db (f d) ;;; ret (a d)).
Proof. intros H w Hw. simpl. apply H. exact Hw. Qed.

Lemma keeps_if {A} (b : bool) (c1 c2 : M A) :
  keeps_db_ok c1 -> keeps_db_ok c2 -> keeps_db_ok (if b then c1 else c2).
Proof. destruct b; auto. Qed.

Lemma keeps_non_null {A} (o : option A) : keeps_db_ok (non_null o).
Proof. destruct o; [apply keeps_ret | apply keeps_throw]. Qed.

Lemma keeps_iterable {A} (o : option A) : keeps_db_ok (iterable o).
Proof. destruct o; [apply keeps_ret | apply keeps_throw]. Qed.

Lemma keeps_null_has_no {A} (name : jsstring) :
  keeps_db_ok (@null_has_no A name).
Proof. apply keeps_throw. Qed.

Ltac keeps_step :=
  first
    [ apply keeps_ret | apply keeps_throw | apply keeps_draw
    | apply keeps_call | apply keeps_get_db | apply keeps_non_null
    | apply keeps_iterable | apply keeps_null_has_no
    | apply keeps_insert_user | apply keeps_insert_telegram_user
    | apply keeps_insert_receipt | apply keeps_insert_receipt_item
    | apply keeps_insert_user_receipt
    | apply keeps_transaction | apply keeps_for_of; intros
    | apply keeps_try_catch; [|intros]
    | apply keeps_bind; [|intros]
    | apply keeps_if
    | match goal with
      | |- keeps_db_ok (match ?x with _ => _ end) => destruct x
      end ].

Ltac keeps_tac := repeat keeps_step.

Section Keeps.

Variable E : env.

Lemma keeps_sendMessage (chatId : Z) (r : reply) :
  keeps_db_ok (sendMessage E chatId r).
Proof. apply keeps_call. Qed.

Lemma keeps_createUser (email password name : jsstring) :
  keeps_db_ok (createUser E email password name).
Proof. unfold createUser, randomUUID, hashPassword, toISOString_now. keeps_tac. Qed.

Lemma keeps_findTelegramUser (chatId : jsstring) :
  keeps_db_ok (findTelegramUser chatId).
Proof. unfold findTelegramUser. keeps_tac. Qed.

Lemma keeps_createTelegramUser (chatId name : jsstring) :
  keeps_db_ok (createTelegramUser E chatId name).
Proof.
  unfold createTelegramUser, randomUUID, toISOString_now.
  apply keeps_bind; [keeps_tac|intros].
  apply keeps_bind; [apply keeps_createUser|intros]. keeps_tac.
Qed.

Lemma keeps_getOrCreateTelegramUser (chatId name : jsstring) :
  keeps_db_ok (getOrCreateTelegramUser E chatId name).
Proof.
  unfold getOrCreateTelegramUser.
  apply keeps_bind; [apply keeps_findTelegramUser|intros [t|]].
  - apply keeps_ret.
  - apply keeps_createTelegramUser.
Qed.

Lemma keeps_setGoogleApiKey (chatId apiKey : jsstring) :
  keeps_db_ok (setGoogleApiKey chatId apiKey).
Proof.
  unfold setGoogleApiKey.
  apply (keeps_update (fun d => update_api_key d chatId apiKey)).
  intros d. apply db_ok_update_api_key.
Qed.

Lemma keeps_createReceipt (a : ReceiptAnalysisResult)
  (raw : option jsstring) : keeps_db_ok (createReceipt E a raw).
Proof. unfold createReceipt, randomUUID, toISOString_now. keeps_tac. Qed.

Lemma keeps_deleteReceipt (id : jsstring) : keeps_db_ok (deleteReceipt id).
Proof.
  unfold deleteReceipt.
  apply (keeps_update (fun d => delete_receipt_rows d id)).
  intros d. apply db_ok_delete_receipt.
Qed.

Lemma keeps_linkReceiptToUser (userId receiptId : jsstring)
  (notes : option jsstring) :
  keeps_db_ok (linkReceiptToUser E userId receiptId notes).
Proof. unfold linkReceiptToUser, randomUUID, toISOString_now. keeps_tac. Qed.

Lemma keeps_unlinkReceiptFromUser (userId receiptId : jsstring) :
  keeps_db_ok (unlinkReceiptFromUser userId receiptId).
Proof.
  unfold unlinkReceiptFromUser.
  apply (keeps_update (fun d => delete_link_rows d userId receiptId)).
  intros d. apply db_ok_delete_link.
Qed.

Lemma keeps_updateUserReceiptNotes (userId receiptId notes : jsstring) :
  keeps_db_ok (updateUserReceiptNotes userId receiptId notes).
Proof.
  unfold updateUserReceiptNotes.
  apply (keeps_update (fun d => update_notes_rows d userId receiptId notes)).
  intros d. apply db_ok_update_notes.
Qed.

Lemma keeps_getUserReceipts (userId : jsstring) :
  keeps_db_ok (getUserReceipts userId).
Proof. unfold getUserReceipts. keeps_tac. Qed.

Lemma keeps_createReceiptForUser (userId : jsstring)
  (a : ReceiptAnalysisResult) (notes raw : option jsstring) :
  keeps_db_ok (createReceiptForUser E userId a notes raw).
Proof.
  unfold createReceiptForUser.
  apply keeps_bind; [apply keeps_createReceipt|intros].
  apply keeps_bind; [apply keeps_linkReceiptToUser|intros]. apply keeps_ret.
Qed.

Ltac keeps_prog :=
  repeat first
    [ apply keeps_sendMessage | apply keeps_findTelegramUser
    | apply keeps_getOrCreateTelegramUser | apply keeps_setGoogleApiKey
    | apply keeps_deleteReceipt | apply keeps_unlinkReceiptFromUser
    | apply keeps_getUserReceipts | apply keeps_createReceiptForUser
    | keeps_step ].

Lemma keeps_handleStart (msg : TgMessage) : keeps_db_ok (handleStart E msg).
Proof. unfold handleStart. keeps_prog. Qed.

Lemma keeps_handleSetKey (msg : TgMessage) : keeps_db_ok (handleSetKey E msg).
Proof. unfold handleSetKey. keeps_prog. Qed.

Lemma keeps_handleStats (msg : TgMessage) : keeps_db_ok (handleStats E msg).
Proof. unfold handleStats, getUserReceiptStats. keeps_prog. Qed.

Lemma keeps_handleHistory (msg : TgMessage) :
  keeps_db_ok (handleHistory E msg).
Proof. unfold handleHistory. keeps_prog. Qed.

Lemma keeps_handleReceiptDetail (msg : TgMessage) (p : jsstring) :
  keeps_db_ok (handleReceiptDetail E msg p).
Proof. unfold handleReceiptDetail. keeps_prog. Qed.

Lemma keeps_handleDelete (msg : TgMessage) : keeps_db_ok (handleDelete E msg).
Proof. unfold handleDelete. keeps_prog. Qed.

Lemma keeps_handlePhoto (msg : TgMessage) : keeps_db_ok (handlePhoto E msg).
Proof.
  unfold handlePhoto, largest_photo, sendChatAction, getFile,
    downloadFileBuffer, analyzeReceiptImage.
  keeps_prog.
Qed.

Lemma keeps_handleTextReceipt (msg : TgMessage) :
  keeps_db_ok (handleTextReceipt E msg).
Proof.
  unfold handleTextReceipt, sendChatAction, generateContent_text.
  keeps_prog.
Qed.

Lemma keeps_handleMessage (msg : TgMessage) :
  keeps_db_ok (handleMessage E msg).
Proof.
  unfold handleMessage, handleHelp.
  repeat (apply keeps_if;
          [first [ apply keeps_handleStart | apply keeps_handleSetKey
                 | apply keeps_handleStats | apply keeps_handleHistory
                 | apply keeps_handleDelete | apply keeps_sendMessage ]|]).
  destruct (receiptMatch (text_of msg)).
  - apply keeps_handleReceiptDetail.
  - repeat apply keeps_if.
    + apply keeps_handlePhoto.
    + apply keeps_handleTextReceipt.
    + apply keeps_sendMessage.
    + apply keeps_ret.
Qed.

End Keeps.

(** X1.  The constraints of the schema survive every inbound message:
    whatever the message, whatever the transport, the model, the clock and
    the random source answer, and whether the handler returns or throws,
    the tables it leaves satisfy PRIMARY KEY, UNIQUE and FOREIGN KEY when
    the tables it found did. *)
Theorem handleMessage_keeps_constraints (E : env) (msg : TgMessage)
  (w : world) :
  db_ok (db w) -> db_ok (db (snd (handleMessage E msg w))).
Proof. apply keeps_handleMessage. Qed.

(** ** The constraints as a test on the tables *)

Lemma distinct_NoDup (l : list jsstring) : distinct l = true -> NoDup l.
Proof.
  induction l as [|x r IH]; simpl; intros H; [constructor|].
  apply andb_true_iff in H. destruct H as [Hx Hr].
  constructor; [|auto].
  intros Hin. apply negb_true_iff in Hx.
  assert (Ht : existsb (fun y => y =? x) r = true).
  { apply existsb_exists. exists x. split; [exact Hin | apply jseqb_refl]. }
  congruence.
Qed.

Lemma distinct_pairs_NoDup (l : list (jsstring * jsstring)) :
  distinct_pairs l = true -> NoDup l.
Proof.
  induction l as [|x r IH]; simpl; intros H; [constructor|].
  apply andb_true_iff in H. destruct H as [Hx Hr].
  constructor; [|auto].
  intros Hin. apply negb_true_iff in Hx.
  assert (Ht : existsb (fun y => (fst y =? fst x) && (snd y =? snd x)) r
               = true).
  { apply existsb_exists. exists x. split; [exact Hin|].
    rewrite !jseqb_refl. reflexivity. }
  congruence.
Qed.

Lemma refers_references {A B} (col : A -> jsstring) (rows : list A)
  (key : B -> jsstring) (targets : list B) :
  refers col rows key targets = true -> references col rows key targets.
Proof.
  unfold refers, references. intros H x Hx.
  rewrite forallb_forall in H. specialize (H x Hx).
  apply existsb_exists in H. destruct H as (y & Hy & He).
  exists y. split; [exact Hy|]. apply jseqb_eq. exact He.
Qed.

Lemma check_db_ok (d : DB) : check_db d = true -> db_ok d.
Proof.
  unfold check_db. intros H.
  repeat (apply andb_true_iff in H; let H' := fresh "H" in destruct H as [H H']).
  constructor; unfold unique_key;
    auto using distinct_NoDup, distinct_pairs_NoDup, refers_references.
Qed.

(** ** [createReceipt] *)

Lemma existsb_map {A B} (f : B -> bool) (g : A -> B) (l : list A) :
  existsb f (List.map g l) = existsb (fun x => f (g x)) l.
Proof. induction l as [|x l IH]; simpl; [reflexivity|]. now rewrite IH. Qed.

Lemma item_rows_cons (E : env) (id : jsstring) (t : nat) (x : ReceiptItem)
  (l : list ReceiptItem) :
  item_rows E id t (x :: l)
  = match item_row id (crypto_randomUUID E t) x with
    | Some row => [row]
    | None => []
    end ++ item_rows E id (S t) l.
Proof. reflexivity. Qed.

(** An item has a row when its NOT NULL columns are present. *)
Lemma item_values_storable (id receiptId : jsstring) (x : ReceiptItem) :
  match
    item_values id receiptId (item_name x) (item_quantity x)
      (item_unit_price x) (item_total_price x) (item_category x)
  with
  | inr row => storable x = true /\ item_row receiptId id x = Some row
               /\ ri_id row = id /\ ri_receipt_id row = receiptId
  | inl _ => storable x = false
  end.
Proof.
  unfold item_row, storable, item_values.
  destruct (item_name x), (item_quantity x), (item_unit_price x),
    (item_total_price x); auto.
Qed.

Lemma bind_run {A B} (c : M A) (k : A -> M B) (w : world) :
  bind c k w
  = match c w with
    | (Ok a, w') => k a w'
    | (Throw e, w') => (Throw e, w')
    end.
Proof. reflexivity. Qed.

Lemma for_of_cons {A} (x : A) (l : list A) (body : A -> M unit) (w : world) :
  for_of (x :: l) body w
  = match body x w with
    | (Ok _, w') => for_of l body w'
    | (Throw e, w') => (Throw e, w')
    end.
Proof. reflexivity. Qed.

(** One turn of the loop of [createReceipt]. *)
Lemma insert_item_step (E : env) (id : jsstring) (x : ReceiptItem)
  (w : world) :
  existsb (fun r => row_id r =? id) (receipts (db w)) = true ->
  let w1 := {| db := db w; tick := S (tick w); log := log w |} in
  let itemId := crypto_randomUUID E (tick w) in
  if storable x
     && negb (existsb (fun i => ri_id i =? itemId) (receipt_items (db w)))
  then
    insert_item E id x w
    = (Ok tt,
       {| db := with_receipt_items (db w)
                  (receipt_items (db w) ++ item_rows E id (tick w) [x]);
          tick := S (tick w); log := log w |})
  else exists m, insert_item E id x w = (Throw m, w1).
Proof.
  intros Hfk. cbv zeta.
  unfold insert_item, randomUUID. rewrite bind_run.
  change (draw (crypto_randomUUID E) w)
    with (Ok (crypto_randomUUID E (tick w)),
          {| db := db w; tick := S (tick w); log := log w |}).
  cbv iota beta. unfold insert_receipt_item.
  rewrite item_rows_cons.
  pose proof (item_values_storable (crypto_randomUUID E (tick w)) id x) as Hv.
  destruct (item_values _ _ _ _ _ _ _) as [column|row].
  - rewrite Hv. cbn [andb]. unfold throw. eexists. reflexivity.
  - destruct Hv as (-> & -> & Hid & Hrid). cbn [andb].
    unfold get_db, bind, throw, put_db. cbn [db tick log].
    rewrite Hid, Hrid, Hfk.
    destruct (existsb _ (receipt_items (db w))); cbn [negb].
    + eexists. reflexivity.
    + rewrite app_nil_r. reflexivity.
Qed.

(** The loop of [createReceipt], once the receipt row is in. *)
Lemma for_of_items (E : env) (id : jsstring) (l : list ReceiptItem) :
  forall w,
    existsb (fun r => row_id r =? id) (receipts (db w)) = true ->
    if forallb storable l
       && fresh_ids (List.map ri_id (receipt_items (db w)))
            (item_ids E (tick w) l)
    then
      for_of l (insert_item E id) w
      = (Ok tt,
         {| db := with_receipt_items (db w)
                    (receipt_items (db w) ++ item_rows E id (tick w) l);
            tick := tick w + List.length l;
            log := log w |})
      /\ List.length (item_rows E id (tick w) l) = List.length l
    else
      exists m w',
        for_of l (insert_item E id) w = (Throw m, w')
        /\ log w' = log w.
Proof.
  induction l as [|x l IH]; intros w Hfk.
  - simpl. destruct w as [d t lg]. destruct d. unfold ret, with_receipt_items.
    simpl. rewrite app_nil_r, Nat.add_0_r. split; reflexivity.
  - unfold item_ids. cbn [List.length seq List.map fresh_ids forallb].
    rewrite existsb_map, for_of_cons.
    pose proof (@insert_item_step E id x w Hfk) as Hstep. cbv zeta in Hstep.
    destruct (storable x) eqn:Hst; cbn [andb] in *.
    2:{ destruct Hstep as (m & ->). eexists _, _. split; reflexivity. }
    destruct (existsb (fun i => ri_id i =? crypto_randomUUID E (tick w))
                (receipt_items (db w))) eqn:Hid; cbn [negb andb] in *.
    { rewrite andb_false_r.
      destruct Hstep as (m & ->). eexists _, _. split; reflexivity. }
    rewrite Hstep.
    pose proof (item_values_storable (crypto_randomUUID E (tick w)) id x)
      as Hv.
    destruct (item_values _ _ _ _ _ _ _) as [column|row];
      [congruence|]. destruct Hv as (_ & Hrow & Hrid & _).
    assert (Hone : item_rows E id (tick w) [x] = [row]).
    { rewrite item_rows_cons, Hrow. reflexivity. }
    rewrite Hone.
    specialize (IH {| db := with_receipt_items (db w)
                              (receipt_items (db w) ++ [row]);
                      tick := S (tick w); log := log w |}).
    cbn [db tick log with_receipt_items receipts receipt_items] in IH.
    specialize (IH Hfk). rewrite List.map_app in IH.
    cbn [List.map] in IH. rewrite Hrid in IH.
    unfold item_ids in IH.
    destruct (forallb storable l
              && fresh_ids
                   (List.map ri_id (receipt_items (db w))
                    ++ [crypto_randomUUID E (tick w)])
                   (List.map (crypto_randomUUID E)
                      (seq (S (tick w)) (List.length l)))).
    + destruct IH as [IH Hlen]. rewrite IH. split.
      * f_equal. rewrite item_rows_cons, Hrow.
        unfold with_receipt_items. simpl.
        rewrite <- app_assoc. simpl. f_equal. lia.
      * rewrite item_rows_cons, Hrow. simpl. rewrite Hlen. reflexivity.
    + destruct IH as (m & w' & Hrun & Hlog).
      rewrite Hrun. eexists _, _. split; [reflexivity|exact Hlog].
Qed.

Lemma createReceipt_unfold (E : env) (a : ReceiptAnalysisResult)
  (raw : option jsstring) (w : world) :
  createReceipt E a raw w
  = let r := created_receipt E (tick w) a raw in
    match
      (insert_receipt (receiptToRow r) ;;;
       iterable (a_items_array a) ;;;
       for_of (a_items a) (insert_item E (r_id r)))
        {| db := db w; tick := S (S (tick w)); log := log w |}
    with
    | (Ok _, w') => (Ok r, w')
    | (Throw e, w') =>
        (Throw e, {| db := db w; tick := tick w'; log := log w' |})
    end.
Proof.
  cbv zeta.
  set (r := created_receipt E (tick w) a raw).
  set (body := insert_receipt (receiptToRow r) ;;;
               iterable (a_items_array a) ;;;
               for_of (a_items a) (insert_item E (r_id r))).
  change (createReceipt E a raw w)
    with (match
            transaction body
              {| db := db w; tick := S (S (tick w)); log := log w |}
          with
          | (Ok _, w') => (Ok r, w')
          | (Throw e, w') => (Throw e, w')
          end).
  unfold transaction.
  destruct (body {| db := db w; tick := S (S (tick w)); log := log w |})
    as [[u|m] w']; reflexivity.
Qed.

Lemma insert_receipt_run (r : ReceiptRow) (w : world) :
  insert_receipt r w
  = if existsb (fun x => row_id x =? row_id r) (receipts (db w))
    then (Throw (lit "UNIQUE constraint failed: receipts.id"), w)
    else (Ok tt,
          {| db := with_receipts (db w) (receipts (db w) ++ [r]);
             tick := tick w; log := log w |}).
Proof.
  unfold insert_receipt, get_db, bind, throw, put_db. simpl.
  destruct (existsb _ (receipts (db w))); reflexivity.
Qed.

(** [createReceipt], step by step: the identifier and the instant are
    drawn, then the transaction either commits the receipt row and all
    item rows or leaves the tables as they were. *)
Lemma createReceipt_run (E : env) (a : ReceiptAnalysisResult)
  (raw : option jsstring) (w : world) :
  let t := tick w in
  let r := created_receipt E t a raw in
  if negb (existsb (fun x => row_id x =? r_id r) (receipts (db w)))
     && storable_items a
     && fresh_ids (List.map ri_id (receipt_items (db w)))
          (item_ids E (S (S t)) (a_items a))
  then
    createReceipt E a raw w
    = (Ok r,
       {| db :=
            {| users := users (db w);
               receipts := receipts (db w) ++ [receiptToRow r];
               receipt_items :=
                 receipt_items (db w)
                 ++ item_rows E (r_id r) (S (S t)) (a_items a);
               user_receipts := user_receipts (db w);
               telegram_users := telegram_users (db w) |};
          tick := S (S t) + List.length (a_items a);
          log := log w |})
    /\ List.length (item_rows E (r_id r) (S (S t)) (a_items a))
       = List.length (a_items a)
  else
    exists m t',
      createReceipt E a raw w
      = (Throw m, {| db := db w; tick := t'; log := log w |}).
Proof.
  cbv zeta. rewrite createReceipt_unfold. cbv zeta.
  set (r := created_receipt E (tick w) a raw).
  rewrite bind_run, insert_receipt_run. cbn [db tick log].
  change (row_id (receiptToRow r)) with (r_id r).
  destruct (existsb (fun x => row_id x =? r_id r) (receipts (db w))) eqn:Hid;
    cbn [negb andb].
  - eexists _, _. reflexivity.
  - rewrite bind_run. unfold storable_items, a_items.
    destruct (a_items_array a) as [l|]; cbn [iterable andb].
    2:{ unfold throw. eexists _, _. reflexivity. }
    unfold ret. cbv beta iota.
    pose proof (@for_of_items E (r_id r) l
                  {| db := with_receipts (db w)
                             (receipts (db w) ++ [receiptToRow r]);
                     tick := S (S (tick w)); log := log w |}) as H.
    cbn [db tick log] in H.
    change (receipts
              (with_receipts (db w) (receipts (db w) ++ [receiptToRow r])))
      with (receipts (db w) ++ [receiptToRow r]) in H.
    change (receipt_items
              (with_receipts (db w) (receipts (db w) ++ [receiptToRow r])))
      with (receipt_items (db w)) in H.
    rewrite existsb_app in H. simpl existsb in H.
    rewrite jseqb_refl in H. rewrite orb_true_r in H.
    specialize (H eq_refl).
    destruct (forallb storable l
              && fresh_ids (List.map ri_id (receipt_items (db w)))
                   (item_ids E (S (S (tick w))) l)).
    + destruct H as [H Hlen]. rewrite H. split; [reflexivity|exact Hlen].
    + destruct H as (m & w' & Hrun & Hlog).
      rewrite Hrun. cbn [db tick log]. rewrite Hlog.
      eexists _, _. reflexivity.
Qed.


(** X4.  For an analysis whose fields hold values of their declared
    types, [null] or nothing, [createReceipt] returns exactly when
    [items] is an array in which every item has a [name], a [quantity], a
    [unit_price] and a [total_price] (the NOT NULL columns), the
    identifier it draws for the receipt is not the identifier of a stored
    receipt, and the identifiers it draws for the items collide neither
    with those of the stored items nor with one another; the FOREIGN KEY
    of an item row cannot fail, since its receipt row was inserted just
    before.  When it returns it has stored one row for each item. *)
Theorem createReceipt_returns_iff_fresh (E : env)
  (a : ReceiptAnalysisResult) (raw : option jsstring) (w : world) :
  ((exists r w', createReceipt E a raw w = (Ok r, w'))
   <-> storable_items a = true
       /\ existsb (fun x => row_id x =? crypto_randomUUID E (tick w))
            (receipts (db w)) = false
       /\ fresh_ids (List.map ri_id (receipt_items (db w)))
            (item_ids E (S (S (tick w))) (a_items a)) = true)
  /\ forall r w',
       createReceipt E a raw w = (Ok r, w') ->
       List.length (receipt_items (db w'))
       = (List.length (receipt_items (db w)) + List.length (a_items a))%nat.
Proof.
  pose proof (createReceipt_run E a raw w) as H. cbv zeta in H.
  cbn [r_id created_receipt] in H.
  destruct (existsb _ (receipts (db w))); cbn [negb andb] in H.
  - destruct H as (m & t' & H). rewrite H. split; [split|].
    + intros (r & w' & Hr). discriminate.
    + intros (_ & Hf & _). discriminate.
    + intros r w' Hr. discriminate.
  - destruct (storable_items a); cbn [andb] in H.
    + destruct (fresh_ids _ _).
      * destruct H as [H Hlen]. rewrite H. split; [split|].
        -- intros _. repeat split; reflexivity.
        -- intros _. eexists _, _. reflexivity.
        -- intros r w' Hr. injection Hr as _ <-. cbn [db receipt_items].
           rewrite length_app, Hlen. reflexivity.
      * destruct H as (m & t' & H). rewrite H. split; [split|].
        -- intros (r & w' & Hr). discriminate.
        -- intros (_ & _ & Hf). discriminate.
        -- intros r w' Hr. discriminate.
    + destruct H as (m & t' & H). rewrite H. split; [split|].
      * intros (r & w' & Hr). discriminate.
      * intros (Hf & _). discriminate.
      * intros r w' Hr. discriminate.
Qed.

(** An item without a price cannot be stored: the receipt row that was
    inserted before it is rolled back. *)
Example item_without_price_rolls_back :
  let a :=
    {| a_store_name := Some (lit "Market"); a_date := None; a_time := None;
       a_items_array :=
         Some
           [ {| item_id := None; item_receipt_id := None;
                item_name := Some (lit "Milk"); item_quantity := Some 2;
                item_unit_price := None; item_total_price := Some 2;
                item_category := None |} ];
       a_subtotal := None; a_tax := None; a_total_amount := Some 2;
       a_currency := None; a_payment_method := None; a_error := JNull |} in
  let '(res, w') := createReceipt shopping_env a None one_receipt_world in
  res = Throw (lit "NOT NULL constraint failed: receipt_items.unit_price")
  /\ db w' = db one_receipt_world.
Proof. vm_compute. split; reflexivity. Qed.

(** With a random source that is stuck, the second item collides with the
    first: the receipt row and the first item row were inserted, and
    neither is there afterwards. *)
Example stuck_source_rolls_back :
  let '(res, w') := createReceipt stuck_env shopping None one_receipt_world in
  res = Throw (lit "UNIQUE constraint failed: receipt_items.id")
  /\ db w' = db one_receipt_world.
Proof. vm_compute. split; reflexivity. Qed.

Lemma filter_none_in {A} (f : A -> bool) (l : list A) :
  (forall x, In x l -> f x = false) -> filter f l = [].
Proof.
  induction l as [|x l IH]; intros H; simpl; [reflexivity|].
  rewrite (H x (or_introl eq_refl)). apply IH. intros y Hy. apply H.
  right. exact Hy.
Qed.

Lemma filter_all_in {A} (f : A -> bool) (l : list A) :
  (forall x, In x l -> f x = true) -> filter f l = l.
Proof.
  induction l as [|x l IH]; intros H; simpl; [reflexivity|].
  rewrite (H x (or_introl eq_refl)). f_equal. apply IH. intros y Hy. apply H.
  right. exact Hy.
Qed.

Lemma item_rows_receipt (E : env) (id : jsstring) (l : list ReceiptItem) :
  forall t x, In x (item_rows E id t l) -> ri_receipt_id x = id.
Proof.
  unfold item_rows. intros t x Hx. apply in_flat_map in Hx.
  destruct Hx as (p & _ & Hp).
  pose proof (item_values_storable (crypto_randomUUID E (fst p)) id (snd p))
    as Hv.
  destruct (item_values _ _ _ _ _ _ _) as [column|row] eqn:Hr.
  - unfold item_row in Hp. rewrite Hr in Hp. contradiction.
  - destruct Hv as (_ & Hrow & _ & Hid). rewrite Hrow in Hp.
    destruct Hp as [<-|[]]. exact Hid.
Qed.

Lemma item_rows_same (E : env) (id : jsstring) (l : list ReceiptItem) :
  forallb storable l = true ->
  forall t,
    Forall2 same_item
      (List.map rowToReceiptItem (item_rows E id t l)) l.
Proof.
  induction l as [|x l IH]; intros Hst t; [constructor|].
  cbn [forallb] in Hst. apply andb_true_iff in Hst. destruct Hst as [Hx Hl].
  rewrite item_rows_cons. unfold item_row, item_values, storable in *.
  destruct (item_name x) eqn:H1, (item_quantity x) eqn:H2,
    (item_unit_price x) eqn:H3, (item_total_price x) eqn:H4;
    try discriminate.
  cbn [app List.map]. constructor; [|apply IH; exact Hl].
  unfold same_item, rowToReceiptItem. cbn.
  rewrite H1, H2, H3, H4. repeat split; reflexivity.
Qed.

Lemma storable_items_array (a : ReceiptAnalysisResult) :
  storable_items a = true -> forallb storable (a_items a) = true.
Proof.
  unfold storable_items, a_items.
  destruct (a_items_array a); [auto|discriminate].
Qed.

Lemma existsb_false_find {A} (p : A -> bool) (l : list A) :
  existsb p l = false -> find p l = None.
Proof.
  induction l as [|x l IH]; simpl; [reflexivity|].
  destruct (p x); [discriminate|]. exact IH.
Qed.

(** No stored item refers to a receipt that is not stored. *)
Lemma no_items_of_missing_receipt (d : DB) (id : jsstring) :
  references ri_receipt_id (receipt_items d) row_id (receipts d) ->
  existsb (fun x => row_id x =? id) (receipts d) = false ->
  filter (fun i => ri_receipt_id i =? id) (receipt_items d) = [].
Proof.
  intros Hfk Hid. apply filter_none_in. intros i Hi.
  destruct (ri_receipt_id i =? id) eqn:He; [|reflexivity].
  destruct (Hfk i Hi) as (r & Hr & Hk).
  assert (Ht : existsb (fun x => row_id x =? id) (receipts d) = true).
  { apply existsb_exists. exists r. split; [exact Hr|].
    rewrite Hk. exact He. }
  congruence.
Qed.

(** What the tables hold under the identifier of a receipt that
    [createReceipt] has just returned. *)
Lemma created_receipt_read_back (E : env) (a : ReceiptAnalysisResult)
  (raw : option jsstring) (w w' : world) (r : Receipt) :
  db_ok (db w) ->
  createReceipt E a raw w = (Ok r, w') ->
  r = created_receipt E (tick w) a raw
  /\ select_receipt (db w') (r_id r) = Some (receiptToRow r)
  /\ select_getReceiptItems (db w') (r_id r)
     = List.map rowToReceiptItem
         (item_rows E (r_id r) (S (S (tick w))) (a_items a))
  /\ users (db w') = users (db w)
  /\ user_receipts (db w') = user_receipts (db w)
  /\ log w' = log w
  /\ forallb storable (a_items a) = true.
Proof.
  intros Hok Hrun.
  pose proof (createReceipt_run E a raw w) as H. cbv zeta in H.
  destruct (existsb _ (receipts (db w))) eqn:Hid; cbn [negb andb] in H;
    [destruct H as (m & t' & H); congruence|].
  destruct (storable_items a) eqn:Hst; cbn [andb] in H;
    [|destruct H as (m & t' & H); congruence].
  destruct (fresh_ids _ _);
    [|destruct H as (m & t' & H); congruence].
  destruct H as [H _].
  rewrite H in Hrun. injection Hrun as Hr Hw. subst r w'.
  set (r := created_receipt E (tick w) a raw) in *.
  cbn [db users user_receipts log].
  split; [reflexivity|].
  split; [|split; [|repeat split; apply storable_items_array, Hst]].
  - unfold select_receipt. cbn [receipts].
    apply (@find_app_none _ (fun x => row_id x =? r_id r)
             (receipts (db w)) (receiptToRow r)
             (existsb_false_find _ _ Hid) (jseqb_refl _)).
  - unfold select_getReceiptItems, select_receipt_items. cbn [receipt_items].
    rewrite filter_app.
    rewrite (@no_items_of_missing_receipt (db w) (r_id r)
               (ok_items_receipt Hok) Hid).
    rewrite filter_all_in; [reflexivity|].
    intros x Hx. rewrite (item_rows_receipt _ _ _ _ _ Hx). apply jseqb_refl.
Qed.

(** X5.  Round trip of [createReceipt] and [getReceiptById]: when the
    tables satisfy the constraints, the receipt read back under the
    returned identifier has every field of the returned receipt, and its
    line items are those of the analysis, in the same order, now carrying
    an identifier and the identifier of the receipt (the receipt that
    [createReceipt] returned carries the items as the analysis gave
    them). *)
Theorem createReceipt_then_getReceiptById (E : env)
  (a : ReceiptAnalysisResult) (raw : option jsstring) (w w' : world)
  (r : Receipt) :
  db_ok (db w) ->
  createReceipt E a raw w = (Ok r, w') ->
  exists its,
    getReceiptById (r_id r) w'
    = (Ok (Some (rowToReceipt (receiptToRow r) its)), w')
    /\ Forall2 same_item its (a_items a)
    /\ Forall (fun i => item_receipt_id i = Some (r_id r)) its
    /\ items r = a_items a.
Proof.
  intros Hok Hrun.
  destruct (@created_receipt_read_back E a raw w w' r Hok Hrun)
    as (Hr & Hrow & Hits & _ & _ & _ & Hst).
  exists (List.map rowToReceiptItem
            (item_rows E (r_id r) (S (S (tick w))) (a_items a))).
  split; [|split; [|split]].
  - unfold getReceiptById, getReceiptItems, get_db, bind, ret.
    cbn [db]. rewrite Hrow. cbn [db]. rewrite Hits. reflexivity.
  - apply item_rows_same. exact Hst.
  - apply Forall_forall. intros i Hi. apply in_map_iff in Hi.
    destruct Hi as (x & Hx & Hin). subst i. simpl.
    rewrite (item_rows_receipt _ _ _ _ _ Hin). reflexivity.
  - subst r. reflexivity.
Qed.

Lemma createReceipt_then_getReceiptById_witness :
  exists its,
    getReceiptById (sample_uuid (tick one_receipt_world))
      (snd (createReceipt shopping_env shopping None one_receipt_world))
    = (Ok (Some
             (rowToReceipt
                (receiptToRow
                   (created_receipt shopping_env (tick one_receipt_world)
                      shopping None))
                its)),
       snd (createReceipt shopping_env shopping None one_receipt_world))
    /\ Forall2 same_item its (a_items shopping)
    /\ Forall
         (fun i =>
            item_receipt_id i = Some (sample_uuid (tick one_receipt_world)))
         its
    /\ a_items shopping = a_items shopping.
Proof.
  apply (@createReceipt_then_getReceiptById shopping_env shopping None
           one_receipt_world
           (snd (createReceipt shopping_env shopping None one_receipt_world))
           (created_receipt shopping_env (tick one_receipt_world)
              shopping None)).
  - apply check_db_ok. vm_compute. reflexivity.
  - vm_compute. reflexivity.
Defined.

(** ** The receipt store *)

(** X1, at a concrete state: a photo from chat 5, which has one receipt,
    stores a second one. *)
Lemma handleMessage_keeps_constraints_witness :
  db_ok (db one_receipt_world)
  /\ db_ok (db (snd (handleMessage shopping_env (photo_message 5)
                       one_receipt_world))).
Proof.
  assert (H : db_ok (db one_receipt_world)).
  { apply check_db_ok. vm_compute. reflexivity. }
  split; [exact H|].
  apply (@handleMessage_keeps_constraints shopping_env (photo_message 5)
           one_receipt_world H).
Defined.

(** X2.  Every exported function of the store that writes keeps the
    constraints of the schema, whether it returns or throws: the account
    and session directory ([createUser], [createTelegramUser],
    [getOrCreateTelegramUser], [setGoogleApiKey]) and the receipt store
    ([createReceipt], [deleteReceipt], [linkReceiptToUser],
    [unlinkReceiptFromUser], [updateUserReceiptNotes],
    [createReceiptForUser]). *)
Theorem store_writes_keep_constraints (E : env) (w : world) :
  db_ok (db w) ->
  (forall email password name,
      db_ok (db (snd (createUser E email password name w))))
  /\ (forall chatId name,
         db_ok (db (snd (createTelegramUser E chatId name w))))
  /\ (forall chatId name,
         db_ok (db (snd (getOrCreateTelegramUser E chatId name w))))
  /\ (forall chatId apiKey, db_ok (db (snd (setGoogleApiKey chatId apiKey w))))
  /\ (forall a raw, db_ok (db (snd (createReceipt E a raw w))))
  /\ (forall id, db_ok (db (snd (deleteReceipt id w))))
  /\ (forall userId receiptId notes,
         db_ok (db (snd (linkReceiptToUser E userId receiptId notes w))))
  /\ (forall userId receiptId,
         db_ok (db (snd (unlinkReceiptFromUser userId receiptId w))))
  /\ (forall userId receiptId notes,
         db_ok (db (snd (updateUserReceiptNotes userId receiptId notes w))))
  /\ (forall userId a notes raw,
         db_ok (db (snd (createReceiptForUser E userId a notes raw w)))).
Proof.
  intros H. repeat match goal with |- _ /\ _ => split end; intros.
  - apply keeps_createUser, H.
  - apply keeps_createTelegramUser, H.
  - apply keeps_getOrCreateTelegramUser, H.
  - apply keeps_setGoogleApiKey, H.
  - apply keeps_createReceipt, H.
  - apply keeps_deleteReceipt, H.
  - apply keeps_linkReceiptToUser, H.
  - apply keeps_unlinkReceiptFromUser, H.
  - apply keeps_updateUserReceiptNotes, H.
  - apply keeps_createReceiptForUser, H.
Qed.

Lemma store_writes_keep_constraints_witness :
  db_ok (db (snd (deleteReceipt (sample_uuid 7) one_receipt_world)))
  /\ db_ok (db (snd (createReceiptForUser shopping_env sample_account
                       shopping None None one_receipt_world))).
Proof.
  assert (H : db_ok (db one_receipt_world)).
  { apply check_db_ok. vm_compute. reflexivity. }
  pose proof (@store_writes_keep_constraints shopping_env one_receipt_world H)
    as K.
  split.
  - apply K.
  - apply K.
Defined.

Lemma find_filter_none {A} (p q : A -> bool) (l : list A) :
  (forall x, p x = true -> q x = false) -> find p (filter q l) = None.
Proof.
  intros H. induction l as [|x l IH]; simpl; [reflexivity|].
  destruct (q x) eqn:Hq; [|exact IH]. simpl.
  destruct (p x) eqn:Hp; [|exact IH]. rewrite (H x Hp) in Hq. discriminate.
Qed.

Lemma find_filter_other {A} (p q : A -> bool) (l : list A) :
  (forall x, p x = true -> q x = true) -> find p (filter q l) = find p l.
Proof.
  intros H. induction l as [|x l IH]; simpl; [reflexivity|].
  destruct (q x) eqn:Hq; simpl.
  - destruct (p x); [reflexivity|exact IH].
  - destruct (p x) eqn:Hp; [|exact IH]. rewrite (H x Hp) in Hq. discriminate.
Qed.

Lemma join_without_receipt (d : DB) (u id : jsstring) :
  stored d id = false ->
  find (fun row => row_id (fst row) =? id) (join_user_receipts d u) = None.
Proof.
  intros Hs. apply existsb_false_find.
  destruct (existsb _ (join_user_receipts d u)) eqn:He; [|reflexivity].
  apply existsb_exists in He. destruct He as (row & Hin & Hrow).
  unfold join_user_receipts in Hin. apply in_flat_map in Hin.
  destruct Hin as (ur & _ & Hin). apply in_map_iff in Hin.
  destruct Hin as (r & <- & Hr). apply filter_In in Hr.
  destruct Hr as [Hr _]. simpl in Hrow.
  assert (Ht : stored d id = true).
  { apply existsb_exists. exists r. split; assumption. }
  congruence.
Qed.

Lemma stored_after_delete (d : DB) (id : jsstring) :
  stored (delete_receipt_rows d id) id = false.
Proof.
  unfold stored, delete_receipt_rows.
  destruct (existsb (fun r => row_id r =? id) (receipts d)) eqn:He;
    [|exact He].
  simpl. destruct (existsb _ (filter _ (receipts d))) eqn:Hf; [|reflexivity].
  apply existsb_exists in Hf. destruct Hf as (r & Hin & Hr).
  apply filter_In in Hin. destruct Hin as [_ Hn]. rewrite Hr in Hn.
  discriminate.
Qed.

Lemma items_after_delete (d : DB) (id : jsstring) :
  references ri_receipt_id (receipt_items d) row_id (receipts d) ->
  select_receipt_items (delete_receipt_rows d id) id = [].
Proof.
  intros Hfk. unfold select_receipt_items, delete_receipt_rows.
  destruct (existsb (fun r => row_id r =? id) (receipts d)) eqn:He.
  - simpl. apply filter_none_in. intros i Hi. apply filter_In in Hi.
    destruct Hi as [_ Hn]. apply negb_true_iff in Hn. exact Hn.
  - apply no_items_of_missing_receipt; assumption.
Qed.

Lemma delete_keeps_others (d : DB) (id other : jsstring) :
  other <> id ->
  select_receipt (delete_receipt_rows d id) other = select_receipt d other
  /\ select_receipt_items (delete_receipt_rows d id) other
     = select_receipt_items d other.
Proof.
  intros Hne. unfold select_receipt, select_receipt_items, delete_receipt_rows.
  destruct (existsb (fun r => row_id r =? id) (receipts d));
    [|split; reflexivity].
  simpl. split.
  - apply find_filter_other. intros r Hr. apply jseqb_eq in Hr.
    rewrite Hr. apply negb_true_iff, jseqb_neq. exact Hne.
  - apply filter_filter_implied. intros i Hi. apply jseqb_eq in Hi.
    rewrite Hi. apply negb_true_iff, jseqb_neq. exact Hne.
Qed.

(** X6.  [deleteReceipt] answers whether a receipt with the identifier
    was stored, and cascades: afterwards no read of the store finds the
    receipt, its line items or an ownership of it, for any account, while
    every other receipt and its items are read as before; accounts and
    sessions are untouched, and when it answers [false] no table has
    changed. *)
Theorem deleteReceipt_cascades (id : jsstring) (w : world) :
  db_ok (db w) ->
  let '(res, w') := deleteReceipt id w in
  res = Ok (stored (db w) id)
  /\ log w' = log w
  /\ getReceiptById id w' = (Ok None, w')
  /\ getReceiptItems id w' = (Ok [], w')
  /\ (forall u, getUserReceiptById u id w' = (Ok None, w'))
  /\ (forall ur, In ur (user_receipts (db w')) -> ur_receipt_id ur <> id)
  /\ (forall other, other <> id ->
        fst (getReceiptById other w') = fst (getReceiptById other w))
  /\ users (db w') = users (db w)
  /\ telegram_users (db w') = telegram_users (db w)
  /\ (stored (db w) id = false -> db w' = db w).
Proof.
  intros Hok. unfold deleteReceipt, bind, get_db, put_db, ret. simpl.
  split; [reflexivity|]. split; [reflexivity|].
  assert (Hnone : select_receipt (delete_receipt_rows (db w) id) id = None).
  { apply existsb_false_find. apply stored_after_delete. }
  assert (Hitems :
            select_receipt_items (delete_receipt_rows (db w) id) id = []).
  { apply items_after_delete. apply (ok_items_receipt Hok). }
  split; [|split; [|split; [|split; [|split; [|split; [|split]]]]]].
  - unfold getReceiptById, bind, get_db, ret. simpl. rewrite Hnone.
    reflexivity.
  - unfold getReceiptItems, bind, get_db, ret, select_getReceiptItems. simpl.
    rewrite Hitems. reflexivity.
  - intros u. unfold getUserReceiptById, bind, get_db, ret. simpl.
    unfold select_user_receipt.
    rewrite join_without_receipt; [reflexivity|apply stored_after_delete].
  - intros ur Hin Hid. unfold delete_receipt_rows in Hin.
    destruct (existsb (fun r => row_id r =? id) (receipts (db w))) eqn:He.
    + simpl in Hin. apply filter_In in Hin. destruct Hin as [_ Hn].
      rewrite Hid, jseqb_refl in Hn. discriminate.
    + destruct (ok_links_receipt Hok ur Hin) as (r & Hr & Hk).
      assert (Ht : existsb (fun r => row_id r =? id) (receipts (db w))
                   = true).
      { apply existsb_exists. exists r. split; [exact Hr|].
        rewrite Hk, Hid. apply jseqb_refl. }
      congruence.
  - intros other Hne.
    destruct (@delete_keeps_others (db w) id other Hne) as [Hr Hi].
    unfold getReceiptById, getReceiptItems, select_getReceiptItems, bind,
      get_db, ret. simpl. rewrite Hr.
    destruct (select_receipt (db w) other); simpl; [|reflexivity].
    rewrite Hi. reflexivity.
  - unfold delete_receipt_rows.
    destruct (existsb _ (receipts (db w))); reflexivity.
  - unfold delete_receipt_rows.
    destruct (existsb _ (receipts (db w))); reflexivity.
  - intros Hs. unfold delete_receipt_rows. unfold stored in Hs. rewrite Hs.
    reflexivity.
Qed.

Lemma deleteReceipt_cascades_witness :
  let '(res, w') := deleteReceipt (sample_uuid 9) two_receipts_world in
  res = Ok (stored (db two_receipts_world) (sample_uuid 9))
  /\ log w' = log two_receipts_world
  /\ getReceiptById (sample_uuid 9) w' = (Ok None, w')
  /\ getReceiptItems (sample_uuid 9) w' = (Ok [], w')
  /\ (forall u, getUserReceiptById u (sample_uuid 9) w' = (Ok None, w'))
  /\ (forall ur, In ur (user_receipts (db w')) ->
                 ur_receipt_id ur <> sample_uuid 9)
  /\ (forall other, other <> sample_uuid 9 ->
        fst (getReceiptById other w')
        = fst (getReceiptById other two_receipts_world))
  /\ users (db w') = users (db two_receipts_world)
  /\ telegram_users (db w') = telegram_users (db two_receipts_world)
  /\ (stored (db two_receipts_world) (sample_uuid 9) = false ->
      db w' = db two_receipts_world).
Proof.
  apply (@deleteReceipt_cascades (sample_uuid 9) two_receipts_world).
  apply check_db_ok. vm_compute. reflexivity.
Defined.

Lemma linkReceiptToUser_run (E : env) (userId receiptId : jsstring)
  (notes : option jsstring) (w : world) :
  let ur := created_link E (tick w) userId receiptId notes in
  linkReceiptToUser E userId receiptId notes w
  = let w2 := {| db := db w; tick := S (S (tick w)); log := log w |} in
    if existsb (fun x => ur_id x =? ur_id ur) (user_receipts (db w))
    then (Throw (lit "UNIQUE constraint failed: user_receipts.id"), w2)
    else if linked (db w) userId receiptId
    then (Throw
            (lit "UNIQUE constraint failed: user_receipts.user_id, user_receipts.receipt_id"),
          w2)
    else if negb (registered (db w) userId) || negb (stored (db w) receiptId)
    then (Throw (lit "FOREIGN KEY constraint failed"), w2)
    else (Ok ur,
          {| db := with_user_receipts (db w) (user_receipts (db w) ++ [ur]);
             tick := S (S (tick w)); log := log w |}).
Proof.
  cbv zeta.
  unfold linkReceiptToUser, insert_user_receipt, randomUUID, toISOString_now,
    draw, get_db, bind, throw, put_db, ret, linked, registered, stored,
    created_link.
  simpl.
  destruct (existsb _ (user_receipts (db w))); [reflexivity|].
  destruct (existsb _ (user_receipts (db w))); [reflexivity|].
  destruct (existsb _ (users (db w))); simpl; [|reflexivity].
  destruct (existsb _ (receipts (db w))); reflexivity.
Qed.

(** X7.  [linkReceiptToUser] refuses what the schema refuses and then
    changes nothing: a second link of the same account to the same
    receipt, an account that does not exist, a receipt that is not stored.
    When it returns, exactly one row was appended to the ownership links,
    for this account and this receipt, with [notes || null] as notes; the
    other tables are as before. *)
Theorem linkReceiptToUser_checks (E : env) (userId receiptId : jsstring)
  (notes : option jsstring) (w : world) :
  let '(res, w') := linkReceiptToUser E userId receiptId notes w in
  log w' = log w
  /\ match res with
     | Ok ur =>
         linked (db w) userId receiptId = false
         /\ registered (db w) userId = true
         /\ stored (db w) receiptId = true
         /\ ur = created_link E (tick w) userId receiptId notes
         /\ db w' = with_user_receipts (db w) (user_receipts (db w) ++ [ur])
     | Throw _ => db w' = db w
     end
  /\ (linked (db w) userId receiptId = true
      \/ registered (db w) userId = false
      \/ stored (db w) receiptId = false ->
      exists m, res = Throw m).
Proof.
  rewrite linkReceiptToUser_run. cbv zeta.
  destruct (existsb _ (user_receipts (db w))).
  { simpl. split; [reflexivity|]. split; [reflexivity|]. eauto. }
  destruct (linked (db w) userId receiptId).
  { simpl. split; [reflexivity|]. split; [reflexivity|]. eauto. }
  destruct (registered (db w) userId); simpl.
  2:{ split; [reflexivity|]. split; [reflexivity|]. eauto. }
  destruct (stored (db w) receiptId); simpl.
  2:{ split; [reflexivity|]. split; [reflexivity|]. eauto. }
  split; [reflexivity|]. split; [repeat split; reflexivity|].
  intros [H|[H|H]]; discriminate.
Qed.

(** The second link of the account of chat 5 to its first receipt, and a
    link of an unknown account, are refused. *)
Example second_link_refused :
  fst (linkReceiptToUser plain_env sample_account (sample_uuid 9) None
         two_receipts_world)
  = Throw
      (lit "UNIQUE constraint failed: user_receipts.user_id, user_receipts.receipt_id")
  /\ fst (linkReceiptToUser plain_env (lit "nobody") (sample_uuid 9) None
            two_receipts_world)
     = Throw (lit "FOREIGN KEY constraint failed")
  /\ exists ur,
       fst (linkReceiptToUser plain_env second_account (sample_uuid 9)
              (Some []) two_accounts_world) = Ok ur
       /\ ur_notes ur = None.
Proof.
  split; [vm_compute; reflexivity|]. split; [vm_compute; reflexivity|].
  eexists. split; vm_compute; reflexivity.
Qed.

Lemma NoDup_map_inj {A B} (f : A -> B) (l : list A) (x y : A) :
  NoDup (List.map f l) -> In x l -> In y l -> f x = f y -> x = y.
Proof.
  induction l as [|a l IH]; simpl; intros Hnd Hx Hy Hf; [contradiction|].
  inversion Hnd as [|? ? Hna Hnd']; subst.
  destruct Hx as [<-|Hx], Hy as [<-|Hy]; auto.
  - exfalso. apply Hna. rewrite Hf. apply in_map. exact Hy.
  - exfalso. apply Hna. rewrite <- Hf. apply in_map. exact Hx.
Qed.

Lemma in_join (d : DB) (u : jsstring) (r : ReceiptRow) (ur : UserReceipt) :
  In (r, ur) (join_user_receipts d u)
  <-> In ur (user_receipts d) /\ ur_user_id ur = u
      /\ In r (receipts d) /\ row_id r = ur_receipt_id ur.
Proof.
  unfold join_user_receipts. rewrite in_flat_map. split.
  - intros (ur' & Hur & Hin). apply in_map_iff in Hin.
    destruct Hin as (r' & Heq & Hr). injection Heq as -> ->.
    apply filter_In in Hur. destruct Hur as [Hur Hu].
    apply filter_In in Hr. destruct Hr as [Hr Hid].
    apply jseqb_eq in Hu. apply jseqb_eq in Hid. auto.
  - intros (Hur & Hu & Hr & Hid). exists ur. split.
    + apply filter_In. split; [exact Hur|]. apply jseqb_eq. exact Hu.
    + apply in_map_iff. exists r. split; [reflexivity|].
      apply filter_In. split; [exact Hr|]. apply jseqb_eq. exact Hid.
Qed.

(** Under the constraints, an account and a receipt have at most one row
    in the join. *)
Lemma join_row_unique (d : DB) (u id : jsstring)
  (x y : ReceiptRow * UserReceipt) :
  db_ok d ->
  In x (join_user_receipts d u) -> In y (join_user_receipts d u) ->
  row_id (fst x) = id -> row_id (fst y) = id -> x = y.
Proof.
  intros Hok Hx Hy Hxi Hyi. destruct x as [r1 l1], y as [r2 l2].
  apply in_join in Hx. apply in_join in Hy. simpl in *.
  destruct Hx as (Hl1 & Hu1 & Hr1 & Hk1), Hy as (Hl2 & Hu2 & Hr2 & Hk2).
  assert (r1 = r2).
  { apply (NoDup_map_inj row_id (receipts d)); auto.
    - apply (ok_receipts_id Hok).
    - congruence. }
  assert (l1 = l2).
  { apply (NoDup_map_inj (fun ur => (ur_user_id ur, ur_receipt_id ur))
             (user_receipts d)); auto.
    - apply (ok_links_pair Hok).
    - simpl. congruence. }
  congruence.
Qed.

Lemma find_unique_perm {A} (p : A -> bool) (l l' : list A) :
  Permutation l l' ->
  (forall x y, In x l -> In y l -> p x = true -> p y = true -> x = y) ->
  find p l = find p l'.
Proof.
  intros Hp Hu.
  destruct (find p l) as [a|] eqn:Ha, (find p l') as [b|] eqn:Hb.
  - apply find_some in Ha. apply find_some in Hb. f_equal.
    apply Hu; try tauto.
    apply (Permutation_in _ (Permutation_sym Hp)). tauto.
  - apply find_some in Ha. destruct Ha as [Hin Hpa].
    apply (Permutation_in _ Hp) in Hin.
    rewrite (find_none _ _ Hb _ Hin) in Hpa. discriminate.
  - apply find_some in Hb. destruct Hb as [Hin Hpb].
    apply (Permutation_in _ (Permutation_sym Hp)) in Hin.
    rewrite (find_none _ _ Ha _ Hin) in Hpb. discriminate.
  - reflexivity.
Qed.

Lemma find_map {A B} (p : B -> bool) (f : A -> B) (l : list A) :
  find p (List.map f l) = option_map f (find (fun x => p (f x)) l).
Proof.
  induction l as [|x l IH]; simpl; [reflexivity|].
  destruct (p (f x)); [reflexivity|exact IH].
Qed.

(** The row of the ownership query is the row of the listing that has the
    identifier: under the constraints there is at most one. *)
Lemma select_user_receipt_listed (d : DB) (userId receiptId : jsstring) :
  db_ok d ->
  option_map (with_details d) (select_user_receipt d userId receiptId)
  = find (fun x => r_id (receipt x) =? receiptId)
      (select_user_receipts d userId).
Proof.
  intros Hok. unfold select_user_receipts. rewrite find_map. simpl.
  unfold select_user_receipt. f_equal.
  apply find_unique_perm.
  - apply order_by_perm.
  - intros x y Hx Hy Hpx Hpy. apply jseqb_eq in Hpx. apply jseqb_eq in Hpy.
    apply (@join_row_unique d userId receiptId x y Hok Hx Hy Hpx Hpy).
Qed.

(** X8.  Under the constraints, [getUserReceiptById] returns the entry of
    the listing [getUserReceipts] of the account that has the identifier,
    and [undefined] when the listing has none: the lookup by identifier
    and the listing agree, whatever row order the two queries use. *)
Theorem getUserReceiptById_is_listed_entry (userId receiptId : jsstring)
  (w : world) :
  db_ok (db w) ->
  getUserReceiptById userId receiptId w
  = (Ok (find (fun x => r_id (receipt x) =? receiptId)
           (select_user_receipts (db w) userId)),
     w).
Proof.
  intros Hok. rewrite <- (select_user_receipt_listed userId receiptId Hok).
  unfold getUserReceiptById, getReceiptItems, bind, get_db, ret.
  destruct (select_user_receipt (db w) userId receiptId); reflexivity.
Qed.

Lemma getUserReceiptById_is_listed_entry_witness :
  getUserReceiptById sample_account (sample_uuid 9) two_accounts_world
  = (Ok (find (fun x => r_id (receipt x) =? sample_uuid 9)
           (select_user_receipts (db two_accounts_world) sample_account)),
     two_accounts_world).
Proof.
  apply (@getUserReceiptById_is_listed_entry sample_account (sample_uuid 9)
           two_accounts_world).
  apply check_db_ok. vm_compute. reflexivity.
Defined.

Lemma linked_in (d : DB) (u id : jsstring) :
  linked d u id = true
  <-> exists ur, In ur (user_receipts d)
                 /\ ur_user_id ur = u /\ ur_receipt_id ur = id.
Proof.
  unfold linked. rewrite existsb_exists. split.
  - intros (ur & Hin & H). apply andb_true_iff in H. destruct H as [H1 H2].
    apply jseqb_eq in H1. apply jseqb_eq in H2. eauto.
  - intros (ur & Hin & H1 & H2). exists ur. split; [exact Hin|].
    rewrite H1, H2, !jseqb_refl. reflexivity.
Qed.

(** X9.  [getUserReceiptById] is the ownership check of the store: under
    the constraints it returns a receipt exactly when the account has an
    ownership link to it, and the receipt returned has the identifier
    asked for; the receipt of another account is never returned. *)
Theorem getUserReceiptById_owner_only (userId receiptId : jsstring)
  (w : world) :
  db_ok (db w) ->
  match fst (getUserReceiptById userId receiptId w) with
  | Ok (Some x) =>
      linked (db w) userId receiptId = true /\ r_id (receipt x) = receiptId
  | Ok None => linked (db w) userId receiptId = false
  | Throw _ => False
  end.
Proof.
  intros Hok. unfold getUserReceiptById, getReceiptItems, bind, get_db, ret.
  simpl. unfold select_user_receipt.
  destruct (find _ (join_user_receipts (db w) userId)) as [[r ur]|] eqn:Hf;
    simpl.
  - apply find_some in Hf. destruct Hf as [Hin Hid]. simpl in Hid.
    apply jseqb_eq in Hid. apply in_join in Hin.
    destruct Hin as (Hur & Hu & Hr & Hk). split; [|exact Hid].
    apply linked_in. exists ur. repeat split; congruence.
  - destruct (linked (db w) userId receiptId) eqn:Hl; [|reflexivity].
    exfalso. apply linked_in in Hl. destruct Hl as (ur & Hur & Hu & Hid).
    destruct (ok_links_receipt Hok ur Hur) as (r & Hr & Hk).
    assert (Hin : In (r, ur) (join_user_receipts (db w) userId)).
    { apply in_join. auto. }
    pose proof (find_none _ _ Hf _ Hin) as Hn. simpl in Hn.
    rewrite Hk, Hid, jseqb_refl in Hn. discriminate.
Qed.

(** The account of chat 6 asks for a receipt of chat 5. *)
Lemma getUserReceiptById_owner_only_witness :
  match
    fst (getUserReceiptById second_account (sample_uuid 9) two_accounts_world)
  with
  | Ok (Some x) =>
      linked (db two_accounts_world) second_account (sample_uuid 9) = true
      /\ r_id (receipt x) = sample_uuid 9
  | Ok None =>
      linked (db two_accounts_world) second_account (sample_uuid 9) = false
  | Throw _ => False
  end.
Proof.
  apply (@getUserReceiptById_owner_only second_account (sample_uuid 9)
           two_accounts_world).
  apply check_db_ok. vm_compute. reflexivity.
Defined.

Lemma filter_key_unique (rs : list ReceiptRow) (r : ReceiptRow) :
  NoDup (List.map row_id rs) -> In r rs ->
  filter (fun x => row_id x =? row_id r) rs = [r].
Proof.
  induction rs as [|a rs IH]; simpl; intros Hnd Hin; [contradiction|].
  inversion Hnd as [|? ? Hna Hnd']; subst.
  destruct Hin as [->|Hin].
  - rewrite jseqb_refl. f_equal. apply filter_none_in. intros x Hx.
    apply jseqb_neq. intros He. apply Hna. rewrite <- He.
    apply in_map. exact Hx.
  - destruct (row_id a =? row_id r) eqn:He.
    + exfalso. apply jseqb_eq in He. apply Hna. rewrite He.
      apply in_map. exact Hin.
    + apply IH; assumption.
Qed.

(** Under the constraints each ownership link joins exactly one receipt. *)
Lemma join_ids (d : DB) (u : jsstring) :
  db_ok d ->
  List.map (fun row => row_id (fst row)) (join_user_receipts d u)
  = List.map ur_receipt_id (links_of d u).
Proof.
  intros Hok. unfold join_user_receipts, links_of.
  assert (Hsub : forall ur, In ur (user_receipts d) -> In ur (user_receipts d))
    by auto.
  revert Hsub. generalize (user_receipts d) at 1 3 4. intros l.
  induction l as [|ur l IH]; intros Hsub; simpl; [reflexivity|].
  destruct (ur_user_id ur =? u); simpl.
  - rewrite List.map_app, IH by (intros x Hx; apply Hsub; right; exact Hx).
    destruct (ok_links_receipt Hok ur (Hsub ur (or_introl eq_refl)))
      as (r & Hr & Hk).
    rewrite <- Hk.
    rewrite (filter_key_unique (receipts d) r (ok_receipts_id Hok) Hr).
    reflexivity.
  - apply IH. intros x Hx. apply Hsub. right. exact Hx.
Qed.

Lemma links_of_receipts_distinct (l : list UserReceipt) (u : jsstring) :
  NoDup (List.map (fun ur => (ur_user_id ur, ur_receipt_id ur)) l) ->
  NoDup (List.map ur_receipt_id (filter (fun ur => ur_user_id ur =? u) l)).
Proof.
  induction l as [|ur l IH]; simpl; intros Hnd; [constructor|].
  inversion Hnd as [|? ? Hna Hnd']; subst.
  destruct (ur_user_id ur =? u) eqn:Hu; simpl; [|auto].
  constructor; [|auto].
  intros Hin. apply in_map_iff in Hin. destruct Hin as (x & Hx & Hfx).
  apply filter_In in Hfx. destruct Hfx as [Hxl Hxu].
  apply jseqb_eq in Hu. apply jseqb_eq in Hxu.
  apply Hna. apply in_map_iff. exists x. split; [|exact Hxl]. congruence.
Qed.

Lemma listing_length (d : DB) (u : jsstring) :
  db_ok d ->
  List.length (select_user_receipts d u) = List.length (links_of d u).
Proof.
  intros Hok. unfold select_user_receipts. rewrite length_map.
  rewrite <- (Permutation_length (order_by_perm _)).
  rewrite <- (length_map (fun row => row_id (fst row))).
  rewrite (join_ids u Hok). apply length_map.
Qed.

(** X10.  Under the constraints the listing [getUserReceipts] of an
    account has exactly one entry for each ownership link of the account:
    no receipt is listed twice, the entries are as many as the links, and
    that number is the [totalReceipts] of [getUserReceiptStats]. *)
Theorem listing_has_one_entry_per_link (E : env) (userId : jsstring)
  (w : world) :
  db_ok (db w) ->
  let '(res, _) := getUserReceipts userId w in
  let '(st, _) := getUserReceiptStats E userId w in
  exists l s,
    res = Ok l /\ st = Ok s
    /\ NoDup (List.map (fun x => r_id (receipt x)) l)
    /\ Permutation (List.map (fun x => r_id (receipt x)) l)
         (List.map ur_receipt_id (links_of (db w) userId))
    /\ List.length l = List.length (links_of (db w) userId)
    /\ totalReceipts s = List.length (links_of (db w) userId).
Proof.
  intros Hok. unfold getUserReceipts, getUserReceiptStats, bind, get_db, ret.
  simpl. eexists _, _. split; [reflexivity|]. split; [reflexivity|].
  assert (Hperm :
            Permutation
              (List.map (fun x => r_id (receipt x))
                 (select_user_receipts (db w) userId))
              (List.map ur_receipt_id (links_of (db w) userId))).
  { unfold select_user_receipts. rewrite List.map_map. simpl.
    rewrite <- (join_ids userId Hok).
    apply Permutation_map. apply Permutation_sym. apply order_by_perm. }
  split; [|split; [exact Hperm|split]].
  - apply (Permutation_NoDup (Permutation_sym Hperm)).
    apply links_of_receipts_distinct. apply (ok_links_pair Hok).
  - apply Permutation_length in Hperm. rewrite !length_map in Hperm.
    exact Hperm.
  - unfold select_user_receipt_stats. simpl.
    rewrite <- (length_map (fun row => row_id (fst row))).
    rewrite (join_ids userId Hok). apply length_map.
Qed.

Lemma listing_has_one_entry_per_link_witness :
  let '(res, _) := getUserReceipts sample_account twelve_receipts_world in
  let '(st, _) :=
    getUserReceiptStats plain_env sample_account twelve_receipts_world in
  exists l s,
    res = Ok l /\ st = Ok s
    /\ NoDup (List.map (fun x => r_id (receipt x)) l)
    /\ Permutation (List.map (fun x => r_id (receipt x)) l)
         (List.map ur_receipt_id
            (links_of (db twelve_receipts_world) sample_account))
    /\ List.length l
       = List.length (links_of (db twelve_receipts_world) sample_account)
    /\ totalReceipts s
       = List.length (links_of (db twelve_receipts_world) sample_account).
Proof.
  apply (@listing_has_one_entry_per_link plain_env sample_account
           twelve_receipts_world).
  apply check_db_ok. vm_compute. reflexivity.
Defined.

Lemma set_notes_keys (u r n : jsstring) (ur : UserReceipt) :
  ur_user_id (set_notes u r n ur) = ur_user_id ur
  /\ ur_receipt_id (set_notes u r n ur) = ur_receipt_id ur
  /\ ur_id (set_notes u r n ur) = ur_id ur
  /\ ur_added_at (set_notes u r n ur) = ur_added_at ur.
Proof.
  unfold set_notes.
  destruct ((ur_user_id ur =? u) && (ur_receipt_id ur =? r));
    repeat split; reflexivity.
Qed.

Lemma join_after_notes (d : DB) (u r n u' : jsstring) :
  join_user_receipts (update_notes_rows d u r n) u'
  = List.map (fun row => (fst row, set_notes u r n (snd row)))
      (join_user_receipts d u').
Proof.
  unfold join_user_receipts, update_notes_rows. simpl.
  change (fun ur =>
            if (ur_user_id ur =? u) && (ur_receipt_id ur =? r)
            then {| ur_id := ur_id ur; ur_user_id := ur_user_id ur;
                    ur_receipt_id := ur_receipt_id ur;
                    ur_added_at := ur_added_at ur; ur_notes := Some n |}
            else ur)
    with (set_notes u r n).
  induction (user_receipts d) as [|ur l IH]; simpl; [reflexivity|].
  destruct (set_notes_keys u r n ur) as (Hu & Hr & _).
  rewrite Hu. destruct (ur_user_id ur =? u'); simpl; [|exact IH].
  rewrite List.map_app, IH, Hr, List.map_map. reflexivity.
Qed.

Lemma notes_unlinked_same (d : DB) (u r n : jsstring) :
  linked d u r = false -> update_notes_rows d u r n = d.
Proof.
  intros Hl. unfold update_notes_rows, with_user_receipts.
  destruct d as [us rs its links ts]. simpl in *. f_equal.
  unfold linked in Hl. simpl in Hl.
  induction links as [|ur l IH]; simpl in *; [reflexivity|].
  apply orb_false_iff in Hl. destruct Hl as [H1 H2].
  rewrite H1. f_equal. apply IH. exact H2.
Qed.

(** X11.  [updateUserReceiptNotes] answers whether the account owns the
    receipt.  Afterwards the lookup of that receipt for that account reads
    the new notes (also when they are the empty string, which is stored as
    it is and not as null) and is otherwise as before, and every lookup for
    another account or another receipt reads what it read before; without
    an ownership link no table changes. *)
Theorem updateUserReceiptNotes_effect (userId receiptId n : jsstring)
  (w : world) :
  let '(res, w') := updateUserReceiptNotes userId receiptId n w in
  res = Ok (linked (db w) userId receiptId)
  /\ log w' = log w
  /\ (forall u r,
        exists before,
          fst (getUserReceiptById u r w) = Ok before
          /\ fst (getUserReceiptById u r w')
             = Ok (if (u =? userId) && (r =? receiptId)
                   then option_map (with_notes n) before
                   else before))
  /\ (linked (db w) userId receiptId = false -> db w' = db w).
Proof.
  unfold updateUserReceiptNotes, bind, get_db, put_db, ret. simpl.
  split; [reflexivity|]. split; [reflexivity|]. split.
  - intros u r. unfold getUserReceiptById, getReceiptItems, bind, get_db, ret.
    simpl. unfold select_user_receipt. rewrite join_after_notes, find_map.
    simpl.
    destruct (find _ (join_user_receipts (db w) u)) as [[rr ur]|] eqn:Hf;
      simpl.
    + eexists. split; [reflexivity|].
      apply find_some in Hf. destruct Hf as [Hin Hid]. simpl in Hid.
      apply jseqb_eq in Hid. apply in_join in Hin.
      destruct Hin as (_ & Hu & _ & Hk).
      destruct (set_notes_keys userId receiptId n ur) as (_ & _ & Hi & Ha).
      rewrite Hi, Ha. unfold set_notes.
      rewrite Hu, <- Hk, Hid.
      destruct ((u =? userId) && (r =? receiptId)); reflexivity.
    + eexists. split; [reflexivity|].
      destruct ((u =? userId) && (r =? receiptId)); reflexivity.
  - intros Hl. apply notes_unlinked_same. exact Hl.
Qed.

(** The account of chat 5 annotates its first receipt with the empty
    string; the account of chat 6 cannot annotate it. *)
Example notes_of_owner_only :
  let '(res, w') :=
    updateUserReceiptNotes sample_account (sample_uuid 9) []
      two_accounts_world in
  res = Ok true
  /\ (exists x,
         fst (getUserReceiptById sample_account (sample_uuid 9) w')
         = Ok (Some x)
         /\ notes x = Some [])
  /\ updateUserReceiptNotes second_account (sample_uuid 9) (lit "mine")
       two_accounts_world
     = (Ok false, two_accounts_world).
Proof.
  vm_compute. split; [reflexivity|]. split; [|reflexivity].
  eexists. split; reflexivity.
Qed.

(** [createReceiptForUser], step by step. *)
Lemma createReceiptForUser_unfold (E : env) (userId : jsstring)
  (a : ReceiptAnalysisResult) (notes raw : option jsstring) (w : world) :
  createReceiptForUser E userId a notes raw w
  = match createReceipt E a raw w with
    | (Ok r, w1) =>
        match linkReceiptToUser E userId (r_id r) notes w1 with
        | (Ok ur, w2) =>
            (Ok {| receipt := r; user_receipt_id := ur_id ur;
                   added_at := ur_added_at ur; notes := ur_notes ur |}, w2)
        | (Throw m, w2) => (Throw m, w2)
        end
    | (Throw m, w1) => (Throw m, w1)
    end.
Proof.
  unfold createReceiptForUser. rewrite bind_run.
  destruct (createReceipt E a raw w) as [[r|m] w1]; [|reflexivity].
  rewrite bind_run.
  destruct (linkReceiptToUser E userId (r_id r) notes w1) as [[ur|m] w2];
    reflexivity.
Qed.

(** X12.  Round trip of [createReceiptForUser]: when it returns under the
    constraints, the account exists, the returned receipt is the one
    [createReceipt] made, and [getUserReceiptById] for the account and
    the returned identifier reads the same link identifier, instant and
    notes ([notes || null]), the same receipt fields and the line items
    of the analysis; the listing of the account has one entry more. *)
Theorem createReceiptForUser_then_lookup (E : env) (userId : jsstring)
  (a : ReceiptAnalysisResult) (n raw : option jsstring) (w w' : world)
  (saved : UserReceiptWithDetails) :
  db_ok (db w) ->
  createReceiptForUser E userId a n raw w = (Ok saved, w') ->
  registered (db w) userId = true
  /\ receipt saved = created_receipt E (tick w) a raw
  /\ notes saved = or_null n
  /\ (exists its,
         getUserReceiptById userId (r_id (receipt saved)) w'
         = (Ok (Some
                  {| receipt :=
                       rowToReceipt (receiptToRow (receipt saved)) its;
                     user_receipt_id := user_receipt_id saved;
                     added_at := added_at saved;
                     notes := notes saved |}),
            w')
         /\ Forall2 same_item its (a_items a))
  /\ List.length (select_user_receipts (db w') userId)
     = S (List.length (select_user_receipts (db w) userId)).
Proof.
  intros Hok Hrun. rewrite createReceiptForUser_unfold in Hrun.
  destruct (createReceipt E a raw w) as [[r|m] w1] eqn:Hcreate;
    [|discriminate].
  destruct (@created_receipt_read_back E a raw w w1 r Hok Hcreate)
    as (Hr & Hrow & Hits & Hus & Hlinks & Hlog1 & Hst).
  assert (Hok1 : db_ok (db w1)).
  { pose proof (@keeps_createReceipt E a raw w Hok) as K.
    rewrite Hcreate in K. exact K. }
  assert (Hok2 : db_ok (db (snd (linkReceiptToUser E userId (r_id r) n w1))))
    by apply (@keeps_linkReceiptToUser E userId (r_id r) n w1 Hok1).
  rewrite linkReceiptToUser_run in Hrun, Hok2. cbv zeta in Hrun, Hok2.
  destruct (existsb _ (user_receipts (db w1))); [discriminate|].
  destruct (linked (db w1) userId (r_id r)); [discriminate|].
  destruct (registered (db w1) userId) eqn:Hreg; [|discriminate].
  destruct (stored (db w1) (r_id r)); [|discriminate].
  cbn [negb orb] in Hrun, Hok2. cbn [snd db] in Hok2.
  injection Hrun as Hsaved Hw. subst saved w'.
  set (ur := created_link E (tick w1) userId (r_id r) n) in *.
  set (d2 := with_user_receipts (db w1) (user_receipts (db w1) ++ [ur])) in *.
  cbn [receipt notes user_receipt_id added_at db].
  split; [|split; [exact Hr|split; [reflexivity|split]]].
  - unfold registered in *. rewrite <- Hus. exact Hreg.
  - exists (List.map rowToReceiptItem
              (item_rows E (r_id r) (S (S (tick w))) (a_items a))).
    split; [|apply item_rows_same; exact Hst].
    assert (Hin : In (receiptToRow r, ur) (join_user_receipts d2 userId)).
    { apply in_join. unfold d2. cbn [user_receipts receipts
        with_user_receipts].
      split; [apply in_or_app; right; left; reflexivity|].
      split; [reflexivity|].
      split; [|reflexivity].
      unfold select_receipt in Hrow. apply find_some in Hrow. apply Hrow. }
    unfold getUserReceiptById, getReceiptItems, bind, get_db, ret.
    cbn [db]. unfold select_user_receipt.
    destruct (find (fun row0 => row_id (fst row0) =? r_id r)
                (join_user_receipts d2 userId)) as [row2|] eqn:Hf.
    + assert (row2 = (receiptToRow r, ur)).
      { apply find_some in Hf. destruct Hf as [Hin2 Hid2].
        apply jseqb_eq in Hid2.
        apply (@join_row_unique d2 userId (r_id r) row2 (receiptToRow r, ur)
                 Hok2 Hin2 Hin Hid2 eq_refl). }
      subst row2. cbn [fst snd row_id receiptToRow].
      assert (Hd2 : select_getReceiptItems d2 (r_id r)
                    = select_getReceiptItems (db w1) (r_id r)) by reflexivity.
      cbn [db]. rewrite Hd2, Hits. reflexivity.
    + pose proof (find_none _ _ Hf _ Hin) as Hn. cbn [fst] in Hn.
      change (row_id (receiptToRow r)) with (r_id r) in Hn.
      rewrite jseqb_refl in Hn. discriminate.
  - rewrite (listing_length userId Hok2), (listing_length userId Hok).
    unfold links_of, d2.
    cbn [user_receipts with_user_receipts]. rewrite Hlinks.
    rewrite filter_app, length_app. cbn [filter ur_user_id ur created_link].
    rewrite jseqb_refl. simpl. lia.
Qed.

Lemma createReceiptForUser_then_lookup_witness :
  let run :=
    createReceiptForUser shopping_env sample_account shopping
      (Some (lit "weekly")) None one_receipt_world in
  exists saved,
    fst run = Ok saved
    /\ registered (db one_receipt_world) sample_account = true
    /\ notes saved = Some (lit "weekly")
    /\ List.length (select_user_receipts (db (snd run)) sample_account)
       = S (List.length
              (select_user_receipts (db one_receipt_world) sample_account)).
Proof.
  cbv zeta.
  destruct (createReceiptForUser shopping_env sample_account shopping
              (Some (lit "weekly")) None one_receipt_world)
    as [[saved|m] w'] eqn:Hrun; [|vm_compute in Hrun; discriminate].
  assert (Hok : db_ok (db one_receipt_world)).
  { apply check_db_ok. vm_compute. reflexivity. }
  destruct (@createReceiptForUser_then_lookup shopping_env sample_account
              shopping (Some (lit "weekly")) None one_receipt_world w' saved
              Hok Hrun) as (Hreg & _ & Hnotes & _ & Hlen).
  exists saved. cbn [fst snd]. auto.
Defined.

(** X13.  [createReceiptForUser] is not one transaction.  When the
    account does not exist and [createReceipt] finds its identifiers
    unused, the call throws.  If the analysis can be stored ([items] is an
    array whose items have their NOT NULL fields), it throws when it
    inserts the ownership link (its FOREIGN KEY cannot hold), and the
    receipt and its line items stay stored without an owner: no link is
    added.  Otherwise it throws inside [createReceipt], and the tables
    are as they were. *)
Theorem createReceiptForUser_unknown_account (E : env) (userId : jsstring)
  (a : ReceiptAnalysisResult) (n raw : option jsstring) (w : world) :
  registered (db w) userId = false ->
  stored (db w) (crypto_randomUUID E (tick w)) = false ->
  fresh_ids (List.map ri_id (receipt_items (db w)))
    (item_ids E (S (S (tick w))) (a_items a)) = true ->
  let '(res, w') := createReceiptForUser E userId a n raw w in
  let r := created_receipt E (tick w) a raw in
  (exists m, res = Throw m)
  /\ (if storable_items a
      then receipts (db w') = receipts (db w) ++ [receiptToRow r]
           /\ receipt_items (db w')
              = receipt_items (db w)
                ++ item_rows E (r_id r) (S (S (tick w))) (a_items a)
      else db w' = db w)
  /\ user_receipts (db w') = user_receipts (db w)
  /\ log w' = log w.
Proof.
  intros Hreg Hst Hfresh. rewrite createReceiptForUser_unfold.
  pose proof (createReceipt_run E a raw w) as H. cbv zeta in H.
  cbn [r_id created_receipt] in H. unfold stored in Hst.
  rewrite Hst, Hfresh in H. cbn [negb andb] in H.
  destruct (storable_items a); cbn [andb] in H.
  2:{ destruct H as (m & t' & ->). cbn [db log].
      split; [eexists; reflexivity|]. repeat split; reflexivity. }
  destruct H as [H _]. rewrite H.
  rewrite linkReceiptToUser_run. cbv zeta. cbn [db tick log user_receipts].
  unfold registered at 1. cbn [users]. unfold registered in Hreg.
  rewrite Hreg. cbn [negb orb].
  destruct (existsb _ (user_receipts (db w)));
    [|destruct (linked _ _ _)]; cbn [db tick log receipts receipt_items
                                      user_receipts r_id];
    (split; [eexists; reflexivity|]); repeat split; reflexivity.
Qed.

Lemma createReceiptForUser_unknown_account_witness :
  let '(res, w') :=
    createReceiptForUser shopping_env (lit "nobody") shopping None None
      one_receipt_world in
  let r := created_receipt shopping_env (tick one_receipt_world) shopping
             None in
  (exists m, res = Throw m)
  /\ (receipts (db w') = receipts (db one_receipt_world) ++ [receiptToRow r]
      /\ receipt_items (db w')
         = receipt_items (db one_receipt_world)
           ++ item_rows shopping_env (r_id r)
                (S (S (tick one_receipt_world))) (a_items shopping))
  /\ user_receipts (db w') = user_receipts (db one_receipt_world)
  /\ log w' = log one_receipt_world.
Proof.
  apply (@createReceiptForUser_unknown_account shopping_env (lit "nobody")
           shopping None None one_receipt_world).
  - vm_compute. reflexivity.
  - vm_compute. reflexivity.
  - vm_compute. reflexivity.
Defined.

(** ** Accounts and keys *)

Lemma createUser_run (E : env) (email password name : jsstring) (w : world) :
  createUser E email password name w
  = let u := created_user E (tick w) email password name in
    let w3 := {| db := db w; tick := S (S (S (tick w))); log := log w |} in
    if registered (db w) (u_id u)
    then (Throw (lit "UNIQUE constraint failed: users.id"), w3)
    else if email_taken (db w) email
    then (Throw (lit "UNIQUE constraint failed: users.email"), w3)
    else (Ok u,
          {| db := with_users (db w) (users (db w) ++ [u]);
             tick := S (S (S (tick w))); log := log w |}).
Proof.
  cbv zeta.
  unfold createUser, insert_user, randomUUID, hashPassword, toISOString_now,
    draw, get_db, bind, throw, put_db, ret, registered, email_taken,
    created_user.
  simpl.
  destruct (existsb _ (users (db w))); [reflexivity|].
  destruct (existsb _ (users (db w))); reflexivity.
Qed.

(** X14.  [createUser] keeps e-mail addresses unique.  With an address
    that an account already has it throws and changes nothing.  When it
    returns, the account carries the address and the name as given, both
    finders return it ([findUserByEmail] under the address,
    [findUserById] under the new identifier), and every other address is
    found as before. *)
Theorem createUser_unique_email (E : env) (email password name : jsstring)
  (w : world) :
  let '(res, w') := createUser E email password name w in
  log w' = log w
  /\ match res with
     | Ok u =>
         email_taken (db w) email = false
         /\ u_email u = email /\ u_name u = name
         /\ findUserByEmail email w' = (Ok (Some u), w')
         /\ findUserById (u_id u) w' = (Ok (Some u), w')
         /\ (forall other, other <> email ->
               fst (findUserByEmail other w') = fst (findUserByEmail other w))
     | Throw _ => db w' = db w
     end
  /\ (email_taken (db w) email = true -> exists m, res = Throw m).
Proof.
  rewrite createUser_run. cbv zeta.
  destruct (registered (db w) _) eqn:Hid.
  { simpl. split; [reflexivity|]. split; [reflexivity|]. eauto. }
  destruct (email_taken (db w) email) eqn:Hem.
  { simpl. split; [reflexivity|]. split; [reflexivity|]. eauto. }
  cbn [log]. split; [reflexivity|]. split; [|discriminate].
  split; [reflexivity|]. split; [reflexivity|]. split; [reflexivity|].
  unfold findUserByEmail, findUserById, select_user_by_email,
    select_user_by_id, bind, get_db, ret.
  cbn [db users with_users fst].
  split; [|split].
  - f_equal. f_equal.
    apply find_app_none; [|apply jseqb_refl].
    apply existsb_false_find. exact Hem.
  - f_equal. f_equal.
    apply find_app_none; [|apply jseqb_refl].
    apply existsb_false_find. exact Hid.
  - intros other Hne. f_equal.
    induction (users (db w)) as [|x l IH]; simpl.
    + assert (H : (email =? other) = false).
      { apply jseqb_neq. congruence. }
      rewrite H. reflexivity.
    + destruct (u_email x =? other); [reflexivity|exact IH].
Qed.

(** The placeholder address of chat 5 is taken: a second account with it
    is refused. *)
Example second_account_same_email :
  createUser plain_env (lit "tg_5@telegram.local") (lit "pw") (lit "Bob")
    one_receipt_world
  = (Throw (lit "UNIQUE constraint failed: users.email"),
     {| db := db one_receipt_world; tick := 17; log := log one_receipt_world |}).
Proof. vm_compute. reflexivity. Qed.

Lemma find_map_same {A} (p : A -> bool) (f : A -> A) (l : list A) :
  (forall x, p (f x) = p x) ->
  find p (List.map f l) = option_map f (find p l).
Proof.
  intros H. induction l as [|x l IH]; simpl; [reflexivity|].
  rewrite H. destruct (p x); [reflexivity|exact IH].
Qed.

Lemma api_key_absent_same (d : DB) (chatId k : jsstring) :
  has_session d chatId = false -> update_api_key d chatId k = d.
Proof.
  intros Hl. unfold update_api_key, with_telegram_users.
  destruct d as [us rs its links ts]. simpl in *. f_equal.
  unfold has_session in Hl. simpl in Hl.
  induction ts as [|t l IH]; simpl in *; [reflexivity|].
  apply orb_false_iff in Hl. destruct Hl as [H1 H2].
  rewrite H1. f_equal. apply IH. exact H2.
Qed.

(** X15.  Round trip of [setGoogleApiKey] and [getGoogleApiKey].  The
    setter answers whether the chat has a session and touches no other
    table.  Afterwards the getter reads the new key for that chat when it
    has a session (null when the key stored is the empty string) and
    what it read before for every other chat; a chat without a session
    gets no key and no table changes. *)
Theorem setGoogleApiKey_then_get (chatId key : jsstring) (w : world) :
  let '(res, w') := setGoogleApiKey chatId key w in
  res = Ok (has_session (db w) chatId)
  /\ log w' = log w
  /\ users (db w') = users (db w)
  /\ receipt_store_unchanged (db w) (db w')
  /\ (forall c,
        exists before,
          fst (getGoogleApiKey c w) = Ok before
          /\ fst (getGoogleApiKey c w')
             = Ok (if (c =? chatId) && has_session (db w) chatId
                   then (if truthy key then Some key else None)
                   else before))
  /\ (has_session (db w) chatId = false -> db w' = db w).
Proof.
  unfold setGoogleApiKey, bind, get_db, put_db, ret. simpl.
  split; [reflexivity|]. split; [reflexivity|]. split; [reflexivity|].
  split; [repeat split; reflexivity|]. split.
  - intros c. unfold getGoogleApiKey, findTelegramUser, bind, get_db, ret.
    simpl. eexists. split; [reflexivity|]. f_equal.
    unfold select_telegram_user, update_api_key. simpl.
    rewrite find_map_same.
    2:{ intros t. destruct (chat_id t =? chatId); reflexivity. }
    destruct (find (fun t => chat_id t =? c) (telegram_users (db w)))
      as [t|] eqn:Hf; simpl.
    + apply find_some in Hf. destruct Hf as [Hin Hc].
      apply jseqb_eq in Hc. rewrite Hc.
      destruct (c =? chatId) eqn:Hcc; simpl.
      * assert (Hs : has_session (db w) chatId = true).
        { apply existsb_exists. exists t. split; [exact Hin|].
          rewrite Hc. exact Hcc. }
        rewrite Hs. reflexivity.
      * reflexivity.
    + destruct (c =? chatId) eqn:Hcc; simpl; [|reflexivity].
      apply jseqb_eq in Hcc. subst c.
      assert (Hs : has_session (db w) chatId = false).
      { apply find_none_existsb. exact Hf. }
      rewrite Hs. reflexivity.
  - apply api_key_absent_same.
Qed.

(** Chat 5 replaces its key; chat 7 has no session. *)
Example key_of_chat_replaced :
  let '(res, w') := setGoogleApiKey (lit "5") (lit "NEW") one_receipt_world in
  res = Ok true
  /\ fst (getGoogleApiKey (lit "5") one_receipt_world) = Ok (Some (lit "KEY"))
  /\ fst (getGoogleApiKey (lit "5") w') = Ok (Some (lit "NEW"))
  /\ setGoogleApiKey (lit "7") (lit "NEW") one_receipt_world
     = (Ok false, one_receipt_world)
  /\ fst (getGoogleApiKey (lit "5")
            (snd (setGoogleApiKey (lit "5") [] one_receipt_world)))
     = Ok None.
Proof. vm_compute. repeat split; reflexivity. Qed.

(** ** Calls to the model *)

Lemma emits_silent (P : event -> Prop) {A} (c : M A) :
  silent c -> emits P c.
Proof.
  intros H w. exists []. rewrite app_nil_r. split; [apply H|constructor].
Qed.

Lemma emits_ret (P : event -> Prop) {A} (a : A) : emits P (ret a).
Proof. apply emits_silent, silent_ret. Qed.

Lemma emits_throw (P : event -> Prop) {A} (m : jsstring) :
  emits P (@throw A m).
Proof. apply emits_silent, silent_throw. Qed.

Lemma emits_call (P : event -> Prop) {A} (f : nat -> result A)
  (ev : result A -> event) :
  (forall out, P (ev out)) -> emits P (call f ev).
Proof.
  intros H w. unfold call. simpl. eexists. split; [reflexivity|].
  constructor; [apply H|constructor].
Qed.

Lemma emits_bind (P : event -> Prop) {A B} (c : M A) (k : A -> M B) :
  emits P c -> (forall a, emits P (k a)) -> emits P (bind c k).
Proof.
  intros Hc Hk w. unfold bind. destruct (Hc w) as (e1 & H1 & F1).
  destruct (c w) as [[a|m] w1]; simpl in *.
  - destruct (Hk a w1) as (e2 & H2 & F2). exists (e1 ++ e2).
    rewrite H2, H1, app_assoc. split; [reflexivity|].
    apply Forall_app. split; assumption.
  - exists e1. auto.
Qed.

Lemma emits_try_catch (P : event -> Prop) {A} (c : M A)
  (h : jsstring -> M A) :
  emits P c -> (forall m, emits P (h m)) -> emits P (try_catch c h).
Proof.
  intros Hc Hh w. unfold try_catch. destruct (Hc w) as (e1 & H1 & F1).
  destruct (c w) as [[a|m] w1]; simpl in *.
  - exists e1. auto.
  - destruct (Hh m w1) as (e2 & H2 & F2). exists (e1 ++ e2).
    rewrite H2, H1, app_assoc. split; [reflexivity|].
    apply Forall_app. split; assumption.
Qed.

Lemma emits_if (P : event -> Prop) {A} (b : bool) (c1 c2 : M A) :
  emits P c1 -> emits P c2 -> emits P (if b then c1 else c2).
Proof. destruct b; auto. Qed.

Lemma emits_weaken (P Q : event -> Prop) {A} (c : M A) :
  (forall ev, P ev -> Q ev) -> emits P c -> emits Q c.
Proof.
  intros H Hc w. destruct (Hc w) as (evs & Hl & F). exists evs.
  split; [exact Hl|]. eapply Forall_impl; eauto.
Qed.

Lemma silent_findTelegramUser (chatId : jsstring) :
  silent (findTelegramUser chatId).
Proof. intros w. reflexivity. Qed.

Lemma silent_getOrCreateTelegramUser (E : env) (chatId name : jsstring) :
  silent (getOrCreateTelegramUser E chatId name).
Proof.
  intros w.
  pose proof (getOrCreateTelegramUser_cases E chatId name w) as H.
  destruct (getOrCreateTelegramUser E chatId name w) as [r w'].
  apply H.
Qed.

Lemma silent_store_reads (userId : jsstring) :
  silent (getUserReceipts userId).
Proof. intros w; reflexivity. Qed.

Lemma silent_getUserReceiptStats (E : env) (userId : jsstring) :
  silent (getUserReceiptStats E userId).
Proof. intros w; reflexivity. Qed.

Lemma silent_store_writes (chatId key userId receiptId : jsstring) :
  silent (setGoogleApiKey chatId key)
  /\ silent (unlinkReceiptFromUser userId receiptId)
  /\ silent (deleteReceipt receiptId).
Proof. repeat split; intros w; reflexivity. Qed.

Ltac emits_step E :=
  first
    [ apply emits_ret | apply emits_throw
    | apply emits_call; intros; exact I
    | apply emits_silent;
      first [ apply silent_findTelegramUser
            | apply silent_getOrCreateTelegramUser
            | apply silent_store_reads
            | apply silent_getUserReceiptStats
            | apply silent_store_writes
            | apply silent_createReceiptForUser ]
    | apply emits_try_catch; [|intros]
    | apply emits_bind; [|intros]
    | apply emits_if
    | match goal with
      | |- emits _ (match ?x with _ => _ end) => destruct x
      end ].

Section Telling.

Variable E : env.

Lemma emits_non_null (P : event -> Prop) {A} (o : option A) :
  emits P (non_null o).
Proof. destruct o; [apply emits_ret|apply emits_throw]. Qed.

(** The handlers of the commands never call the model. *)
Lemma commands_call_no_model (msg : TgMessage) (p : jsstring) :
  emits no_model_call (handleStart E msg)
  /\ emits no_model_call (handleSetKey E msg)
  /\ emits no_model_call (handleStats E msg)
  /\ emits no_model_call (handleHistory E msg)
  /\ emits no_model_call (handleReceiptDetail E msg p)
  /\ emits no_model_call (handleDelete E msg)
  /\ emits no_model_call (handleHelp E msg)
  /\ emits no_model_call (sendMessage E (msg_chat_id msg) ReplyUnknownCommand).
Proof.
  unfold handleStart, handleSetKey, handleStats, handleHistory,
    handleReceiptDetail, handleDelete, handleHelp, sendMessage.
  repeat match goal with |- _ /\ _ => split end; repeat emits_step E.
Qed.

(** Behind the credential check both analysis paths call the model with
    the key of the session, when that key is not empty: the fallback of
    [createGeminiModel] to the key of the server is not taken. *)
Lemma bodies_use_key (msg : TgMessage) (user : TelegramUser) (k : jsstring) :
  google_api_key user = Some k -> truthy k = true ->
  emits (model_key_is k) (photo_body E msg user)
  /\ emits (model_key_is k) (text_body E msg user).
Proof.
  intros Hk Ht.
  assert (Hkey : createGeminiModel E (google_api_key user) = k).
  { unfold createGeminiModel. rewrite Hk. simpl. unfold or_else.
    rewrite Ht. reflexivity. }
  assert (Hstore : forall chat on_error n raw,
             emits (model_key_is k)
               (store_analysis E chat user on_error n raw)).
  { intros. unfold store_analysis, sendMessage. repeat emits_step E. }
  split.
  - unfold photo_body, largest_photo, getFile, downloadFileBuffer,
      analyzeReceiptImage, sendMessage.
    apply emits_try_catch; [|intros; repeat emits_step E].
    apply emits_bind; [destruct (msg_photo msg); apply emits_non_null|].
    intros largest. apply emits_bind; [repeat emits_step E|]. intros file.
    destruct (or_null (file_path file)); [|repeat emits_step E].
    apply emits_bind; [repeat emits_step E|]. intros buffer.
    apply emits_bind; [repeat emits_step E|]. intros _.
    apply emits_bind; [|intros; apply Hstore].
    apply emits_call. intros out. simpl. exact Hkey.
  - unfold text_body, generateContent_text, sendMessage.
    apply emits_try_catch; [|intros; repeat emits_step E].
    apply emits_bind; [|intros; apply Hstore].
    apply emits_call. intros out. simpl. exact Hkey.
Qed.

Lemma no_model_call_uses_key (d : DB) (chat : Z) (ev : event) :
  no_model_call ev -> uses_session_key d chat ev.
Proof. destruct ev; simpl; tauto. Qed.

Lemma emits_from_start (P : event -> Prop) {A} (c : M A) (d : DB) (t : nat) :
  emits P c -> Forall P (log (snd (c (start d t)))).
Proof.
  intros H. destruct (H (start d t)) as (evs & Hl & F).
  rewrite Hl. exact F.
Qed.

Lemma with_credential_uses_key (msg : TgMessage)
  (body : TelegramUser -> M unit) (d : DB) (t : nat) :
  (forall user k,
      google_api_key user = Some k -> truthy k = true ->
      emits (model_key_is k) (body user)) ->
  Forall (uses_session_key d (msg_chat_id msg))
    (log (snd (with_credential E msg body (start d t)))).
Proof.
  intros Hbody.
  pose proof (with_credential_cases E msg body d t) as H. cbv zeta in H.
  destruct (with_credential E msg body (start d t)) as [r w'].
  cbn [snd].
  destruct (select_telegram_user d (of_Z (msg_chat_id msg))) as [s|] eqn:Hsel.
  - destruct (truthy_opt (google_api_key s)) eqn:Htr.
    + destruct (google_api_key s) as [k|] eqn:Hk; [|discriminate].
      simpl in Htr.
      destruct (telegram_sendChatAction E t (msg_chat_id msg) (lit "typing")).
      * destruct (Hbody s k Hk Htr
                    {| db := d; tick := S t;
                       log := [EvSendChatAction (msg_chat_id msg)
                                 (lit "typing")] |})
          as (evs & Hl & F).
        rewrite <- H in Hl. cbn [snd log] in Hl. rewrite Hl.
        constructor; [exact I|].
        eapply Forall_impl; [|exact F].
        intros ev Hev. destruct ev; simpl in *; try exact I;
          subst; exists s; auto.
      * destruct H as (_ & _ & Hl). rewrite Hl. repeat constructor.
    + destruct H as [_ Hl]. rewrite Hl. repeat constructor.
  - destruct H as [(m & _ & _ & Hl)|(u & s & _ & _ & _ & Hl)];
      rewrite Hl; repeat constructor.
Qed.

End Telling.

(** X16.  Whatever message arrives, every call to the model that
    [handleMessage] makes carries the key stored for the session of the
    chat the message came from, and that key is not empty: the model is
    never called for a chat without a stored key, never with the key of
    another chat, and never with the key of the server that
    [createGeminiModel] falls back to. *)
Theorem model_called_with_session_key (E : env) (msg : TgMessage) (d : DB)
  (t : nat) :
  let '(_, w') := handleMessage E msg (start d t) in
  Forall (uses_session_key d (msg_chat_id msg)) (log w').
Proof.
  assert (Hcmd : forall c : M unit,
             emits no_model_call c ->
             Forall (uses_session_key d (msg_chat_id msg))
               (log (snd (c (start d t))))).
  { intros c Hc. apply emits_from_start.
    eapply emits_weaken; [|exact Hc]. apply no_model_call_uses_key. }
  destruct (commands_call_no_model E msg [])
    as (Hstart & Hsetkey & Hstats & Hhistory & _ & Hdelete & Hhelp & Hunknown).
  destruct (handleMessage E msg (start d t)) as [r w'] eqn:Hrun.
  change w' with (snd (r, w')). rewrite <- Hrun. clear Hrun.
  unfold handleMessage.
  destruct (startsWith _ (lit "/start")); [apply Hcmd, Hstart|].
  destruct (startsWith _ (lit "/setkey")); [apply Hcmd, Hsetkey|].
  destruct (startsWith _ (lit "/stats")); [apply Hcmd, Hstats|].
  destruct (startsWith _ (lit "/history")); [apply Hcmd, Hhistory|].
  destruct (startsWith _ (lit "/delete")); [apply Hcmd, Hdelete|].
  destruct (startsWith _ (lit "/help")); [apply Hcmd, Hhelp|].
  destruct (receiptMatch (text_of msg)) as [p|].
  { apply Hcmd. apply (commands_call_no_model E msg p). }
  destruct (has_photo msg).
  { rewrite handlePhoto_gate. apply with_credential_uses_key.
    intros user k Hk Ht. apply (bodies_use_key E msg user Hk Ht). }
  destruct (truthy (text_of msg) && negb (startsWith (text_of msg) (lit "/"))).
  { rewrite handleTextReceipt_gate. apply with_credential_uses_key.
    intros user k Hk Ht. apply (bodies_use_key E msg user Hk Ht). }
  destruct (startsWith (text_of msg) (lit "/")); [apply Hcmd, Hunknown|].
  constructor.
Qed.

(** A photo from chat 5, whose key is KEY, calls the model once, with
    KEY. *)
Example photo_analysed_with_own_key :
  List.filter
    (fun ev => match ev with EvAnalyzeImage _ _ _ => true | _ => false end)
    (log (snd (handleMessage shopping_env (photo_message 5)
                 (start (db one_receipt_world) 20))))
  = [EvAnalyzeImage (lit "data:image/jpeg;base64,/9j/") (lit "KEY")
       (Ok (lit "{}"))].
Proof. vm_compute. reflexivity. Qed.

(** ** Routes that read, routes that write *)

Lemma reads_only_ret {A} (a : A) : reads_only (ret a).
Proof. intros w. reflexivity. Qed.

Lemma reads_only_call {A} (f : nat -> result A) (ev : result A -> event) :
  reads_only (call f ev).
Proof. intros w. reflexivity. Qed.

Lemma reads_only_get_db : reads_only get_db.
Proof. intros w. reflexivity. Qed.

Lemma reads_only_bind {A B} (c : M A) (k : A -> M B) :
  reads_only c -> (forall a, reads_only (k a)) -> reads_only (bind c k).
Proof.
  intros Hc Hk w. unfold bind. specialize (Hc w).
  destruct (c w) as [[a|m] w1]; simpl in *; [|exact Hc].
  rewrite Hk. exact Hc.
Qed.

Lemma reads_only_if {A} (b : bool) (c1 c2 : M A) :
  reads_only c1 -> reads_only c2 -> reads_only (if b then c1 else c2).
Proof. destruct b; auto. Qed.

Ltac reads_step :=
  first
    [ apply reads_only_ret | apply reads_only_call | apply reads_only_get_db
    | apply reads_only_bind; [|intros]
    | apply reads_only_if
    | match goal with
      | |- reads_only (match ?x with _ => _ end) => destruct x
      end ].

Section Reading.

Variable E : env.

Lemma reading_handlers (msg : TgMessage) (p : jsstring) :
  reads_only (handleStats E msg)
  /\ reads_only (handleHistory E msg)
  /\ reads_only (handleReceiptDetail E msg p)
  /\ reads_only (handleHelp E msg)
  /\ reads_only (sendMessage E (msg_chat_id msg) ReplyUnknownCommand).
Proof.
  unfold handleStats, handleHistory, handleReceiptDetail, handleHelp,
    findTelegramUser, getUserReceiptStats, getUserReceipts, sendMessage.
  repeat match goal with |- _ /\ _ => split end; repeat reads_step.
Qed.

End Reading.

(** X17.  Only five routes write.  If handling a message changes any
    table, then its text begins with [/start], [/setkey] or [/delete], or
    it carries a photo, or it is free text (not empty, not beginning with
    a slash): [/stats], [/history], [/help], [/receipt...], an unknown
    command and a message with nothing in it leave the tables as they
    are. *)
Theorem only_five_routes_write (E : env) (msg : TgMessage) (w : world) :
  db (snd (handleMessage E msg w)) <> db w ->
  startsWith (text_of msg) (lit "/start") = true
  \/ startsWith (text_of msg) (lit "/setkey") = true
  \/ startsWith (text_of msg) (lit "/delete") = true
  \/ has_photo msg = true
  \/ (truthy (text_of msg) = true
      /\ startsWith (text_of msg) (lit "/") = false).
Proof.
  unfold handleMessage. intros Hw.
  destruct (reading_handlers E msg []) as (Hstats & Hhist & _ & Hhelp & Hunk).
  destruct (startsWith _ (lit "/start")); [auto|].
  destruct (startsWith _ (lit "/setkey")); [auto|].
  destruct (startsWith _ (lit "/stats")); [elim Hw; apply Hstats|].
  destruct (startsWith _ (lit "/history")); [elim Hw; apply Hhist|].
  destruct (startsWith _ (lit "/delete")); [auto|].
  destruct (startsWith _ (lit "/help")); [elim Hw; apply Hhelp|].
  destruct (receiptMatch (text_of msg)) as [p|].
  { elim Hw. apply (reading_handlers E msg p). }
  destruct (has_photo msg); [auto 6|].
  destruct (truthy (text_of msg));
    destruct (startsWith (text_of msg) (lit "/")); cbn [andb negb] in Hw.
  - elim Hw. apply Hunk.
  - auto 6.
  - elim Hw. apply Hunk.
  - elim Hw. reflexivity.
Qed.

Lemma only_five_routes_write_witness :
  let msg := text_message 5 "tea 2" in
  startsWith (text_of msg) (lit "/start") = true
  \/ startsWith (text_of msg) (lit "/setkey") = true
  \/ startsWith (text_of msg) (lit "/delete") = true
  \/ has_photo msg = true
  \/ (truthy (text_of msg) = true
      /\ startsWith (text_of msg) (lit "/") = false).
Proof.
  apply (@only_five_routes_write plain_env (text_message 5 "tea 2")
           one_receipt_world).
  vm_compute. discriminate.
Defined.

Section Commands.

Variable E : env.

(** X18.  [/stats], [/history], [/delete] and [/receipt...] do nothing
    for a chat that has no session: they provision no account, write
    nothing and send the one reply that asks to register first. *)
Theorem commands_need_registration (msg : TgMessage) (d : DB) (t : nat) :
  select_telegram_user d (of_Z (msg_chat_id msg)) = None ->
  startsWith (text_of msg) (lit "/stats") = true
  \/ startsWith (text_of msg) (lit "/history") = true
  \/ startsWith (text_of msg) (lit "/delete") = true
  \/ receiptMatch (text_of msg) <> None ->
  let chat := msg_chat_id msg in
  handleMessage E msg (start d t)
  = (telegram_sendMessage E t chat ReplyRegisterFirst,
     {| db := d; tick := S t;
        log := [EvSendMessage chat ReplyRegisterFirst] |}).
Proof.
  intros Hsel Hcmd. cbv zeta.
  destruct Hcmd as [H|[H|[H|H]]].
  - rewrite (handleMessage_stats E msg H).
    unfold handleStats, findTelegramUser, bind, get_db, ret. simpl.
    rewrite Hsel. reflexivity.
  - rewrite (handleMessage_history E msg H).
    unfold handleHistory, findTelegramUser, bind, get_db, ret. simpl.
    rewrite Hsel. reflexivity.
  - rewrite (handleMessage_delete E msg H).
    unfold handleDelete, findTelegramUser, bind, get_db, ret. simpl.
    rewrite Hsel. reflexivity.
  - destruct (receiptMatch (text_of msg)) as [p|] eqn:Hp; [|congruence].
    rewrite (handleMessage_receipt E msg Hp).
    unfold handleReceiptDetail, findTelegramUser, bind, get_db, ret. simpl.
    rewrite Hsel. reflexivity.
Qed.

End Commands.

Lemma commands_need_registration_witness :
  handleMessage plain_env (text_message 6 "/delete abc") (start keyed_db 9)
  = (telegram_sendMessage plain_env 9 6 ReplyRegisterFirst,
     {| db := keyed_db; tick := 10;
        log := [EvSendMessage 6 ReplyRegisterFirst] |}).
Proof.
  apply (@commands_need_registration plain_env
           (text_message 6 "/delete abc") keyed_db 9).
  - vm_compute. reflexivity.
  - right. right. left. vm_compute. reflexivity.
Defined.

Lemma insert_telegram_user_run (s : TelegramUser) (w : world) :
  insert_telegram_user s w
  = if has_session (db w) (chat_id s)
    then (Throw (lit "UNIQUE constraint failed: telegram_users.chat_id"), w)
    else if negb (registered (db w) (user_id s))
    then (Throw (lit "FOREIGN KEY constraint failed"), w)
    else (Ok tt,
          {| db := with_telegram_users (db w) (telegram_users (db w) ++ [s]);
             tick := tick w; log := log w |}).
Proof.
  unfold insert_telegram_user, get_db, bind, throw, put_db, has_session,
    registered. simpl.
  destruct (existsb _ (telegram_users (db w))); [reflexivity|].
  destruct (existsb _ (users (db w))); reflexivity.
Qed.

(** [createTelegramUser] for a chat without a session, step by step. *)
Lemma createTelegramUser_run (E : env) (chatId name : jsstring) (w : world) :
  has_session (db w) chatId = false ->
  createTelegramUser E chatId name w
  = let u := created_user E (S (tick w)) (placeholder_email chatId)
               (crypto_randomUUID E (tick w)) name in
    let s := created_session E (tick w) chatId in
    if registered (db w) (u_id u)
    then (Throw (lit "UNIQUE constraint failed: users.id"),
          {| db := db w; tick := 4 + tick w; log := log w |})
    else if email_taken (db w) (placeholder_email chatId)
    then (Throw (lit "UNIQUE constraint failed: users.email"),
          {| db := db w; tick := 4 + tick w; log := log w |})
    else (Ok s,
          {| db := provisioned (db w) u s; tick := 5 + tick w;
             log := log w |}).
Proof.
  intros Hs. cbv zeta. unfold createTelegramUser.
  rewrite bind_run. unfold randomUUID at 1. unfold draw at 1.
  rewrite bind_run, createUser_run. cbv zeta. cbn [db tick log].
  fold (placeholder_email chatId).
  destruct (registered (db w) _); [reflexivity|].
  destruct (email_taken (db w) _); [reflexivity|].
  rewrite bind_run. unfold toISOString_now, draw at 1. cbn [db tick log].
  rewrite bind_run, insert_telegram_user_run.
  unfold has_session in *. unfold registered.
  cbn [db tick log chat_id user_id with_users telegram_users users].
  rewrite Hs. rewrite existsb_app. cbn [existsb u_id created_user].
  rewrite jseqb_refl, orb_true_r. cbn [negb orb].
  reflexivity.
Qed.

Lemma select_none_has_session (d : DB) (chatId : jsstring) :
  select_telegram_user d chatId = None <-> has_session d chatId = false.
Proof.
  unfold select_telegram_user, has_session. split.
  - apply find_none_existsb.
  - apply existsb_false_find.
Qed.

(** [handleStart] from the tables [d]: a chat with a session is only
    welcomed; for a chat without one the outcome depends on whether the
    drawn identifier and the placeholder address are free. *)
Lemma handleStart_run (E : env) (msg : TgMessage) (d : DB) (t : nat) :
  let chat := msg_chat_id msg in
  let name := getUserName msg in
  let u := created_user E (S t) (placeholder_email (of_Z chat))
             (crypto_randomUUID E t) name in
  let s := created_session E t (of_Z chat) in
  let '(res, w') := handleStart E msg (start d t) in
  match select_telegram_user d (of_Z chat) with
  | Some _ =>
      db w' = d /\ log w' = [EvSendMessage chat (ReplyWelcome name)]
  | None =>
      if registered d (u_id u) || email_taken d (placeholder_email (of_Z chat))
      then (exists m, res = Throw m) /\ db w' = d /\ log w' = []
      else db w' = provisioned d u s
           /\ log w' = [EvSendMessage chat (ReplyWelcome name)]
  end.
Proof.
  cbv zeta.
  unfold handleStart, getOrCreateTelegramUser, findTelegramUser.
  rewrite !bind_run. unfold get_db at 1. unfold ret at 1. cbn [db start].
  destruct (select_telegram_user d (of_Z (msg_chat_id msg))) as [s0|] eqn:Hsel.
  - unfold ret, sendMessage, call. simpl. auto.
  - rewrite (@createTelegramUser_run E (of_Z (msg_chat_id msg))
               (getUserName msg) (start d t)
               (proj1 (select_none_has_session d _) Hsel)).
    cbv zeta. cbn [db tick log start].
    destruct (registered d _); cbn [orb].
    + split; [eexists; reflexivity|]. auto.
    + destruct (email_taken d _).
      * split; [eexists; reflexivity|]. auto.
      * unfold sendMessage, call. simpl. auto.
Qed.

(** X19.  [/start] provisions a chat once.  For a chat that has a session
    nothing is written (the stored key included) and the welcome is the
    only reply.  For a chat without one, either the account (placeholder
    address [tg_<chat>@telegram.local], the display name of the sender)
    and the session (no key) are inserted and the welcome is sent, or the
    drawn identifier or the placeholder address is already in use: then
    the handler throws, writes nothing and sends nothing. *)
Theorem start_provisions_once (E : env) (msg : TgMessage) (d : DB)
  (t : nat) :
  startsWith (text_of msg) (lit "/start") = true ->
  let chat := msg_chat_id msg in
  let name := getUserName msg in
  let u := created_user E (S t) (placeholder_email (of_Z chat))
             (crypto_randomUUID E t) name in
  let s := created_session E t (of_Z chat) in
  let '(res, w') := handleMessage E msg (start d t) in
  match select_telegram_user d (of_Z chat) with
  | Some _ =>
      db w' = d /\ log w' = [EvSendMessage chat (ReplyWelcome name)]
  | None =>
      if registered d (u_id u) || email_taken d (placeholder_email (of_Z chat))
      then (exists m, res = Throw m) /\ db w' = d /\ log w' = []
      else db w' = provisioned d u s
           /\ log w' = [EvSendMessage chat (ReplyWelcome name)]
  end.
Proof.
  intros Hcmd. cbv zeta. unfold handleMessage. rewrite Hcmd.
  apply handleStart_run.
Qed.

(** From empty tables chat 5 is provisioned. *)
Lemma start_provisions_once_witness :
  let msg := text_message 5 "/start" in
  let '(res, w') := handleMessage plain_env msg (start empty_db 0) in
  db w' = registered_db
  /\ log w' = [EvSendMessage 5 (ReplyWelcome (lit "Ann"))].
Proof.
  cbv zeta.
  pose proof (@start_provisions_once plain_env (text_message 5 "/start")
                empty_db 0 eq_refl) as H.
  cbv zeta in H.
  destruct (handleMessage plain_env (text_message 5 "/start")
              (start empty_db 0)) as [res w'].
  vm_compute in H. vm_compute. exact H.
Defined.

(** Once the placeholder address of chat 6 belongs to another account,
    [/start] from chat 6 throws and the chat gets no session. *)
Example squatted_placeholder_blocks_start :
  let '(res, w') :=
    handleMessage plain_env (text_message 6 "/start") squatted_world in
  res = Throw (lit "UNIQUE constraint failed: users.email")
  /\ db w' = db squatted_world
  /\ log w' = log squatted_world.
Proof. vm_compute. repeat split; reflexivity. Qed.

(** ** [/setkey] without a key *)

(** [handleSetKey] on a text without a second piece, or with an empty
    one: the session is looked up or provisioned first, as by [/start],
    and only then is the text examined. *)
Lemma handleSetKey_without_token (E : env) (msg : TgMessage) (d : DB)
  (t : nat) :
  truthy_opt (second_token msg) = false ->
  let chat := msg_chat_id msg in
  let u := created_user E (S t) (placeholder_email (of_Z chat))
             (crypto_randomUUID E t) (getUserName msg) in
  let s := created_session E t (of_Z chat) in
  let '(res, w') := handleSetKey E msg (start d t) in
  match select_telegram_user d (of_Z chat) with
  | Some _ => db w' = d /\ log w' = [EvSendMessage chat ReplySetKeyUsage]
  | None =>
      if registered d (u_id u) || email_taken d (placeholder_email (of_Z chat))
      then (exists m, res = Throw m) /\ db w' = d /\ log w' = []
      else db w' = provisioned d u s
           /\ log w' = [EvSendMessage chat ReplySetKeyUsage]
  end.
Proof.
  intros Htok. cbv zeta.
  assert (Hchk : (List.length (split_ws (text_of msg)) <? 2)%nat
                 || negb (truthy_opt (nth_error (split_ws (text_of msg)) 1))
                 = true).
  { unfold second_token in Htok. rewrite Htok. apply orb_true_r. }
  unfold handleSetKey, getOrCreateTelegramUser, findTelegramUser.
  rewrite !bind_run. unfold get_db at 1. unfold ret at 1. cbn [db start].
  destruct (select_telegram_user d (of_Z (msg_chat_id msg))) as [s0|] eqn:Hsel.
  - unfold ret at 1. rewrite Hchk. unfold sendMessage, call. simpl. auto.
  - rewrite (@createTelegramUser_run E (of_Z (msg_chat_id msg))
               (getUserName msg) (start d t)
               (proj1 (select_none_has_session d _) Hsel)).
    cbv zeta. cbn [db tick log start].
    destruct (registered d _); cbn [orb].
    + split; [eexists; reflexivity|]. auto.
    + destruct (email_taken d _).
      * split; [eexists; reflexivity|]. auto.
      * rewrite Hchk. unfold sendMessage, call. simpl. auto.
Qed.

(** C5, as amended.  For every message whose text starts with [/setkey]
    and has no non-empty second piece, the receipt store is untouched and
    no credential is stored or changed.  When the chat has a session, the
    usage error is the only reply and the tables are left as they were.
    When the chat has no session, the handler first provisions it, as
    [/start] does: either the account (placeholder address
    [tg_<chat>@telegram.local]) and the session, with no credential, are
    inserted and the usage error is then sent, or the identifier drawn for
    the account or the placeholder address is already in use: then the
    handler throws, writes nothing and sends nothing, the usage error
    included. *)
Theorem setkey_without_token (E : env) (msg : TgMessage) (d : DB)
  (t : nat) :
  startsWith (text_of msg) (lit "/setkey") = true ->
  truthy_opt (second_token msg) = false ->
  let chat := msg_chat_id msg in
  let u := created_user E (S t) (placeholder_email (of_Z chat))
             (crypto_randomUUID E t) (getUserName msg) in
  let s := created_session E t (of_Z chat) in
  let '(res, w') := handleMessage E msg (start d t) in
  receipt_store_unchanged d (db w')
  /\ match select_telegram_user d (of_Z chat) with
     | Some _ => db w' = d /\ log w' = [EvSendMessage chat ReplySetKeyUsage]
     | None =>
         if registered d (u_id u)
            || email_taken d (placeholder_email (of_Z chat))
         then (exists m, res = Throw m) /\ db w' = d /\ log w' = []
         else db w' = provisioned d u s
              /\ chat_id s = of_Z chat /\ google_api_key s = None
              /\ log w' = [EvSendMessage chat ReplySetKeyUsage]
     end.
Proof.
  intros Hcmd Htok. cbv zeta. rewrite (handleMessage_setkey E msg Hcmd).
  pose proof (@handleSetKey_without_token E msg d t Htok) as H.
  cbv zeta in H.
  destruct (handleSetKey E msg (start d t)) as [res w'].
  destruct (select_telegram_user d (of_Z (msg_chat_id msg))) as [s0|].
  - destruct H as [Hdb Hlog]. split; [|auto].
    rewrite Hdb. apply receipt_store_unchanged_refl.
  - destruct (registered d _ || email_taken d _).
    + destruct H as (Hm & Hdb & Hlog). split; [|auto].
      rewrite Hdb. apply receipt_store_unchanged_refl.
    + destruct H as [Hdb Hlog]. split; [|auto].
      rewrite Hdb. apply receipt_store_unchanged_provisioned.
Qed.

(** Witness of C5: [/setkey] followed by a blank, from a registered
    chat. *)
Lemma setkey_without_token_witness :
  let msg := text_message 5 "/setkey " in
  startsWith (text_of msg) (lit "/setkey") = true
  /\ second_token msg = Some []
  /\ select_telegram_user keyed_db (of_Z 5) = Some sample_session
  /\ let '(_, w') := handleMessage plain_env msg (start keyed_db 0) in
     db w' = keyed_db /\ log w' = [EvSendMessage 5 ReplySetKeyUsage].
Proof.
  cbv zeta. split; [reflexivity|]. split; [reflexivity|].
  split; [reflexivity|].
  pose proof (@setkey_without_token plain_env (text_message 5 "/setkey ")
                keyed_db 0%nat eq_refl eq_refl) as H.
  cbv zeta in H.
  destruct (handleMessage plain_env (text_message 5 "/setkey ")
              (start keyed_db 0)) as [res w'].
  exact (proj2 H).
Defined.

(** Counterexample to C5 as first stated: [/setkey] alone, from a chat
    that has no session, is answered with the usage error, but an account
    and a session row have been created. *)
Lemma setkey_from_new_chat_provisions :
  let msg := text_message 5 "/setkey" in
  let w' := snd (handleMessage plain_env msg (start empty_db 0)) in
  startsWith (text_of msg) (lit "/setkey") = true
  /\ second_token msg = None
  /\ log w' = [EvSendMessage 5 ReplySetKeyUsage]
  /\ select_telegram_user empty_db (lit "5") = None
  /\ select_telegram_user (db w') (lit "5") = Some fresh_session
  /\ List.map u_email (users (db w')) = [lit "tg_5@telegram.local"]
  /\ db w' <> empty_db.
Proof.
  cbv zeta. repeat (split; [reflexivity|]).
  intros H. apply (f_equal (fun d => List.length (users d))) in H.
  vm_compute in H. discriminate.
Qed.

(** Once the placeholder address of chat 6 belongs to another account,
    [/setkey] alone from chat 6 throws: no usage error is sent. *)
Example squatted_placeholder_blocks_setkey :
  let '(res, w') :=
    handleMessage plain_env (text_message 6 "/setkey") squatted_world in
  res = Throw (lit "UNIQUE constraint failed: users.email")
  /\ db w' = db squatted_world
  /\ log w' = log squatted_world.
Proof. vm_compute. repeat split; reflexivity. Qed.

Lemma no_space_rev (acc : jsstring) :
  no_space acc = true -> no_space (rev acc) = true.
Proof.
  unfold no_space. rewrite !forallb_forall. intros H c Hc.
  apply H. apply in_rev. exact Hc.
Qed.

Lemma split_go_no_space (s : jsstring) :
  forall in_sep acc,
    no_space acc = true ->
    Forall (fun piece => no_space piece = true) (split_go in_sep acc s).
Proof.
  induction s as [|c s IH]; intros in_sep acc Hacc; simpl.
  - constructor; [apply no_space_rev; exact Hacc|constructor].
  - destruct (is_space c) eqn:Hc.
    + destruct in_sep; [apply IH; exact Hacc|].
      constructor; [apply no_space_rev; exact Hacc|].
      apply IH. reflexivity.
    + apply IH. unfold no_space in *. simpl. rewrite Hc. exact Hacc.
Qed.

(** What [split(/\s+/)] yields has no white space in any piece. *)
Lemma split_ws_no_space (s : jsstring) :
  Forall (fun piece => no_space piece = true) (split_ws s).
Proof. apply split_go_no_space. reflexivity. Qed.

Lemma select_after_api_key (d : DB) (chatId k c : jsstring) :
  select_telegram_user (update_api_key d chatId k) c
  = option_map
      (fun t =>
         if chat_id t =? chatId
         then {| chat_id := chat_id t; user_id := user_id t;
                 google_api_key := Some k;
                 tu_created_at := tu_created_at t |}
         else t)
      (select_telegram_user d c).
Proof.
  unfold select_telegram_user, update_api_key. simpl.
  apply find_map_same.
  intros t. destruct (chat_id t =? chatId); reflexivity.
Qed.

(** X20.  [/setkey] with a token, from a chat that has a session: the
    second piece of the text cut at white space, and nothing else of the
    text, becomes the key of the session of that chat; it has no white
    space in it, [getGoogleApiKey] reads it back, the other chats keep
    their keys, no other table changes, and the confirmation is the only
    reply. *)
Theorem setkey_stores_second_token (E : env) (msg : TgMessage) (d : DB)
  (t : nat) (s : TelegramUser) (k : jsstring) :
  startsWith (text_of msg) (lit "/setkey") = true ->
  select_telegram_user d (of_Z (msg_chat_id msg)) = Some s ->
  nth_error (split_ws (text_of msg)) 1 = Some k ->
  truthy k = true ->
  let chat := msg_chat_id msg in
  let '(_, w') := handleMessage E msg (start d t) in
  db w' = update_api_key d (of_Z chat) k
  /\ log w' = [EvSendMessage chat ReplySetKeyUpdated]
  /\ no_space k = true
  /\ fst (getGoogleApiKey (of_Z chat) w') = Ok (Some k)
  /\ (forall other, other <> of_Z chat ->
        fst (getGoogleApiKey other w')
        = fst (getGoogleApiKey other (start d t))).
Proof.
  intros Hcmd Hsel Hk Ht. cbv zeta.
  rewrite (handleMessage_setkey E msg Hcmd).
  unfold handleSetKey, getOrCreateTelegramUser, findTelegramUser.
  rewrite !bind_run. unfold get_db at 1. unfold ret at 1. cbn [db start].
  rewrite Hsel. unfold ret at 1.
  assert (Hlen : (List.length (split_ws (text_of msg)) <? 2)%nat = false).
  { apply Nat.ltb_ge.
    destruct (split_ws (text_of msg)) as [|a [|b l]]; try discriminate.
    simpl. lia. }
  rewrite Hlen, Hk. unfold truthy_opt. rewrite Ht. cbn [negb orb].
  assert (Hnth : nth 1 (split_ws (text_of msg)) [] = k).
  { destruct (split_ws (text_of msg)) as [|a [|b l]]; try discriminate.
    simpl in Hk. injection Hk as ->. reflexivity. }
  rewrite Hnth.
  unfold setGoogleApiKey, sendMessage, call, bind, get_db, put_db, ret.
  cbn [db tick log fst snd].
  split; [reflexivity|]. split; [reflexivity|]. split; [|split].
  - pose proof (split_ws_no_space (text_of msg)) as Hall.
    rewrite Forall_forall in Hall. apply Hall.
    apply (nth_error_In _ _ Hk).
  - unfold getGoogleApiKey, findTelegramUser, bind, get_db, ret.
    cbn [db fst start]. rewrite select_after_api_key, Hsel.
    cbn [option_map].
    assert (Hc : (chat_id s =? of_Z (msg_chat_id msg)) = true).
    { unfold select_telegram_user in Hsel. apply find_some in Hsel.
      apply Hsel. }
    rewrite Hc. cbn [google_api_key or_null]. unfold or_null.
    rewrite Ht. reflexivity.
  - intros other Hne.
    unfold getGoogleApiKey, findTelegramUser, bind, get_db, ret.
    cbn [db fst start]. rewrite select_after_api_key.
    destruct (select_telegram_user d other) as [o|] eqn:Ho; [|reflexivity].
    cbn [option_map].
    assert (Hc : (chat_id o =? of_Z (msg_chat_id msg)) = false).
    { unfold select_telegram_user in Ho. apply find_some in Ho.
      destruct Ho as [_ Ho]. apply jseqb_eq in Ho. rewrite Ho.
      apply jseqb_neq. exact Hne. }
    rewrite Hc. reflexivity.
Qed.

(** Only [KEY2] of [/setkey KEY2 and more] is stored. *)
Lemma setkey_stores_second_token_witness :
  let msg := text_message 5 "/setkey  KEY2 and more" in
  let '(_, w') := handleMessage plain_env msg (start keyed_db 9) in
  db w' = update_api_key keyed_db (lit "5") (lit "KEY2")
  /\ log w' = [EvSendMessage 5 ReplySetKeyUpdated]
  /\ no_space (lit "KEY2") = true
  /\ fst (getGoogleApiKey (lit "5") w') = Ok (Some (lit "KEY2"))
  /\ (forall other, other <> lit "5" ->
        fst (getGoogleApiKey other w')
        = fst (getGoogleApiKey other (start keyed_db 9))).
Proof.
  cbv zeta.
  apply (@setkey_stores_second_token plain_env
           (text_message 5 "/setkey  KEY2 and more") keyed_db 9
           sample_session (lit "KEY2")).
  - vm_compute. reflexivity.
  - vm_compute. reflexivity.
  - vm_compute. reflexivity.
  - vm_compute. reflexivity.
Defined.

(** ** From the history to a receipt; failures of the model *)

Lemma takeWhile_all (p : char -> bool) (s : jsstring) :
  forallb p s = true -> takeWhile p s = s.
Proof.
  induction s as [|c s IH]; simpl; [reflexivity|].
  intros H. apply andb_true_iff in H. destruct H as [Hc Hs].
  rewrite Hc, IH by exact Hs. reflexivity.
Qed.

Lemma is_hex_not_underscore (c : char) : is_hex_ci c = true -> (c =? 95)%N = false.
Proof.
  intros H. apply N.eqb_neq. intros ->. vm_compute in H. discriminate.
Qed.

(** The pattern of [/receipt] captures the identifier after the
    underscore. *)
Lemma receiptMatch_underscore (p : jsstring) :
  p <> [] -> all_hex p = true -> receiptMatch (lit "/receipt_" ++ p) = Some p.
Proof.
  intros Hne Hhex. unfold receiptMatch.
  change (strip_prefix_ci (lit "/receipt") (lit "/receipt_" ++ p))
    with (Some (95%N :: p)).
  cbv beta iota zeta. change ((95 =? 95)%N) with true. cbv iota.
  unfold all_hex in Hhex. rewrite (takeWhile_all _ _ Hhex).
  destruct p; [congruence|reflexivity].
Qed.

Lemma startsWith_firstn (n : nat) (s : jsstring) :
  startsWith s (firstn n s) = true.
Proof.
  revert n. induction s as [|c s IH]; intros [|n]; simpl; try reflexivity.
  rewrite N.eqb_refl. apply IH.
Qed.

Lemma find_first {A} (p : A -> bool) (l : list A) (x : A) :
  In x l -> p x = true ->
  exists y, find p l = Some y /\ In y l /\ p y = true.
Proof.
  intros Hin Hp. destruct (find p l) as [y|] eqn:Hf.
  - exists y. apply find_some in Hf. tauto.
  - rewrite (find_none _ _ Hf _ Hin) in Hp. discriminate.
Qed.

(** X21.  The command that [/history] advertises works.  For a chat with
    a session and a receipt of its listing whose identifier begins with
    hexadecimal digits (as a UUID does), the text [/receipt_] followed by
    the short identifier of its history line is routed to the lookup,
    which renders a receipt of the same listing whose identifier begins
    with that short identifier, never the not-found reply, and writes
    nothing. *)
Theorem history_command_opens_receipt (E : env) (msg : TgMessage) (d : DB)
  (t : nat) (s : TelegramUser) (x : UserReceiptWithDetails) :
  select_telegram_user d (of_Z (msg_chat_id msg)) = Some s ->
  In x (select_user_receipts d (user_id s)) ->
  r_id (receipt x) <> [] ->
  all_hex (h_short_id (history_line_of x)) = true ->
  msg_text msg = Some (detail_command (history_line_of x)) ->
  let '(_, w') := handleMessage E msg (start d t) in
  db w' = d
  /\ exists y,
       In y (select_user_receipts d (user_id s))
       /\ startsWith (r_id (receipt y)) (h_short_id (history_line_of x))
          = true
       /\ log w'
          = [EvSendMessage (msg_chat_id msg) (ReplyReceipt (formatReceipt y))].
Proof.
  intros Hsel Hin Hid Hhex Htext.
  set (short := h_short_id (history_line_of x)) in *.
  assert (Hshort : short <> []).
  { unfold short. simpl. unfold substring0.
    destruct (r_id (receipt x)); [congruence|discriminate]. }
  assert (Hm : receiptMatch (text_of msg) = Some short).
  { unfold text_of. rewrite Htext. simpl or_else.
    apply receiptMatch_underscore; assumption. }
  pose proof (@receipt_lookup E msg d t s short Hm Hsel) as H.
  cbv zeta in H.
  destruct (handleMessage E msg (start d t)) as [r w'].
  destruct H as [Hdb Hlog]. split; [exact Hdb|].
  destruct (@find_first _ (fun r => startsWith (r_id (receipt r)) short)
              (select_user_receipts d (user_id s)) x Hin)
    as (y & Hf & Hy & Hp).
  { apply (startsWith_firstn 8 (r_id (receipt x))). }
  exists y. split; [exact Hy|]. split; [exact Hp|].
  rewrite Hlog. unfold lookup_reply. rewrite Hf. reflexivity.
Qed.

Lemma history_command_opens_receipt_witness :
  let msg := text_message 5 "/receipt_abcdef12" in
  let '(_, w') := handleMessage plain_env msg (start (db two_receipts_world) 30) in
  db w' = db two_receipts_world
  /\ exists y,
       In y (select_user_receipts (db two_receipts_world) (user_id sample_session))
       /\ startsWith (r_id (receipt y))
            (h_short_id (history_line_of sample_listed)) = true
       /\ log w' = [EvSendMessage 5 (ReplyReceipt (formatReceipt y))].
Proof.
  cbv zeta.
  apply (@history_command_opens_receipt plain_env
           (text_message 5 "/receipt_abcdef12") (db two_receipts_world) 30
           sample_session sample_listed).
  - vm_compute. reflexivity.
  - vm_compute. left. reflexivity.
  - vm_compute. discriminate.
  - vm_compute. reflexivity.
  - vm_compute. reflexivity.
Defined.

Lemma canonicalize_slash (c : char) :
  (c =? 47)%N = false -> (canonicalize c =? canonicalize 47%N)%N = false.
Proof.
  intros H. apply N.eqb_neq in H. apply N.eqb_neq.
  change (canonicalize 47%N) with 47%N. unfold canonicalize.
  destruct ((97 <=? c) && (c <=? 122))%N eqn:Hr; [|exact H].
  apply andb_true_iff in Hr. destruct Hr as [H1 H2].
  apply N.leb_le in H1. apply N.leb_le in H2. lia.
Qed.

Section FreeText.

Variable E : env.

(** A text that begins with no slash is no command and matches no
    pattern. *)
Lemma no_slash_no_command (msg : TgMessage) :
  startsWith (text_of msg) (lit "/") = false ->
  handleMessage E msg
  = if has_photo msg then handlePhoto E msg
    else if truthy (text_of msg) then handleTextReceipt E msg
    else ret tt.
Proof.
  intros Hs. unfold handleMessage, receiptMatch. rewrite Hs.
  destruct (text_of msg) as [|c rest]; [reflexivity|].
  simpl in Hs. rewrite andb_true_r in Hs.
  simpl. rewrite Hs. simpl. rewrite (canonicalize_slash c Hs). reflexivity.
Qed.

(** X22.  A failure of the model on free text is caught and reported.
    For a chat whose session has a key, when the typing action goes
    through and the call to the model throws, the handler stores nothing
    and sends one reply that carries the message of the error, or the
    placeholder text when that message is empty; it throws only if that
    last reply cannot be sent. *)
Theorem text_model_failure_reported (msg : TgMessage) (d : DB) (t : nat)
  (s : TelegramUser) (k m : jsstring) :
  startsWith (text_of msg) (lit "/") = false ->
  truthy (text_of msg) = true ->
  has_photo msg = false ->
  select_telegram_user d (of_Z (msg_chat_id msg)) = Some s ->
  google_api_key s = Some k ->
  truthy k = true ->
  telegram_sendChatAction E t (msg_chat_id msg) (lit "typing") = Ok tt ->
  gemini_generate_text E (S t) (text_prompt (msg_text msg)) k = Throw m ->
  let chat := msg_chat_id msg in
  let report := ReplyTextFailed (failure_text m) in
  handleMessage E msg (start d t)
  = (telegram_sendMessage E (S (S t)) chat report,
     {| db := d; tick := S (S (S t));
        log := [EvSendChatAction chat (lit "typing");
                EvGenerateText (text_prompt (msg_text msg)) k (Throw m);
                EvSendMessage chat report] |}).
Proof.
  intros Hs Ht Hp Hsel Hk Htk Htyping Hmodel. cbv zeta.
  rewrite (no_slash_no_command msg Hs), Hp, Ht.
  rewrite handleTextReceipt_gate.
  pose proof (with_credential_cases E msg (text_body E msg) d t) as H.
  cbv zeta in H. rewrite Hsel, Hk in H. simpl truthy_opt in H.
  rewrite Htk, Htyping in H.
  destruct (with_credential E msg (text_body E msg) (start d t)) as [r w'].
  rewrite H. unfold text_body. rewrite try_catch_bind.
  unfold generateContent_text, call, createGeminiModel.
  cbn [db tick log]. rewrite Hk. unfold or_else. rewrite Htk.
  rewrite Hmodel. unfold sendMessage, call. cbn [db tick log].
  unfold failure_text. reflexivity.
Qed.

End FreeText.

Lemma text_model_failure_reported_witness :
  let msg := text_message 5 "coffee 3" in
  let report := ReplyTextFailed (lit "quota exceeded") in
  handleMessage failing_env msg (start keyed_db 9)
  = (Ok tt,
     {| db := keyed_db; tick := 12;
        log := [EvSendChatAction 5 (lit "typing");
                EvGenerateText (text_prompt (msg_text msg)) (lit "KEY")
                  (Throw (lit "quota exceeded"));
                EvSendMessage 5 report] |}).
Proof.
  cbv zeta.
  apply (@text_model_failure_reported failing_env
           (text_message 5 "coffee 3") keyed_db 9 sample_session
           (lit "KEY") (lit "quota exceeded")).
  - vm_compute. reflexivity.
  - vm_compute. reflexivity.
  - vm_compute. reflexivity.
  - vm_compute. reflexivity.
  - vm_compute. reflexivity.
  - vm_compute. reflexivity.
  - vm_compute. reflexivity.
  - vm_compute. reflexivity.
Defined.

(** ** Isolation of accounts *)

Section Changes.

Variable R : DB -> DB -> Prop.
Hypothesis R_refl : forall d, R d d.
Hypothesis R_trans : forall d1 d2 d3, R d1 d2 -> R d2 d3 -> R d1 d3.

Lemma changes_reads_only {A} (c : M A) : reads_only c -> changes_by R c.
Proof. intros H w. rewrite H. apply R_refl. Qed.

Lemma changes_ret {A} (a : A) : changes_by R (ret a).
Proof. intros w. apply R_refl. Qed.

Lemma changes_throw {A} (m : jsstring) : changes_by R (@throw A m).
Proof. intros w. apply R_refl. Qed.

Lemma changes_draw {A} (f : nat -> A) : changes_by R (draw f).
Proof. intros w. apply R_refl. Qed.

Lemma changes_call {A} (f : nat -> result A) (ev : result A -> event) :
  changes_by R (call f ev).
Proof. intros w. apply R_refl. Qed.

Lemma changes_bind {A B} (c : M A) (k : A -> M B) :
  changes_by R c -> (forall a, changes_by R (k a)) -> changes_by R (bind c k).
Proof.
  intros Hc Hk w. unfold bind. specialize (Hc w).
  destruct (c w) as [[a|m] w1]; simpl in *; [|exact Hc].
  eapply R_trans; [exact Hc|apply Hk].
Qed.

Lemma changes_try_catch {A} (c : M A) (h : jsstring -> M A) :
  changes_by R c -> (forall m, changes_by R (h m)) ->
  changes_by R (try_catch c h).
Proof.
  intros Hc Hh w. unfold try_catch. specialize (Hc w).
  destruct (c w) as [[a|m] w1]; simpl in *; [exact Hc|].
  eapply R_trans; [exact Hc|apply Hh].
Qed.

Lemma changes_transaction {A} (c : M A) :
  changes_by R c -> changes_by R (transaction c).
Proof.
  intros Hc w. unfold transaction. specialize (Hc w).
  destruct (c w) as [[a|m] w1]; simpl in *; [exact Hc|apply R_refl].
Qed.

Lemma changes_for_of {A} (l : list A) (body : A -> M unit) :
  (forall a, changes_by R (body a)) -> changes_by R (for_of l body).
Proof.
  intros Hb. induction l as [|x l IH]; simpl.
  - apply changes_ret.
  - apply changes_bind; auto.
Qed.

Lemma changes_if {A} (b : bool) (c1 c2 : M A) :
  changes_by R c1 -> changes_by R c2 -> changes_by R (if b then c1 else c2).
Proof. destruct b; auto. Qed.

(** A statement that reads the tables and then writes or throws. *)
Lemma changes_statement {A} (f : DB -> M A) :
  (forall w, R (db w) (db (snd (f (db w) w)))) ->
  changes_by R (bind get_db f).
Proof. intros H w. unfold bind, get_db. simpl. apply H. Qed.

End Changes.

Lemma links_added_for_refl (u : jsstring) (d : DB) : links_added_for u d d.
Proof. intros ur H. left. exact H. Qed.

Lemma links_added_for_trans (u : jsstring) (d1 d2 d3 : DB) :
  links_added_for u d1 d2 -> links_added_for u d2 d3 ->
  links_added_for u d1 d3.
Proof.
  intros H12 H23 ur H. destruct (H23 ur H) as [H2|H2]; [|auto].
  apply H12. exact H2.
Qed.

Lemma receipts_kept_refl (d : DB) : receipts_kept d d.
Proof. intros r H. exact H. Qed.

Lemma receipts_kept_trans (d1 d2 d3 : DB) :
  receipts_kept d1 d2 -> receipts_kept d2 d3 -> receipts_kept d1 d3.
Proof. intros H12 H23 r H. auto. Qed.

Lemma grows_for_refl (u : jsstring) (d : DB) : grows_for u d d.
Proof. split; [apply links_added_for_refl|apply receipts_kept_refl]. Qed.

Lemma grows_for_trans (u : jsstring) (d1 d2 d3 : DB) :
  grows_for u d1 d2 -> grows_for u d2 d3 -> grows_for u d1 d3.
Proof.
  intros [L12 K12] [L23 K23]. split.
  - eapply links_added_for_trans; eauto.
  - eapply receipts_kept_trans; eauto.
Qed.

Lemma grows_for_same_store (u : jsstring) (d d' : DB) :
  user_receipts d' = user_receipts d -> receipts d' = receipts d ->
  grows_for u d d'.
Proof.
  intros Hl Hr. split.
  - intros ur H. left. rewrite <- Hl. exact H.
  - intros r H. rewrite Hr. exact H.
Qed.

Ltac grows_step u :=
  first
    [ apply (changes_ret (grows_for u) (grows_for_refl u))
    | apply (changes_throw (grows_for u) (grows_for_refl u))
    | apply (changes_draw (grows_for u) (grows_for_refl u))
    | apply (changes_call (grows_for u) (grows_for_refl u))
    | apply (changes_transaction (grows_for_refl u))
    | apply (changes_for_of (grows_for_refl u) (@grows_for_trans u)); intros
    | apply (changes_try_catch (@grows_for_trans u)); [|intros]
    | apply (changes_bind (@grows_for_trans u)); [|intros]
    | apply changes_if
    | match goal with
      | |- changes_by _ (match ?x with _ => _ end) => destruct x
      end ].

Lemma changes_weaken (R S : DB -> DB -> Prop) {A} (c : M A) :
  (forall d d', R d d' -> S d d') -> changes_by R c -> changes_by S c.
Proof. intros H Hc w. apply H, Hc. Qed.

Lemma store_kept_refl (d : DB) : store_kept d d.
Proof. split; reflexivity. Qed.

Lemma store_kept_trans (d1 d2 d3 : DB) :
  store_kept d1 d2 -> store_kept d2 d3 -> store_kept d1 d3.
Proof. intros [L12 K12] [L23 K23]. split; congruence. Qed.

Lemma store_kept_grows (u : jsstring) (d d' : DB) :
  store_kept d d' -> grows_for u d d'.
Proof. intros [Hl Hr]. apply grows_for_same_store; assumption. Qed.

Ltac kept_step :=
  first
    [ apply (changes_ret store_kept store_kept_refl)
    | apply (changes_throw store_kept store_kept_refl)
    | apply (changes_draw store_kept store_kept_refl)
    | apply (changes_call store_kept store_kept_refl)
    | apply (changes_bind store_kept_trans); [|intros]
    | apply changes_if
    | match goal with
      | |- changes_by _ (match ?x with _ => _ end) => destruct x
      end ].

Section Growth.

Variable E : env.

Lemma kept_insert_user (row : UserRow) :
  changes_by store_kept (insert_user row).
Proof.
  apply changes_statement. intros w.
  destruct (existsb _ (users (db w))); [apply store_kept_refl|].
  destruct (existsb _ (users (db w))); [apply store_kept_refl|].
  split; reflexivity.
Qed.

Lemma kept_insert_telegram_user (row : TelegramUser) :
  changes_by store_kept (insert_telegram_user row).
Proof.
  apply changes_statement. intros w.
  destruct (existsb _ (telegram_users (db w))); [apply store_kept_refl|].
  destruct (negb _); [apply store_kept_refl|].
  split; reflexivity.
Qed.

Lemma kept_getOrCreateTelegramUser (chatId name : jsstring) :
  changes_by store_kept (getOrCreateTelegramUser E chatId name).
Proof.
  unfold getOrCreateTelegramUser, findTelegramUser, createTelegramUser,
    createUser, randomUUID, hashPassword, toISOString_now.
  apply (changes_bind store_kept_trans).
  - apply changes_reads_only; [apply store_kept_refl|]. intros w.
    reflexivity.
  - intros [s|]; [kept_step|].
    repeat first [ apply kept_insert_user | apply kept_insert_telegram_user
                 | kept_step ].
Qed.

Lemma kept_setGoogleApiKey (chatId key : jsstring) :
  changes_by store_kept (setGoogleApiKey chatId key).
Proof. intros w. split; reflexivity. Qed.

(** [/start] and [/setkey] leave the receipt store alone. *)
Lemma kept_directory_commands (msg : TgMessage) :
  changes_by store_kept (handleStart E msg)
  /\ changes_by store_kept (handleSetKey E msg).
Proof.
  unfold handleStart, handleSetKey, sendMessage. split;
    repeat first [ apply kept_getOrCreateTelegramUser
                 | apply kept_setGoogleApiKey | kept_step ].
Qed.

Variable u : jsstring.

Lemma grows_insert_receipt (row : ReceiptRow) :
  changes_by (grows_for u) (insert_receipt row).
Proof.
  apply changes_statement. intros w.
  destruct (existsb _ (receipts (db w))); [apply grows_for_refl|].
  split.
  - intros ur H. left. exact H.
  - intros r H. simpl. apply in_or_app. left. exact H.
Qed.

Lemma grows_insert_receipt_item (id receipt_id : jsstring)
  (name : option jsstring) (quantity unit_price total_price : option Q)
  (category : option jsstring) :
  changes_by (grows_for u)
    (insert_receipt_item id receipt_id name quantity unit_price total_price
       category).
Proof.
  unfold insert_receipt_item.
  destruct (item_values _ _ _ _ _ _ _) as [column|row].
  { intros w. apply grows_for_refl. }
  apply changes_statement. intros w.
  destruct (existsb _ (receipt_items (db w))); [apply grows_for_refl|].
  destruct (negb _); [apply grows_for_refl|].
  apply grows_for_same_store; reflexivity.
Qed.

Lemma grows_insert_user_receipt (row : UserReceipt) :
  ur_user_id row = u -> changes_by (grows_for u) (insert_user_receipt row).
Proof.
  intros Hu. apply changes_statement. intros w.
  destruct (existsb _ (user_receipts (db w))); [apply grows_for_refl|].
  destruct (existsb _ (user_receipts (db w))); [apply grows_for_refl|].
  destruct (_ || _); [apply grows_for_refl|].
  split.
  - intros ur H. simpl in H. apply in_app_or in H.
    destruct H as [H|[<-|[]]]; auto.
  - intros r H. exact H.
Qed.

Lemma grows_createReceiptForUser (a : ReceiptAnalysisResult)
  (n raw : option jsstring) :
  changes_by (grows_for u) (createReceiptForUser E u a n raw).
Proof.
  unfold createReceiptForUser, createReceipt, linkReceiptToUser, randomUUID,
    toISOString_now, iterable.
  repeat first [ apply grows_insert_receipt | apply grows_insert_receipt_item
               | apply grows_insert_user_receipt; reflexivity
               | grows_step u ].
Qed.

End Growth.

Section Isolation.

Variable E : env.

(** Behind the credential check, both analysis paths add to the store
    for the account of the session only. *)
Lemma bodies_grow_for_session (msg : TgMessage) (user : TelegramUser) :
  changes_by (grows_for (user_id user)) (photo_body E msg user)
  /\ changes_by (grows_for (user_id user)) (text_body E msg user).
Proof.
  assert (Hstore : forall chat on_error n raw,
             changes_by (grows_for (user_id user))
               (store_analysis E chat user on_error n raw)).
  { intros. unfold store_analysis, sendMessage.
    repeat first [ apply grows_createReceiptForUser
                 | grows_step (user_id user) ]. }
  split.
  - unfold photo_body, largest_photo, non_null, getFile, downloadFileBuffer,
      analyzeReceiptImage, sendMessage.
    repeat first [ apply Hstore | grows_step (user_id user) ].
  - unfold text_body, generateContent_text, sendMessage.
    repeat first [ apply Hstore | grows_step (user_id user) ].
Qed.

(** What an analysis handler may have done to the store, from the
    tables [d]. *)
Lemma with_credential_grows (msg : TgMessage)
  (body : TelegramUser -> M unit) (d : DB) (t : nat) :
  (forall user, changes_by (grows_for (user_id user)) (body user)) ->
  let d' := db (snd (with_credential E msg body (start d t))) in
  store_kept d d'
  \/ exists s,
       select_telegram_user d (of_Z (msg_chat_id msg)) = Some s
       /\ grows_for (user_id s) d d'.
Proof.
  intros Hbody. cbv zeta.
  pose proof (with_credential_cases E msg body d t) as H. cbv zeta in H.
  destruct (with_credential E msg body (start d t)) as [r w'].
  cbn [snd].
  destruct (select_telegram_user d (of_Z (msg_chat_id msg))) as [s|] eqn:Hsel.
  - destruct (truthy_opt (google_api_key s)).
    + destruct (telegram_sendChatAction E t (msg_chat_id msg) (lit "typing")).
      * right. exists s. split; [reflexivity|].
        pose proof (Hbody s {| db := d; tick := S t;
                               log := [EvSendChatAction (msg_chat_id msg)
                                         (lit "typing")] |}) as Hg.
        rewrite <- H in Hg. exact Hg.
      * left. destruct H as (_ & -> & _). apply store_kept_refl.
    + left. destruct H as [-> _]. apply store_kept_refl.
  - left.
    destruct H as [(m & _ & -> & _)|(u & s & -> & _)];
      [apply store_kept_refl|split; reflexivity].
Qed.

Lemma listed_linked (d : DB) (u : jsstring) (m : UserReceiptWithDetails) :
  In m (select_user_receipts d u) -> linked d u (r_id (receipt m)) = true.
Proof.
  intros Hin. unfold select_user_receipts in Hin.
  apply in_map_iff in Hin. destruct Hin as ([r ur] & <- & Hrow).
  apply (Permutation_in _ (Permutation_sym (order_by_perm _))) in Hrow.
  apply in_join in Hrow. destruct Hrow as (Hur & Hu & _ & Hk).
  apply linked_in. exists ur. simpl. auto.
Qed.

(** What [/delete] may have done to the tables. *)
Lemma handleDelete_effect (msg : TgMessage) (d : DB) (t : nat) :
  let d' := db (snd (handleDelete E msg (start d t))) in
  d' = d
  \/ exists s m,
       select_telegram_user d (of_Z (msg_chat_id msg)) = Some s
       /\ In m (select_user_receipts d (user_id s))
       /\ d' = after_delete d (user_id s) (r_id (receipt m)).
Proof.
  cbv zeta. unfold handleDelete, findTelegramUser, getUserReceipts,
    unlinkReceiptFromUser, deleteReceipt, sendMessage.
  unfold bind, get_db, put_db, ret, call. cbn [db start fst snd].
  destruct (select_telegram_user d (of_Z (msg_chat_id msg))) as [s|];
    [|left; reflexivity].
  destruct (List.length (split_ws (text_of msg)) <? 2)%nat;
    [left; reflexivity|].
  cbn [db fst snd]. change (db (start d t)) with d.
  destruct (find (fun r => startsWith (r_id (receipt r))
                             (nth 1 (split_ws (text_of msg)) []))
              (select_user_receipts d (user_id s))) as [m|] eqn:Hf;
    [|left; reflexivity].
  right. exists s, m. split; [reflexivity|].
  split; [apply find_some in Hf; apply Hf|]. reflexivity.
Qed.

End Isolation.

(** X23.  A message adds to the store only for its sender.  Whatever
    message arrives, every ownership link found afterwards that was not
    there before belongs to the account of the session that the chat of
    the message had before: no handler links a receipt to the account of
    another chat, and a chat without a session gets no receipt. *)
Theorem links_only_for_sender (E : env) (msg : TgMessage) (d : DB)
  (t : nat) :
  let '(_, w') := handleMessage E msg (start d t) in
  forall ur,
    In ur (user_receipts (db w')) ->
    In ur (user_receipts d)
    \/ exists s,
         select_telegram_user d (of_Z (msg_chat_id msg)) = Some s
         /\ ur_user_id ur = user_id s.
Proof.
  destruct (handleMessage E msg (start d t)) as [r w'] eqn:Hrun.
  change w' with (snd (r, w')). rewrite <- Hrun. clear Hrun r w'.
  assert (Hkept : forall c : M unit,
             changes_by store_kept c ->
             forall ur, In ur (user_receipts (db (snd (c (start d t))))) ->
                        In ur (user_receipts d)).
  { intros c Hc ur Hin. destruct (Hc (start d t)) as [Hl _].
    rewrite Hl in Hin. exact Hin. }
  assert (Hread : forall c : M unit,
             reads_only c ->
             forall ur, In ur (user_receipts (db (snd (c (start d t))))) ->
                        In ur (user_receipts d)).
  { intros c Hc ur Hin. rewrite Hc in Hin. exact Hin. }
  assert (Hgate : forall body,
             (forall user, changes_by (grows_for (user_id user)) (body user)) ->
             forall ur,
               In ur (user_receipts
                        (db (snd (with_credential E msg body (start d t))))) ->
               In ur (user_receipts d)
               \/ exists s,
                    select_telegram_user d (of_Z (msg_chat_id msg)) = Some s
                    /\ ur_user_id ur = user_id s).
  { intros body Hbody ur Hin.
    destruct (@with_credential_grows E msg body d t Hbody)
      as [[Hl _]|(s & Hsel & [Hl _])].
    - left. rewrite Hl in Hin. exact Hin.
    - destruct (Hl ur Hin) as [H|H]; [left; exact H|].
      right. exists s. auto. }
  destruct (kept_directory_commands E msg) as [Hstart Hsetkey].
  destruct (reading_handlers E msg []) as (Hstats & Hhist & _ & Hhelp & Hunk).
  unfold handleMessage. intros ur H.
  destruct (startsWith _ (lit "/start")); [left; revert H; apply Hkept, Hstart|].
  destruct (startsWith _ (lit "/setkey"));
    [left; revert H; apply Hkept, Hsetkey|].
  destruct (startsWith _ (lit "/stats"));
    [left; revert H; apply Hread, Hstats|].
  destruct (startsWith _ (lit "/history"));
    [left; revert H; apply Hread, Hhist|].
  destruct (startsWith _ (lit "/delete")).
  { left.
    destruct (@handleDelete_effect E msg d t) as [Hd|(s & m & _ & _ & Hd)];
      rewrite Hd in H; [exact H|].
    unfold after_delete, delete_receipt_rows, delete_link_rows in H.
    destruct (existsb _ _); simpl in H.
    - apply filter_In in H. destruct H as [H _].
      apply filter_In in H. apply H.
    - apply filter_In in H. apply H. }
  destruct (startsWith _ (lit "/help"));
    [left; revert H; apply Hread, Hhelp|].
  destruct (receiptMatch (text_of msg)) as [p|].
  { left. revert H. apply Hread. apply (reading_handlers E msg p). }
  destruct (has_photo msg).
  { revert H. rewrite handlePhoto_gate. apply Hgate.
    intros user. apply (bodies_grow_for_session E msg user). }
  destruct (truthy (text_of msg) && negb (startsWith (text_of msg) (lit "/"))).
  { revert H. rewrite handleTextReceipt_gate. apply Hgate.
    intros user. apply (bodies_grow_for_session E msg user). }
  destruct (startsWith (text_of msg) (lit "/")).
  - left. revert H. apply Hread, Hunk.
  - left. exact H.
Qed.

(** X24.  A message removes receipts only of its sender.  Whatever
    message arrives, every receipt that was stored before and is not
    stored afterwards was owned by the account of the session of the
    chat of the message, and the text of the message begins with
    [/delete]: no other route removes a receipt, and [/delete] cannot
    remove the receipt of another account. *)
Theorem deletes_only_own_receipts (E : env) (msg : TgMessage) (d : DB)
  (t : nat) :
  let '(_, w') := handleMessage E msg (start d t) in
  forall r,
    In r (receipts d) ->
    In r (receipts (db w'))
    \/ (startsWith (text_of msg) (lit "/delete") = true
        /\ exists s,
             select_telegram_user d (of_Z (msg_chat_id msg)) = Some s
             /\ linked d (user_id s) (row_id r) = true).
Proof.
  destruct (handleMessage E msg (start d t)) as [res w'] eqn:Hrun.
  change w' with (snd (res, w')). rewrite <- Hrun. clear Hrun res w'.
  assert (Hkept : forall c : M unit,
             changes_by store_kept c ->
             forall r, In r (receipts d) ->
                       In r (receipts (db (snd (c (start d t)))))).
  { intros c Hc r Hin. destruct (Hc (start d t)) as [_ Hr].
    rewrite Hr. exact Hin. }
  assert (Hread : forall c : M unit,
             reads_only c ->
             forall r, In r (receipts d) ->
                       In r (receipts (db (snd (c (start d t)))))).
  { intros c Hc r Hin. rewrite Hc. exact Hin. }
  assert (Hgate : forall body,
             (forall user, changes_by (grows_for (user_id user)) (body user)) ->
             forall r,
               In r (receipts d) ->
               In r (receipts
                       (db (snd (with_credential E msg body (start d t)))))).
  { intros body Hbody r Hin.
    destruct (@with_credential_grows E msg body d t Hbody)
      as [[_ Hr]|(s & _ & [_ Hk])].
    - rewrite Hr. exact Hin.
    - apply Hk. exact Hin. }
  destruct (kept_directory_commands E msg) as [Hstart Hsetkey].
  destruct (reading_handlers E msg []) as (Hstats & Hhist & _ & Hhelp & Hunk).
  unfold handleMessage. intros r Hin.
  destruct (startsWith _ (lit "/start")); [left; apply Hkept; assumption|].
  destruct (startsWith _ (lit "/setkey")); [left; apply Hkept; assumption|].
  destruct (startsWith _ (lit "/stats")); [left; apply Hread; assumption|].
  destruct (startsWith _ (lit "/history")); [left; apply Hread; assumption|].
  destruct (startsWith _ (lit "/delete")).
  { destruct (@handleDelete_effect E msg d t) as [Hd|(s & m & Hsel & Hm & Hd)];
      rewrite Hd; [left; exact Hin|].
    rewrite after_delete_receipts.
    destruct (row_id r =? r_id (receipt m)) eqn:Hid.
    - right. split; [reflexivity|]. exists s. split; [exact Hsel|].
      apply jseqb_eq in Hid. rewrite Hid. apply listed_linked. exact Hm.
    - left. apply filter_In. split; [exact Hin|]. rewrite Hid. reflexivity. }
  destruct (startsWith _ (lit "/help")); [left; apply Hread; assumption|].
  destruct (receiptMatch (text_of msg)) as [p|].
  { left. apply Hread; [|exact Hin]. apply (reading_handlers E msg p). }
  destruct (has_photo msg).
  { left. rewrite handlePhoto_gate. apply Hgate; [|exact Hin].
    intros user. apply (bodies_grow_for_session E msg user). }
  destruct (truthy (text_of msg) && negb (startsWith (text_of msg) (lit "/"))).
  { left. rewrite handleTextReceipt_gate. apply Hgate; [|exact Hin].
    intros user. apply (bodies_grow_for_session E msg user). }
  destruct (startsWith (text_of msg) (lit "/")).
  - left. apply Hread; assumption.
  - left. exact Hin.
Qed.

(** Chat 6 asks to delete with the prefix of a receipt of chat 5: nothing
    is removed. *)
Example other_chat_cannot_delete :
  let '(_, w') :=
    handleMessage plain_env (text_message 6 "/delete abcdef12")
      two_accounts_world in
  db w' = db two_accounts_world
  /\ List.length (receipts (db w')) = 2%nat.
Proof. vm_compute. split; reflexivity. Qed.

(** ** The data URI of a photo *)

Lemma startsWith_semicolon (c : char) (s p : jsstring) :
  (c =? 59)%N = false -> startsWith (c :: s) (59%N :: p) = false.
Proof. intros H. simpl. rewrite H. reflexivity. Qed.

(** A separator that begins with a semicolon cuts nothing in a text
    without semicolon. *)
Lemma split_lit_go_plain (p acc s : jsstring) :
  no_semicolon s = true ->
  split_lit_go (59%N :: p) 0 acc s = [rev acc ++ s].
Proof.
  revert acc. induction s as [|c s IH]; intros acc H; simpl.
  - rewrite app_nil_r. reflexivity.
  - simpl in H. apply andb_true_iff in H. destruct H as [Hc Hs].
    apply negb_true_iff in Hc. rewrite Hc. simpl.
    rewrite IH by exact Hs. simpl. rewrite <- app_assoc. reflexivity.
Qed.

Lemma split_lit_go_skip (sep acc a s : jsstring) :
  split_lit_go sep (List.length a) acc (a ++ s) = split_lit_go sep 0 acc s.
Proof.
  induction a as [|c a IH]; simpl; [reflexivity|]. exact IH.
Qed.

Lemma split_lit_go_first (p acc a b : jsstring) :
  no_semicolon a = true -> no_semicolon b = true ->
  split_lit_go (59%N :: p) 0 acc (a ++ (59%N :: p) ++ b)
  = [rev acc ++ a; b].
Proof.
  revert acc. induction a as [|c a IH]; intros acc Ha Hb.
  - cbn [app]. cbn [split_lit_go].
    assert (Hs : startsWith ((59%N :: p) ++ b) (59%N :: p) = true)
      by apply startsWith_app.
    cbn [app] in Hs. rewrite Hs. cbn [List.length Nat.sub].
    rewrite Nat.sub_0_r. rewrite app_nil_r. f_equal.
    rewrite split_lit_go_skip. apply (split_lit_go_plain p [] b Hb).
  - simpl in Ha. apply andb_true_iff in Ha. destruct Ha as [Hc Ha].
    apply negb_true_iff in Hc.
    cbn [app split_lit_go]. rewrite startsWith_semicolon by exact Hc.
    rewrite IH by assumption. simpl. rewrite <- app_assoc. reflexivity.
Qed.

Lemma includes_app (a p b : jsstring) : includes (a ++ p ++ b) p = true.
Proof.
  induction a as [|c a IH].
  - cbn [app]. destruct (p ++ b) as [|c s] eqn:He.
    + destruct p; [reflexivity|discriminate].
    + cbn [includes]. rewrite <- He, startsWith_app. reflexivity.
  - cbn [app includes]. rewrite IH. apply orb_true_r.
Qed.

Lemma includes_no_semicolon (s p : jsstring) :
  no_semicolon s = true -> includes s (59%N :: p) = false.
Proof.
  induction s as [|c s IH]; intros H; simpl; [reflexivity|].
  simpl in H. apply andb_true_iff in H. destruct H as [Hc Hs].
  apply negb_true_iff in Hc. rewrite Hc. simpl. apply IH. exact Hs.
Qed.

(** X25.  [parseBase64Image] inverts the data URI.  For a media type and
    a payload without semicolon (the alphabet of base64 has none),
    [data:<type>;base64,<payload>] is cut back into the type and the
    payload; every text without [;base64,], whatever else it holds, is
    taken as the payload of a JPEG; so the data URI that [handlePhoto]
    builds from the path and the bytes
    of the file reaches the model as [image/png] exactly for a path that
    ends in [.png], with the base64 text of the bytes. *)
Theorem parseBase64Image_inverts_data_uri (mime payload path : jsstring) :
  no_semicolon payload = true ->
  (no_semicolon mime = true ->
   parseBase64Image (lit "data:" ++ mime ++ lit ";base64," ++ payload)
   = (mime, payload))
  /\ parseBase64Image payload = (lit "image/jpeg", payload)
  /\ parseBase64Image (photo_data_uri path payload)
     = (if endsWith path (lit ".png")
        then lit "image/png" else lit "image/jpeg",
        payload)
  /\ (forall text,
        includes text (lit ";base64,") = false ->
        parseBase64Image text = (lit "image/jpeg", text)).
Proof.
  intros Hp.
  assert (Hgen : forall m, no_semicolon m = true ->
             parseBase64Image (lit "data:" ++ m ++ lit ";base64," ++ payload)
             = (m, payload)).
  { intros m Hm. unfold parseBase64Image.
    rewrite app_assoc. rewrite includes_app. unfold split_lit.
    assert (Hsplit :
              split_lit_go (lit ";base64,") 0 []
                ((lit "data:" ++ m) ++ lit ";base64," ++ payload)
              = [lit "data:" ++ m; payload]).
    { apply (@split_lit_go_first (lit "base64,") [] (lit "data:" ++ m)
               payload); [exact Hm|exact Hp]. }
    rewrite Hsplit. reflexivity. }
  split; [apply Hgen|]. split; [|split].
  - unfold parseBase64Image.
    assert (Hno : includes payload (lit ";base64,") = false)
      by (apply (@includes_no_semicolon payload (lit "base64,") Hp)).
    rewrite Hno. reflexivity.
  - unfold photo_data_uri.
    destruct (endsWith path (lit ".png")); apply Hgen; reflexivity.
  - intros text Hno. unfold parseBase64Image. rewrite Hno. reflexivity.
Qed.

Lemma parseBase64Image_inverts_data_uri_witness :
  (no_semicolon (lit "image/webp") = true ->
   parseBase64Image
     (lit "data:" ++ lit "image/webp" ++ lit ";base64," ++ lit "/9j/")
   = (lit "image/webp", lit "/9j/"))
  /\ parseBase64Image (lit "/9j/") = (lit "image/jpeg", lit "/9j/")
  /\ parseBase64Image (photo_data_uri (lit "photos/file_1.png") (lit "/9j/"))
     = (if endsWith (lit "photos/file_1.png") (lit ".png")
        then lit "image/png" else lit "image/jpeg",
        lit "/9j/")
  /\ parseBase64Image (lit "a;b") = (lit "image/jpeg", lit "a;b").
Proof.
  destruct (@parseBase64Image_inverts_data_uri (lit "image/webp")
              (lit "/9j/") (lit "photos/file_1.png") eq_refl)
    as (A & B & C & D).
  split; [exact A|]. split; [exact B|]. split; [exact C|].
  apply D. reflexivity.
Defined.

(** The data URI of [handlePhoto] is the one given to the model. *)
Example photo_sends_data_uri :
  In (EvAnalyzeImage
        (photo_data_uri (lit "photos/file_1.jpg") (lit "/9j/"))
        (lit "KEY") (Ok (lit "{}")))
     (log (snd (handleMessage shopping_env (photo_message 5)
                  (start keyed_db 9)))).
Proof. vm_compute. do 4 right. left. reflexivity. Qed.

(** ** The routes over HTTP *)

Section RestProperties.

Variable E : env.
Variable verifyToken : nat -> jsstring -> option JwtPayload.

(** [authenticateUser] followed by the test [!userId]. *)
Lemma authenticateUser_run (req : Request) (w : world) :
  exists w1,
    db w1 = db w /\ log w1 = log w
    /\ match requester verifyToken req (tick w) with
       | Some u =>
           authenticateUser verifyToken req w = (Ok (Some u), w1)
           /\ truthy u = true
       | None =>
           exists o,
             authenticateUser verifyToken req w = (Ok o, w1)
             /\ truthy_opt o = false
       end.
Proof.
  unfold authenticateUser, requester.
  destruct (getTokenFromHeader req) as [token|].
  - destruct (truthy token); simpl.
    + unfold bind, draw. simpl.
      destruct (verifyToken (tick w) token) as [p|]; simpl.
      * exists {| db := db w; tick := S (tick w); log := log w |}.
        split; [|split]; [reflexivity|reflexivity|].
        destruct (truthy (p_userId p)) eqn:Hu.
        -- split; [reflexivity|exact Hu].
        -- eexists. split; [reflexivity|exact Hu].
      * exists {| db := db w; tick := S (tick w); log := log w |}.
        split; [|split]; [reflexivity|reflexivity|].
        eexists. split; reflexivity.
    + exists w. split; [|split]; [reflexivity|reflexivity|].
      eexists. split; reflexivity.
  - exists w. split; [|split]; [reflexivity|reflexivity|].
    eexists. split; reflexivity.
Qed.

(** The ownership query finds a row exactly for a linked receipt. *)
Lemma select_user_receipt_linked (d : DB) (u id : jsstring) :
  db_ok d ->
  match select_user_receipt d u id with
  | Some row =>
      linked d u id = true /\ row_id (fst row) = id
      /\ In row (join_user_receipts d u)
  | None => linked d u id = false
  end.
Proof.
  intros Hok. unfold select_user_receipt.
  destruct (find _ (join_user_receipts d u)) as [[r ur]|] eqn:Hf.
  - apply find_some in Hf. destruct Hf as [Hin Hid]. simpl in Hid.
    apply jseqb_eq in Hid. split; [|split; [exact Hid|exact Hin]].
    apply in_join in Hin. destruct Hin as (Hur & Hu & Hr & Hk).
    apply linked_in. exists ur. repeat split; congruence.
  - destruct (linked d u id) eqn:Hl; [|reflexivity].
    exfalso. apply linked_in in Hl. destruct Hl as (ur & Hur & Hu & Hid).
    destruct (ok_links_receipt Hok ur Hur) as (r & Hr & Hk).
    assert (Hin : In (r, ur) (join_user_receipts d u)).
    { apply in_join. auto. }
    pose proof (find_none _ _ Hf _ Hin) as Hn. simpl in Hn.
    rewrite Hk, Hid, jseqb_refl in Hn. discriminate.
Qed.

(** X26.  [DELETE /api/receipts/:id] is for the owner only.  Under the
    constraints the handler answers 401 and writes nothing when the
    request is not authenticated, 404 and writes nothing when the
    authenticated account has no ownership link to the receipt, and 200
    otherwise; after a 200 the tables are those that [/delete] of the bot
    leaves for that account and receipt, and no account can read the
    receipt any more.  It never answers 500. *)
Theorem rest_delete_owner_only (req : Request) (id : jsstring) (w : world) :
  db_ok (db w) ->
  let '(res, w') := handleDeleteReceipt verifyToken req id w in
  log w' = log w
  /\ exists r,
       res = Ok r
       /\ match requester verifyToken req (tick w) with
          | None =>
              r = {| status := 401; payload := PError (lit "Unauthorized") |}
              /\ db w' = db w
          | Some u =>
              if linked (db w) u id
              then status r = 200%nat
                   /\ db w' = after_delete (db w) u id
                   /\ select_receipt (db w') id = None
                   /\ (forall u', select_user_receipt (db w') u' id = None)
              else r = {| status := 404;
                          payload := PError (lit "Receipt not found") |}
                   /\ db w' = db w
          end.
Proof.
  intros Hok. unfold handleDeleteReceipt, try_catch. rewrite bind_run.
  destruct (authenticateUser_run req w) as (w1 & Hdb1 & Hlog1 & Hauth).
  destruct (requester verifyToken req (tick w)) as [u|].
  - destruct Hauth as [Hauth Hu]. rewrite Hauth.
    cbn [truthy_opt or_else]. rewrite Hu. cbn [negb].
    unfold getUserReceiptById, getReceiptItems, unlinkReceiptFromUser,
      deleteReceipt, respond.
    unfold bind, get_db, put_db, ret. cbn [db tick log fst snd].
    rewrite Hdb1.
    pose proof (@select_user_receipt_linked (db w) u id Hok) as Hsel.
    destruct (select_user_receipt (db w) u id) as [row|].
    + destruct Hsel as (Hl & _ & _). rewrite Hl. cbn [db log].
      rewrite ?Hdb1. split; [exact Hlog1|]. eexists. split; [reflexivity|].
      split; [reflexivity|]. split; [reflexivity|]. split.
      * apply existsb_false_find. apply stored_after_delete.
      * intros u'. apply join_without_receipt. apply stored_after_delete.
    + rewrite Hsel. cbn [db log]. split; [exact Hlog1|].
      eexists. split; [reflexivity|]. split; [reflexivity|exact Hdb1].
  - destruct Hauth as (o & Hauth & Ho). rewrite Hauth. rewrite Ho.
    cbn [negb]. unfold unauthorized, respond, ret.
    split; [exact Hlog1|]. eexists. split; [reflexivity|].
    split; [reflexivity|exact Hdb1].
Qed.

(** X27.  The reading routes answer for the requester only and write
    nothing.  Under the constraints [GET /api/receipts/:id] answers 200
    with a receipt exactly when the authenticated account has an
    ownership link to it, and then with the entry of the listing of that
    account that carries the identifier; [GET /api/receipts] and
    [GET /api/receipts/stats] answer with the listing and the statistics
    of the authenticated account; all three answer 401 to a request that
    is not authenticated, never 500. *)
Theorem rest_reads_for_requester (req : Request) (id : jsstring)
  (w : world) :
  db_ok (db w) ->
  let unauth := {| status := 401; payload := PError (lit "Unauthorized") |} in
  let who := requester verifyToken req (tick w) in
  (exists w1,
      db w1 = db w /\ log w1 = log w
      /\ handleGetReceiptById verifyToken req id w
         = (Ok match who with
               | None => unauth
               | Some u =>
                   match
                     find (fun x => r_id (receipt x) =? id)
                       (select_user_receipts (db w) u)
                   with
                   | Some x => {| status := 200; payload := PReceipt x |}
                   | None =>
                       {| status := 404;
                          payload := PError (lit "Receipt not found") |}
                   end
               end,
            w1)
      /\ handleGetUserReceipts verifyToken req w
         = (Ok match who with
               | None => unauth
               | Some u =>
                   {| status := 200;
                      payload := PReceipts (select_user_receipts (db w) u) |}
               end,
            w1)
      /\ handleGetReceiptStats E verifyToken req w
         = (Ok match who with
               | None => unauth
               | Some u =>
                   {| status := 200;
                      payload :=
                        PStats (select_user_receipt_stats E (db w) u) |}
               end,
            w1))
  /\ match who with
     | Some u =>
         forall x,
           find (fun x => r_id (receipt x) =? id)
             (select_user_receipts (db w) u) = Some x ->
           linked (db w) u id = true
     | None => True
     end.
Proof.
  intros Hok. cbv zeta.
  destruct (authenticateUser_run req w) as (w1 & Hdb1 & Hlog1 & Hauth).
  split.
  - exists w1. split; [exact Hdb1|]. split; [exact Hlog1|].
    unfold handleGetReceiptById, handleGetUserReceipts,
      handleGetReceiptStats, try_catch.
    rewrite !bind_run.
    destruct (requester verifyToken req (tick w)) as [u|].
    + destruct Hauth as [Hauth Hu]. rewrite Hauth.
      cbn [truthy_opt or_else]. rewrite Hu. cbn [negb].
      assert (Hok1 : db_ok (db w1)) by (rewrite Hdb1; exact Hok).
      rewrite <- (select_user_receipt_listed u id Hok).
      unfold getUserReceiptById, getReceiptItems, getUserReceipts,
        getUserReceiptStats, respond.
      unfold bind, get_db, ret. cbn [db fst snd]. rewrite Hdb1.
      split; [|split; reflexivity].
      destruct (select_user_receipt (db w) u id); cbn [db]; rewrite ?Hdb1;
        reflexivity.
    + destruct Hauth as (o & Hauth & Ho). rewrite Hauth, Ho. cbn [negb].
      unfold unauthorized, respond, ret. repeat split; reflexivity.
  - destruct (requester verifyToken req (tick w)) as [u|]; [|exact I].
    intros x Hx. apply find_some in Hx. destruct Hx as [Hin Hid].
    apply jseqb_eq in Hid. rewrite <- Hid. apply listed_linked. exact Hin.
Qed.

End RestProperties.

(** The account of chat 5 deletes its first receipt over HTTP; the
    account of chat 6 cannot. *)
Lemma rest_delete_owner_only_witness :
  let '(res, w') :=
    handleDeleteReceipt sample_verifyToken (bearer second_account)
      (sample_uuid 9) two_accounts_world in
  log w' = log two_accounts_world
  /\ exists r,
       res = Ok r
       /\ match
            requester sample_verifyToken (bearer second_account)
              (tick two_accounts_world)
          with
          | None =>
              r = {| status := 401; payload := PError (lit "Unauthorized") |}
              /\ db w' = db two_accounts_world
          | Some u =>
              if linked (db two_accounts_world) u (sample_uuid 9)
              then status r = 200%nat
                   /\ db w'
                      = after_delete (db two_accounts_world) u (sample_uuid 9)
                   /\ select_receipt (db w') (sample_uuid 9) = None
                   /\ (forall u',
                         select_user_receipt (db w') u' (sample_uuid 9)
                         = None)
              else r = {| status := 404;
                          payload := PError (lit "Receipt not found") |}
                   /\ db w' = db two_accounts_world
          end.
Proof.
  apply (@rest_delete_owner_only sample_verifyToken (bearer second_account)
           (sample_uuid 9) two_accounts_world).
  apply check_db_ok. vm_compute. reflexivity.
Defined.

Example rest_delete_answers :
  status_of (handleDeleteReceipt sample_verifyToken (bearer second_account)
               (sample_uuid 9) two_accounts_world) = Some 404%nat
  /\ status_of (handleDeleteReceipt sample_verifyToken (bearer sample_account)
                  (sample_uuid 9) two_accounts_world) = Some 200%nat
  /\ status_of (handleDeleteReceipt sample_verifyToken
                  {| authorization := Some (lit "bearer x") |}
                  (sample_uuid 9) two_accounts_world) = Some 401%nat
  /\ status_of (handleDeleteReceipt sample_verifyToken
                  {| authorization := Some (lit "Bearer ") |}
                  (sample_uuid 9) two_accounts_world) = Some 401%nat.
Proof. vm_compute. repeat split; reflexivity. Qed.

Lemma rest_reads_for_requester_witness :
  let w := two_accounts_world in
  let id := sample_uuid 9 in
  let unauth := {| status := 401; payload := PError (lit "Unauthorized") |} in
  let who := requester sample_verifyToken (bearer sample_account) (tick w) in
  (exists w1,
      db w1 = db w /\ log w1 = log w
      /\ handleGetReceiptById sample_verifyToken (bearer sample_account) id w
         = (Ok match who with
               | None => unauth
               | Some u =>
                   match
                     find (fun x => r_id (receipt x) =? id)
                       (select_user_receipts (db w) u)
                   with
                   | Some x => {| status := 200; payload := PReceipt x |}
                   | None =>
                       {| status := 404;
                          payload := PError (lit "Receipt not found") |}
                   end
               end,
            w1)
      /\ handleGetUserReceipts sample_verifyToken (bearer sample_account) w
         = (Ok match who with
               | None => unauth
               | Some u =>
                   {| status := 200;
                      payload := PReceipts (select_user_receipts (db w) u) |}
               end,
            w1)
      /\ handleGetReceiptStats plain_env sample_verifyToken
           (bearer sample_account) w
         = (Ok match who with
               | None => unauth
               | Some u =>
                   {| status := 200;
                      payload :=
                        PStats (select_user_receipt_stats plain_env (db w) u) |}
               end,
            w1))
  /\ match who with
     | Some u =>
         forall x,
           find (fun x => r_id (receipt x) =? id)
             (select_user_receipts (db w) u) = Some x ->
           linked (db w) u id = true
     | None => True
     end.
Proof.
  apply (@rest_reads_for_requester plain_env sample_verifyToken
           (bearer sample_account) (sample_uuid 9) two_accounts_world).
  apply check_db_ok. vm_compute. reflexivity.
Defined.

(** ** E-mail addresses and passwords *)

Lemma nullable_matches (r : regex) : nullable r = true <-> matches r [].
Proof.
  split.
  - induction r; simpl; intros H; try discriminate.
    + constructor.
    + apply andb_true_iff in H. destruct H as [H1 H2].
      change (@nil char) with (@nil char ++ []). constructor; auto.
    + apply orb_true_iff in H. destruct H as [H|H];
        [apply m_alt_l|apply m_alt_r]; auto.
    + constructor.
  - intros H. remember [] as s eqn:Hs. induction H; simpl; try reflexivity;
      try discriminate.
    + apply app_eq_nil in Hs. destruct Hs as [-> ->].
      rewrite IHmatches1, IHmatches2; reflexivity.
    + rewrite IHmatches by exact Hs. reflexivity.
    + rewrite IHmatches by exact Hs. apply orb_true_r.
Qed.

Lemma matches_star_cons_inv (r : regex) (c : char) (s : jsstring) :
  matches (Star r) (c :: s) ->
  exists s1 s2, s = s1 ++ s2 /\ matches r (c :: s1) /\ matches (Star r) s2.
Proof.
  intros H. remember (Star r) as r0 eqn:Hr. remember (c :: s) as s0 eqn:Hs.
  revert c s Hs.
  induction H; intros c0 s0 Hs; try discriminate.
  injection Hr as ->.
  destruct s1 as [|c1 s1].
  - simpl in Hs. apply IHmatches2; [reflexivity|exact Hs].
  - simpl in Hs. injection Hs as -> <-. exists s1, s2. auto.
Qed.

Lemma matches_seq_inv (r1 r2 : regex) (s : jsstring) :
  matches (Seq r1 r2) s ->
  exists s1 s2, s = s1 ++ s2 /\ matches r1 s1 /\ matches r2 s2.
Proof. intros H. inversion H; subst. eauto. Qed.

Lemma deriv_matches (r : regex) (c : char) (s : jsstring) :
  matches (deriv c r) s <-> matches r (c :: s).
Proof.
  revert s. induction r; intros s; simpl.
  - split; intros H; inversion H.
  - split; intros H; inversion H.
  - destruct (p c) eqn:Hp; split; intros H.
    + inversion H; subst. constructor. exact Hp.
    + inversion H; subst. constructor.
    + inversion H.
    + inversion H; subst. congruence.
  - assert (Hseq : matches (Seq (deriv c r1) r2) s ->
                   matches (Seq r1 r2) (c :: s)).
    { intros H. inversion H; subst.
      change (c :: s1 ++ s2) with ((c :: s1) ++ s2).
      constructor; [apply IHr1|]; assumption. }
    assert (Hinv : matches (Seq r1 r2) (c :: s) ->
                   matches (Seq (deriv c r1) r2) s
                   \/ (matches r1 [] /\ matches r2 (c :: s))).
    { intros H. apply matches_seq_inv in H.
      destruct H as (s1 & s2 & Heq & H1 & H2).
      destruct s1 as [|c1 s1].
      - right. simpl in Heq. subst. auto.
      - left. simpl in Heq. injection Heq as <- ->.
        constructor; [apply IHr1|]; assumption. }
    destruct (nullable r1) eqn:Hn.
    + split; intros H.
      * inversion H; subst; [auto|].
        change (c :: s) with ([] ++ c :: s). constructor.
        -- apply nullable_matches. exact Hn.
        -- apply IHr2. assumption.
      * destruct (Hinv H) as [H1|[_ H2]];
          [apply m_alt_l; exact H1|apply m_alt_r; apply IHr2; exact H2].
    + split; intros H; [auto|].
      destruct (Hinv H) as [H1|[H1 _]]; [exact H1|].
      apply nullable_matches in H1. congruence.
  - split; intros H; inversion H; subst;
      try (apply m_alt_l; apply IHr1; assumption);
      try (apply m_alt_r; apply IHr2; assumption).
  - split; intros H.
    + inversion H; subst.
      change (c :: s1 ++ s2) with ((c :: s1) ++ s2).
      constructor; [apply IHr|]; assumption.
    + apply matches_star_cons_inv in H.
      destruct H as (s1 & s2 & -> & H1 & H2).
      constructor; [apply IHr|]; assumption.
Qed.

(** The test by derivatives decides the match of the whole text. *)
Lemma test_whole_matches (r : regex) (s : jsstring) :
  test_whole r s = true <-> matches r s.
Proof.
  unfold test_whole. revert r. induction s as [|c s IH]; intros r; simpl.
  - apply nullable_matches.
  - rewrite IH. apply deriv_matches.
Qed.

Lemma matches_class (p : char -> bool) (s : jsstring) :
  matches (Class p) s <-> exists c, s = [c] /\ p c = true.
Proof.
  split.
  - intros H. inversion H; subst. eauto.
  - intros (c & -> & Hc). constructor. exact Hc.
Qed.

Lemma matches_star_class (p : char -> bool) (s : jsstring) :
  matches (Star (Class p)) s <-> forallb p s = true.
Proof.
  split.
  - intros H. remember (Star (Class p)) as r eqn:Hr.
    induction H; try discriminate; [reflexivity|].
    injection Hr as ->. inversion H; subst. simpl.
    rewrite IHmatches2 by reflexivity.
    match goal with Hc : p _ = true |- _ => rewrite Hc end. reflexivity.
  - induction s as [|c s IH]; simpl; intros H; [constructor|].
    apply andb_true_iff in H. destruct H as [Hc Hs].
    change (c :: s) with ([c] ++ s). constructor; [constructor|]; auto.
Qed.

Lemma matches_plus_class (p : char -> bool) (s : jsstring) :
  matches (Plus (Class p)) s <-> s <> [] /\ forallb p s = true.
Proof.
  unfold Plus. split.
  - intros H. apply matches_seq_inv in H.
    destruct H as (s1 & s2 & -> & H1 & H2).
    apply matches_class in H1. destruct H1 as (c & -> & Hc).
    apply matches_star_class in H2. simpl. rewrite Hc, H2.
    split; [discriminate|reflexivity].
  - intros [Hne H]. destruct s as [|c s]; [congruence|].
    simpl in H. apply andb_true_iff in H. destruct H as [Hc Hs].
    change (c :: s) with ([c] ++ s).
    constructor; [constructor; exact Hc|].
    apply matches_star_class. exact Hs.
Qed.

(** The texts that the pattern of [isValidEmail] matches. *)
Lemma matches_emailRegex (email : jsstring) :
  matches emailRegex email
  <-> exists l a b,
        email = l ++ [64%N] ++ a ++ [46%N] ++ b
        /\ word l /\ word a /\ word b.
Proof.
  unfold emailRegex. split.
  - intros H.
    apply matches_seq_inv in H. destruct H as (l & s1 & -> & Hl & H).
    apply matches_seq_inv in H. destruct H as (at_ & s2 & -> & Hat & H).
    apply matches_seq_inv in H. destruct H as (a & s3 & -> & Ha & H).
    apply matches_seq_inv in H. destruct H as (dot & b & -> & Hdot & Hb).
    apply matches_class in Hat. destruct Hat as (c & -> & Hc).
    apply matches_class in Hdot. destruct Hdot as (c' & -> & Hc').
    apply N.eqb_eq in Hc. apply N.eqb_eq in Hc'. subst c c'.
    apply matches_plus_class in Hl, Ha, Hb.
    exists l, a, b. auto.
  - intros (l & a & b & -> & Hl & Ha & Hb).
    constructor; [apply matches_plus_class; exact Hl|].
    constructor; [constructor; reflexivity|].
    constructor; [apply matches_plus_class; exact Ha|].
    constructor; [constructor; reflexivity|].
    apply matches_plus_class. exact Hb.
Qed.

(** X28.  [isValidEmail] accepts exactly the texts of the form
    [local@name.rest] in which [local], [name] and [rest] are not empty
    and hold neither white space nor a further [@]: there is exactly one
    [@], and some dot after it that is neither the first nor the last
    code unit of what follows the [@]. *)
Theorem isValidEmail_shape (email : jsstring) :
  isValidEmail email = true
  <-> exists l a b,
        email = l ++ [64%N] ++ a ++ [46%N] ++ b
        /\ word l /\ word a /\ word b.
Proof.
  unfold isValidEmail. rewrite test_whole_matches.
  apply matches_emailRegex.
Qed.

Example emails_tested :
  isValidEmail (lit "ann@example.org") = true
  /\ isValidEmail (lit "ann@example") = false
  /\ isValidEmail (lit "ann@.org") = false
  /\ isValidEmail (lit "ann@example.") = false
  /\ isValidEmail (lit "a@b@example.org") = false
  /\ isValidEmail (lit "ann smith@example.org") = false
  /\ isValidEmail (lit "ann@a..b") = true.
Proof. vm_compute. repeat split; reflexivity. Qed.

Lemma uint_not_space_at (d : Decimal.uint) :
  forallb not_space_at (lit (DecimalString.NilEmpty.string_of_uint d)) = true.
Proof. induction d; simpl; try exact IHd; reflexivity. Qed.

(** [String(n)] of an integer has neither white space nor [@] in it. *)
Lemma of_Z_not_space_at (z : Z) : forallb not_space_at (of_Z z) = true.
Proof.
  unfold of_Z. destruct (Z.to_int z) as [d|d]; simpl.
  - destruct d; try apply uint_not_space_at; reflexivity.
  - destruct d; try apply uint_not_space_at; reflexivity.
Qed.

(** X29.  The placeholder addresses of the bot are addresses that
    registration accepts.  For every chat identifier the address
    [tg_<chat>@telegram.local] that [createTelegramUser] gives the
    account of a chat passes [isValidEmail]; and once an account holds
    that address, [/start] from a chat without a session throws, writes
    nothing and sends nothing, whatever the outside answers. *)
Theorem placeholder_email_can_be_taken (E : env) (msg : TgMessage)
  (d : DB) (t : nat) :
  let chat := msg_chat_id msg in
  isValidEmail (placeholder_email (of_Z chat)) = true
  /\ (startsWith (text_of msg) (lit "/start") = true ->
      select_telegram_user d (of_Z chat) = None ->
      email_taken d (placeholder_email (of_Z chat)) = true ->
      let '(res, w') := handleMessage E msg (start d t) in
      (exists m, res = Throw m) /\ db w' = d /\ log w' = []).
Proof.
  cbv zeta. split.
  - unfold isValidEmail. apply test_whole_matches, matches_emailRegex.
    exists (lit "tg_" ++ of_Z (msg_chat_id msg)), (lit "telegram"),
      (lit "local").
    split; [|split; [|split]].
    + unfold placeholder_email. rewrite <- !app_assoc. reflexivity.
    + split; [discriminate|]. rewrite forallb_app.
      rewrite of_Z_not_space_at. reflexivity.
    + split; [discriminate|reflexivity].
    + split; [discriminate|reflexivity].
  - intros Hcmd Hsel Htaken.
    unfold handleMessage. rewrite Hcmd.
    pose proof (@handleStart_run E msg d t) as H. cbv zeta in H.
    destruct (handleStart E msg (start d t)) as [res w'].
    rewrite Hsel, Htaken, orb_true_r in H. exact H.
Qed.

Lemma placeholder_email_can_be_taken_witness :
  isValidEmail (placeholder_email (of_Z 6)) = true
  /\ exists m,
       fst (handleMessage plain_env (text_message 6 "/start")
              (start (db squatted_world) 40)) = Throw m.
Proof.
  destruct (@placeholder_email_can_be_taken plain_env
              (text_message 6 "/start") (db squatted_world) 40)
    as [Hvalid Hrun].
  split; [exact Hvalid|].
  specialize (Hrun eq_refl eq_refl eq_refl).
  destruct (handleMessage plain_env (text_message 6 "/start")
              (start (db squatted_world) 40)) as [res w'].
  apply Hrun.
Defined.

Lemma split_colon_plain (acc s : jsstring) :
  no_colon s = true ->
  split_lit_go ((58%N : char) :: nil) 0 acc s = [rev acc ++ s].
Proof.
  revert acc. induction s as [|c s IH]; intros acc H; simpl.
  - rewrite app_nil_r. reflexivity.
  - simpl in H. apply andb_true_iff in H. destruct H as [Hc Hs].
    apply negb_true_iff in Hc. rewrite Hc. simpl.
    rewrite IH by exact Hs. simpl. rewrite <- app_assoc. reflexivity.
Qed.

Lemma split_colon_first (acc a b : jsstring) :
  no_colon a = true -> no_colon b = true ->
  split_lit_go ((58%N : char) :: nil) 0 acc (a ++ (58%N : char) :: b)
  = [rev acc ++ a; b].
Proof.
  revert acc. induction a as [|c a IH]; intros acc Ha Hb.
  - simpl. rewrite app_nil_r. f_equal.
    apply (split_colon_plain [] b Hb).
  - simpl in Ha. apply andb_true_iff in Ha. destruct Ha as [Hc Ha].
    apply negb_true_iff in Hc. simpl. rewrite Hc. simpl.
    rewrite (IH (c :: acc) Ha Hb). simpl. rewrite <- app_assoc. reflexivity.
Qed.

(** X30.  Round trip of [hashPassword] and [verifyPassword].  For a salt
    and a derived key without colon (both are hexadecimal texts),
    [verifyPassword] on the text that [hashPassword] made for a password
    accepts that password, and accepts another password exactly when the
    key derived from it with the stored salt is the stored key; a stored
    text without colon is rejected whatever the password. *)
Theorem verifyPassword_accepts_hashed (pbkdf2 : jsstring -> jsstring -> jsstring)
  (salt password attempt : jsstring) :
  no_colon salt = true ->
  no_colon (pbkdf2 password salt) = true ->
  verifyPassword pbkdf2 password (hashPasswordWith pbkdf2 salt password)
  = true
  /\ verifyPassword pbkdf2 attempt (hashPasswordWith pbkdf2 salt password)
     = (pbkdf2 attempt salt =? pbkdf2 password salt)
  /\ verifyPassword pbkdf2 attempt salt = false.
Proof.
  intros Hsalt Hkey.
  assert (Hsplit : split_lit (hashPasswordWith pbkdf2 salt password) (lit ":")
                   = [salt; pbkdf2 password salt]).
  { unfold split_lit, hashPasswordWith.
    apply (split_colon_first [] salt (pbkdf2 password salt) Hsalt Hkey). }
  unfold verifyPassword. rewrite Hsplit. cbn [nth nth_error].
  split; [apply jseqb_refl|]. split; [reflexivity|].
  assert (Hone : split_lit salt (lit ":") = [salt])
    by apply (split_colon_plain [] salt Hsalt).
  rewrite Hone. reflexivity.
Qed.

Lemma verifyPassword_accepts_hashed_witness :
  verifyPassword sample_pbkdf2 (lit "secret1")
    (hashPasswordWith sample_pbkdf2 (lit "00ff") (lit "secret1")) = true
  /\ verifyPassword sample_pbkdf2 (lit "guess")
       (hashPasswordWith sample_pbkdf2 (lit "00ff") (lit "secret1"))
     = (sample_pbkdf2 (lit "guess") (lit "00ff")
        =? sample_pbkdf2 (lit "secret1") (lit "00ff"))
  /\ verifyPassword sample_pbkdf2 (lit "guess") (lit "00ff") = false.
Proof.
  apply (@verifyPassword_accepts_hashed sample_pbkdf2 (lit "00ff")
           (lit "secret1") (lit "guess")).
  - vm_compute. reflexivity.
  - vm_compute. reflexivity.
Defined.
